(** * The stoat pheromone simulation engine (pheromone/calculation.py)

    A shallow embedding of the single-realisation engine: the three flat
    tables (agents, matings, pheromone habituations), the free functions
    that mutate them, and the day/hour loop of [runRealisation].

    Conventions of the embedding.
    - float64 quantities are exact rationals ([Q]); the transcendental
      functions and the samplers of numpy are fields of [Numerics].
    - int32 fields are integers ([Z]); the values stored in a run (ids,
      day numbers) stay far below 2^31, no wrap-around is modelled.
    - numpy's random generator is a finite list of raw draws consumed in
      order; a computation that needs a draw when the list is empty is
      [Starved] (it would still be running).
    - an array access out of range is the outcome [Fault]: the source is
      compiled with numba's [njit], which does not check bounds, so this
      is where the program leaves defined behaviour. *)

From Stdlib Require Import Strings.String.
From Stdlib Require Import ZArith QArith Qround List Lia Bool Lqa.
From stdpp Require Import base list.
Import ListNotations.

Local Open Scope Z_scope.

(** ** Numeric helpers *)

Definition Qlt_bool (a b : Q) : bool := negb (Qle_bool b a).

(** [np.round]: round half to even, then [int(...)]. *)
Definition np_round (q : Q) : Z :=
  let f := Qfloor q in
  let r := (q - inject_Z f)%Q in
  if Qlt_bool r (1 # 2) then f
  else if Qlt_bool (1 # 2) r then f + 1
  else if Z.even f then f else f + 1.

(** The float functions and samplers the engine calls. A sampler takes
    its distribution parameters and one raw draw. *)
Record Numerics := {
  np_sqrt : Q -> Q;
  np_exp : Q -> Q;
  np_log : Q -> Q;
  np_power : Q -> Q -> Q;
  np_sin : Q -> Q;
  np_cos : Q -> Q;
  np_arcsin : Q -> Q;
  np_arccos : Q -> Q;
  np_pi : Q;
  weibull : Q -> Q -> Q;
  vonmises : Q -> Q -> Q -> Q;
  poisson : Q -> Q -> nat
}.

(** ** The record types (STOAT_DTYPE, PHEROMONE_DTYPE, ...) *)

Module Stoat.
Record t := mk {
    deleted : bool; male : bool; pregnant : bool;
    x : Q; y : Q; home_x : Q; home_y : Q;
    id : Z; pregnant_day : Z; parentid : Z;
    bearingT_1 : Q; homerange : bool
  }.
Definition set_deleted v s :=
    mk v (male s) (pregnant s) (x s) (y s) (home_x s) (home_y s) (id s)
       (pregnant_day s) (parentid s) (bearingT_1 s) (homerange s).
Definition set_male v s :=
    mk (deleted s) v (pregnant s) (x s) (y s) (home_x s) (home_y s) (id s)
       (pregnant_day s) (parentid s) (bearingT_1 s) (homerange s).
Definition set_pregnant v s :=
    mk (deleted s) (male s) v (x s) (y s) (home_x s) (home_y s) (id s)
       (pregnant_day s) (parentid s) (bearingT_1 s) (homerange s).
Definition set_x v s :=
    mk (deleted s) (male s) (pregnant s) v (y s) (home_x s) (home_y s) (id s)
       (pregnant_day s) (parentid s) (bearingT_1 s) (homerange s).
Definition set_y v s :=
    mk (deleted s) (male s) (pregnant s) (x s) v (home_x s) (home_y s) (id s)
       (pregnant_day s) (parentid s) (bearingT_1 s) (homerange s).
Definition set_home_x v s :=
    mk (deleted s) (male s) (pregnant s) (x s) (y s) v (home_y s) (id s)
       (pregnant_day s) (parentid s) (bearingT_1 s) (homerange s).
Definition set_home_y v s :=
    mk (deleted s) (male s) (pregnant s) (x s) (y s) (home_x s) v (id s)
       (pregnant_day s) (parentid s) (bearingT_1 s) (homerange s).
Definition set_id v s :=
    mk (deleted s) (male s) (pregnant s) (x s) (y s) (home_x s) (home_y s) v
       (pregnant_day s) (parentid s) (bearingT_1 s) (homerange s).
Definition set_pregnant_day v s :=
    mk (deleted s) (male s) (pregnant s) (x s) (y s) (home_x s) (home_y s) (id s)
       v (parentid s) (bearingT_1 s) (homerange s).
Definition set_parentid v s :=
    mk (deleted s) (male s) (pregnant s) (x s) (y s) (home_x s) (home_y s) (id s)
       (pregnant_day s) v (bearingT_1 s) (homerange s).
Definition set_bearingT_1 v s :=
    mk (deleted s) (male s) (pregnant s) (x s) (y s) (home_x s) (home_y s) (id s)
       (pregnant_day s) (parentid s) v (homerange s).
Definition set_homerange v s :=
    mk (deleted s) (male s) (pregnant s) (x s) (y s) (home_x s) (home_y s) (id s)
       (pregnant_day s) (parentid s) (bearingT_1 s) v.
  (** A row of [np.zeros(..., dtype=STOAT_DTYPE)] with [deleted = True]. *)
Definition empty : t := mk true false false 0 0 0 0 0 0 0 0 false.
End Stoat.

Module Pheromone.
Record t := mk { x : Q; y : Q }.
End Pheromone.

Module Interaction.
Record t := mk { pheromoneid : Z; stoatid : Z; ndays : Z }.
Definition set_stoatid v e := mk (pheromoneid e) v (ndays e).
Definition set_ndays v e := mk (pheromoneid e) (stoatid e) v.
Definition active (e : t) : bool := negb (stoatid e =? -1).
End Interaction.

Module Mating.
Record t := mk { maleid : Z; femaleid : Z; ndays : Z }.
Definition set_maleid v e := mk v (femaleid e) (ndays e).
Definition set_ndays v e := mk (maleid e) (femaleid e) v.
Definition active (e : t) : bool := negb (maleid e =? -1).
End Mating.

Definition INITIAL_STOAT_ARRAY_SIZE : nat := 1000.

(** ** Outcomes and the computation monad *)

Inductive Error :=
| ValueError (msg : string)
| ZeroDivisionError
| UnboundLocalError (name : string).

Definition Draws := list Q.

Inductive Outcome (A : Type) :=
| Ok (a : A) (rest : Draws)
| Raise (e : Error)
| Fault (array : string) (index : Z)
| Starved.
Arguments Ok {A} a rest.
Arguments Raise {A} e.
Arguments Fault {A} array index.
Arguments Starved {A}.

Definition M (A : Type) := Draws -> Outcome A.

Definition ret {A} (a : A) : M A := fun d => Ok a d.
Definition bind {A B} (m : M A) (k : A -> M B) : M B :=
  fun d => match m d with
           | Ok a d' => k a d'
           | Raise e => Raise e
           | Fault s i => Fault s i
           | Starved => Starved
           end.
Definition raise {A} (e : Error) : M A := fun _ => Raise e.
Definition fault {A} (array : string) (index : Z) : M A := fun _ => Fault array index.
Definition draw : M Q :=
  fun d => match d with
           | [] => Starved
           | u :: rest => Ok u rest
           end.

Declare Scope sim_scope.
Delimit Scope sim_scope with sim.
Notation "'let*' x ':=' m 'in' k" := (bind m (fun x => k))
  (at level 10, x pattern, m at level 100, k at level 200) : sim_scope.
Local Open Scope sim_scope.

(** [for i in <indices>] with [break]: the body says whether to go on. *)
Inductive Ctl (S : Type) := Next (s : S) | Break (s : S).
Arguments Next {S} s.
Arguments Break {S} s.

Definition ctl_state {S} (c : Ctl S) : S :=
  match c with Next s => s | Break s => s end.

Fixpoint forEach {S} (idxs : list nat) (body : nat -> S -> M (Ctl S)) (s : S) : M S :=
  match idxs with
  | [] => ret s
  | i :: rest =>
      let* c := body i s in
      match c with
      | Next s' => forEach rest body s'
      | Break s' => ret s'
      end
  end.

Definition forRange {S} (n : nat) (body : nat -> S -> M (Ctl S)) (s : S) : M S :=
  forEach (seq 0 n) body s.

(** ** Array accesses *)

Definition getStoat (stoatArray : list Stoat.t) (i : nat) : M Stoat.t :=
  match stoatArray !! i with
  | Some s => ret s
  | None => fault "stoatArray" (Z.of_nat i)
  end.

Definition setStoat (stoatArray : list Stoat.t) (i : nat) (f : Stoat.t -> Stoat.t)
  : M (list Stoat.t) :=
  match stoatArray !! i with
  | Some s => ret (<[i := f s]> stoatArray)
  | None => fault "stoatArray" (Z.of_nat i)
  end.

(** ** Samplers (one raw draw each) *)

(** [np.random.random()] *)
Definition random : M Q := draw.

(** [np.random.binomial(1, p)]: never 1 when [p = 0], always 1 when
    [p = 1], in between decided by the raw draw. *)
Definition binomial1 (p : Q) : M Z :=
  let* u := draw in
  ret (if Qeq_bool p 0 then 0
       else if Qeq_bool p 1 then 1
       else if Qlt_bool u p then 1 else 0).

(** [np.random.uniform(a, b)]: [a + (b - a) * u] for a raw draw [u] of
    [0, 1). The model computes it exactly; in float64 the sum can round
    up to [b]. *)
Definition uniform (a b : Q) : M Q :=
  let* u := draw in ret (a + (b - a) * u)%Q.

(** Float division; numba's default error model raises on a zero divisor. *)
Definition fdiv (a b : Q) : M Q :=
  if Qeq_bool b 0 then raise ZeroDivisionError else ret (a / b)%Q.

(** numpy indexing: a negative index counts from the end. *)
Definition np_index {A} (l : list A) (i : Z) : option A :=
  if 0 <=? i then l !! Z.to_nat i
  else if - Z.of_nat (length l) <=? i then l !! Z.to_nat (Z.of_nat (length l) + i)
  else None.

(** ** The spatial domain *)

Record Island := {
  mask : list (list Z);
  tlx : Q; tly : Q; brx : Q; bry : Q;
  pixsize : Q
}.

Definition checkLocationIsOnIsland (isl : Island) (x y : Q) : M bool :=
  let isInsideIsland :=
    Qle_bool (tlx isl) x && Qle_bool x (brx isl) &&
    Qle_bool y (tly isl) && Qle_bool (bry isl) y in
  if isInsideIsland then
    let* cx := fdiv (x - tlx isl) (pixsize isl) in
    let xPix := np_round cx in
    let* cy := fdiv (tly isl - y) (pixsize isl) in
    let yPix := np_round cy in
    match np_index (mask isl) yPix with
    | None => fault "mask" yPix
    | Some row =>
        match np_index row xPix with
        | None => fault "mask" xPix
        | Some v => ret (0 <? v)
        end
    end
  else ret false.

(** The [while not isInsideIsland] loop. Every iteration consumes two
    draws, so the number of iterations is bounded by the draws left. *)
Fixpoint createRandomLocation_loop (fuel : nat) (isl : Island) : M (Q * Q) :=
  match fuel with
  | O => fun _ => Starved
  | S fuel' =>
      let xsize := (brx isl - tlx isl)%Q in
      let ysize := (tly isl - bry isl)%Q in
      let* u1 := random in
      let x := (tlx isl + u1 * xsize)%Q in
      let* u2 := random in
      let y := (bry isl + u2 * ysize)%Q in
      let* isInsideIsland := checkLocationIsOnIsland isl x y in
      if isInsideIsland then ret (x, y)
      else createRandomLocation_loop fuel' isl
  end.

Definition createRandomLocationOnIsland (isl : Island) : M (Q * Q) :=
  fun d => createRandomLocation_loop (S (length d)) isl d.

(** ** Seeding *)

Definition createInitialStoats (stoatArray : list Stoat.t) (nAdd : nat) (isl : Island)
    (nDaysPregnantBeforeBirth : Z) : M (list Stoat.t * nat * Z) :=
  let* (arr, Current_Id, last) :=
    forRange nAdd (fun nStoats '(arr, Current_Id, _) =>
      let* (x, y) := createRandomLocationOnIsland isl in
      let* u := random in
      let male := Qlt_bool u (1 # 2) in
      let* arr := setStoat arr nStoats
        (Stoat.set_male (if Nat.eqb nStoats 0 then false
                         else if Nat.eqb nStoats 1 then true else male)) in
      let* arr := setStoat arr nStoats (Stoat.set_deleted false) in
      let* s := getStoat arr nStoats in
      let* arr :=
        if negb (Stoat.male s) then
          setStoat arr nStoats (fun s =>
            Stoat.set_pregnant_day (- nDaysPregnantBeforeBirth) (Stoat.set_pregnant true s))
        else
          setStoat arr nStoats (fun s =>
            Stoat.set_pregnant_day (-1) (Stoat.set_pregnant false s)) in
      let* arr := setStoat arr nStoats (fun s =>
        Stoat.set_id Current_Id (Stoat.set_homerange false
          (Stoat.set_home_y y (Stoat.set_home_x x (Stoat.set_y y (Stoat.set_x x s)))))) in
      let Current_Id := Current_Id + 1 in
      let* arr := setStoat arr nStoats (Stoat.set_parentid (-1)) in
      ret (Next (arr, Current_Id, Some (Z.to_nat Current_Id))))
    (stoatArray, 0, None) in
  match last with
  | Some nStoats => ret (arr, nStoats, Current_Id)
  | None => raise (UnboundLocalError "nStoats")
  end.

(** ** Ledger helpers: the free-slot scans of doMaleMating and
    doPheromoneInteraction *)

(** Lines 259-269: write the mating into the first slot with
    [maleid == -1]; [None] when the loop ends with [addedMating] false. *)
Fixpoint addMating (matingArray : list Mating.t) (stoatid femaleid habituationDays : Z)
  : option (list Mating.t) :=
  match matingArray with
  | [] => None
  | m :: rest =>
      if Mating.maleid m =? -1 then Some (Mating.mk stoatid femaleid habituationDays :: rest)
      else option_map (cons m) (addMating rest stoatid femaleid habituationDays)
  end.

(** Lines 298-307: the same for the habituation table. *)
Fixpoint addInteraction (pheromoneInteractionArray : list Interaction.t)
    (stoatid p habituationDays : Z) : option (list Interaction.t) :=
  match pheromoneInteractionArray with
  | [] => None
  | e :: rest =>
      if Interaction.stoatid e =? -1
      then Some (Interaction.mk p stoatid habituationDays :: rest)
      else option_map (cons e) (addInteraction rest stoatid p habituationDays)
  end.

Definition inArray (value : nat) (array : option (list nat)) : bool :=
  match array with
  | None => false
  | Some a => existsb (Nat.eqb value) a
  end.

Section Engine.

Variable num : Numerics.

Definition distance (xdist ydist : Q) : Q :=
  np_sqrt num (xdist * xdist + ydist * ydist)%Q.

Definition checkWithinDistanceOfTraps (x y : Q) (trapsArray : list (Q * Q)) (trapEncDist : Q)
  : bool :=
  existsb (fun t => Qlt_bool (distance (fst t - x) (snd t - y)) trapEncDist) trapsArray.

Definition checkStoatHasKitsInNest (stoatArray : list Stoat.t) (nStoats : nat) (stoatid : Z)
  : M bool :=
  forRange nStoats (fun i hasKits =>
    let* s := getStoat stoatArray i in
    if negb (Stoat.deleted s) && (Stoat.parentid s =? stoatid)
    then ret (Break true) else ret (Next hasKits)) false.

(** ** Mating *)

Definition alreadyMatedWith (matingArray : list Mating.t) (maleid femaleid : Z) : bool :=
  existsb (fun m => (Mating.maleid m =? maleid) && (Mating.femaleid m =? femaleid))
          matingArray.

Definition doMaleMating (x y : Q) (stoatid : Z) (stoatArray : list Stoat.t) (nStoats : nat)
    (encounterDistance : Q) (matingArray : list Mating.t) (habituationDays : Z)
    (day : Z) (probPregnacy : Q) : M (bool * list Stoat.t * list Mating.t) :=
  forRange nStoats (fun i '(mated, stoatArray, matingArray) =>
    let* si := getStoat stoatArray i in
    if negb (Stoat.deleted si) && negb (Stoat.male si) && (Stoat.parentid si =? -1) then
      if alreadyMatedWith matingArray stoatid (Stoat.id si) then
        ret (Next (mated, stoatArray, matingArray))
      else
        let dist := distance (x - Stoat.x si) (y - Stoat.y si) in
        if Qlt_bool dist encounterDistance then
          let* stoatArray :=
            if negb (Stoat.pregnant si) then
              let* b := binomial1 probPregnacy in
              if b =? 1 then
                let* stoatArray := setStoat stoatArray i (fun s =>
                  Stoat.set_pregnant_day day (Stoat.set_pregnant true s)) in
                forRange nStoats (fun n stoatArray =>
                  let* sn := getStoat stoatArray n in
                  let* mother := getStoat stoatArray i in
                  if (Stoat.parentid sn =? Stoat.id mother) && negb (Stoat.male sn) then
                    let* b := binomial1 probPregnacy in
                    if b =? 1 then
                      let* stoatArray := setStoat stoatArray n (fun s =>
                        Stoat.set_pregnant_day day (Stoat.set_pregnant true s)) in
                      ret (Next stoatArray)
                    else ret (Next stoatArray)
                  else ret (Next stoatArray)) stoatArray
              else ret stoatArray
            else ret stoatArray in
          let* female := getStoat stoatArray i in
          match addMating matingArray stoatid (Stoat.id female) habituationDays with
          | Some matingArray => ret (Break (true, stoatArray, matingArray))
          | None => raise (ValueError "Unable to add mating")
          end
        else ret (Next (mated, stoatArray, matingArray))
    else ret (Next (mated, stoatArray, matingArray)))
  (false, stoatArray, matingArray).

(** ** Pheromone interaction *)

(** Lines 290-294: the scan for an earlier interaction. Its [continue]
    continues this inner loop, so the scan changes nothing and tells the
    caller nothing. *)
Definition scanAlreadyInteracted (pheromoneInteractionArray : list Interaction.t)
    (stoatid p : Z) : unit :=
  fold_left (fun _ e =>
    if (Interaction.stoatid e =? stoatid) && (Interaction.pheromoneid e =? p)
    then tt else tt) pheromoneInteractionArray tt.

Definition doPheromoneInteraction (x y : Q) (stoatid : Z) (stoatArray : list Stoat.t)
    (nStoats : nat) (pheromoneArray : list Pheromone.t) (encounterDistance : Q)
    (pheromoneInteractionArray : list Interaction.t) (habituationDays : Z)
  : M (list Interaction.t) :=
  forRange (length pheromoneArray) (fun p pheromoneInteractionArray =>
    match pheromoneArray !! p with
    | None => fault "pheromoneArray" (Z.of_nat p)
    | Some ph =>
        let dist := distance (Pheromone.x ph - x) (Pheromone.y ph - y) in
        if Qlt_bool dist encounterDistance then
          let _ := scanAlreadyInteracted pheromoneInteractionArray stoatid (Z.of_nat p) in
          match addInteraction pheromoneInteractionArray stoatid (Z.of_nat p)
                               habituationDays with
          | Some pheromoneInteractionArray => ret (Break pheromoneInteractionArray)
          | None => raise (ValueError "Unable to add to pheromoneInteractionArray")
          end
        else ret (Next pheromoneInteractionArray)
    end) pheromoneInteractionArray.

(** ** Birth *)

(** The field writes of doBirth for one kit, [parentid] apart (it is
    written last, from a fresh read of the mother's row). *)
Definition writeKit (x y : Q) (male : bool) (Current_Id : Z) (s : Stoat.t) : Stoat.t :=
  Stoat.set_homerange false
    (Stoat.set_id Current_Id
      (Stoat.set_pregnant_day (-1)
        (Stoat.set_pregnant false
          (Stoat.set_male male
            (Stoat.set_home_y y
              (Stoat.set_home_x x
                (Stoat.set_y y
                  (Stoat.set_x x
                    (Stoat.set_deleted false s))))))))).

Definition placeKit (stoatArray : list Stoat.t) (slot stoat : nat) (x y : Q)
    (Current_Id : Z) : M (list Stoat.t) :=
  let* u := random in
  let male := Qlt_bool u (1 # 2) in
  let* stoatArray := setStoat stoatArray slot (writeKit x y male Current_Id) in
  let* mother := getStoat stoatArray stoat in
  setStoat stoatArray slot (Stoat.set_parentid (Stoat.id mother)).

(** The second [while nKits > 0] loop: append after the used slots. *)
Fixpoint doBirth_append (nKits : nat) (stoat : nat) (x y : Q)
    (st : list Stoat.t * nat * Z) : M (list Stoat.t * nat * Z) :=
  match nKits with
  | O => ret st
  | S nKits' =>
      let '(stoatArray, nStoats, Current_Id) := st in
      let* stoatArray := placeKit stoatArray nStoats stoat x y Current_Id in
      let Current_Id := Current_Id + 1 in
      let nStoats := S nStoats in
      if Nat.ltb INITIAL_STOAT_ARRAY_SIZE nStoats
      then raise (ValueError "Too many stoats")
      else doBirth_append nKits' stoat x y (stoatArray, nStoats, Current_Id)
  end.

Definition doBirth (stoatArray : list Stoat.t) (nStoats : nat) (stoat : nat)
    (meanRecruits : Q) (Current_Id : Z) : M (list Stoat.t * nat * Z) :=
  let* mother := getStoat stoatArray stoat in
  let x := Stoat.x mother in
  let y := Stoat.y mother in
  let* u := draw in
  let nKits := poisson num meanRecruits u in
  (* first loop: re-use deleted slots *)
  let* (stoatArray, nKits, Current_Id) :=
    forRange nStoats (fun i '(stoatArray, nKits, Current_Id) =>
      match nKits with
      | O => ret (Break (stoatArray, nKits, Current_Id))
      | S nKits' =>
          let* si := getStoat stoatArray i in
          if Stoat.deleted si then
            let* stoatArray := placeKit stoatArray i stoat x y Current_Id in
            ret (Next (stoatArray, nKits', Current_Id + 1))
          else ret (Next (stoatArray, nKits, Current_Id))
      end) (stoatArray, nKits, Current_Id) in
  (* ok add the rest onto the end *)
  let* (stoatArray, nStoats, Current_Id) :=
    doBirth_append nKits stoat x y (stoatArray, nStoats, Current_Id) in
  (* now not pregnant *)
  let* stoatArray := setStoat stoatArray stoat (fun s =>
    Stoat.set_pregnant_day (-1) (Stoat.set_pregnant false s)) in
  ret (stoatArray, nStoats, Current_Id).

(** ** Attraction search *)

Definition Candidate := (Q * Q * Q)%type.

(** One write into the temporary arrays followed by the source's size
    test: the write at index [nStoatsInTmp] comes first. *)
Definition pushCandidate (msg : string) (arraySize : nat) (cands : list Candidate)
    (c : Candidate) : M (list Candidate) :=
  if Nat.ltb (length cands) arraySize then
    let cands := cands ++ [c] in
    if Nat.ltb arraySize (length cands) then raise (ValueError msg) else ret cands
  else fault "xCoords" (Z.of_nat (length cands)).

(** [np.random.multinomial(1, Psel)]: a one-hot vector, the category
    chosen by inverting the cumulative sums at the raw draw. *)
Fixpoint multinomial1 (Psel : list Q) (u : Q) : list Z :=
  match Psel with
  | [] => []
  | [_] => [1]
  | p :: rest =>
      if Qlt_bool u p then 1 :: map (fun _ => 0) rest
      else 0 :: multinomial1 rest (u - p)%Q
  end.

Fixpoint firstSelected (COAi : list Z) (cands : list Candidate) : option Candidate :=
  match COAi, cands with
  | c :: COAi', k :: cands' => if 0 <? c then Some k else firstSelected COAi' cands'
  | _, _ => None
  end.

Definition alreadyInteracted (pheromoneInteractionArray : list Interaction.t)
    (stoatid p : Z) : bool :=
  existsb (fun e => (Interaction.stoatid e =? stoatid) && (Interaction.pheromoneid e =? p))
          pheromoneInteractionArray.

(** Lines 136-219. Where the weights sum to 0 the source divides the
    array by zero (the probabilities become NaN); the model stops there
    with the division error, and the theorems below speak of the
    searches that return. *)
Definition checkForEstrousMatesAndDecoysInRadius (lookingForMale : bool) (x y : Q)
    (stoatArray : list Stoat.t) (nStoats : nat) (stoatid : Z)
    (COA_radius COA_decay_spatial COA_decay_temporal minK : Q)
    (daysSincePheromoneRelease : Z) (pheromoneArray : list Pheromone.t)
    (pheromoneInteractionArray : list Interaction.t) (matingArray : list Mating.t)
  : M (option Candidate) :=
  let arraySize := (INITIAL_STOAT_ARRAY_SIZE + length pheromoneArray)%nat in
  let* cands :=
    forRange nStoats (fun i cands =>
      let* si := getStoat stoatArray i in
      if negb (Stoat.deleted si) && (Stoat.parentid si =? -1)
         && Bool.eqb (Stoat.male si) lookingForMale then
        let dist := distance (x - Stoat.x si) (y - Stoat.y si) in
        if Qlt_bool dist COA_radius then
          let alreadyMated :=
            if lookingForMale then alreadyMatedWith matingArray (Stoat.id si) stoatid
            else alreadyMatedWith matingArray stoatid (Stoat.id si) in
          if negb alreadyMated then
            let* invK := fdiv 1 minK in
            let kappa := (invK * np_exp num (- COA_decay_spatial * dist))%Q in
            let* cands := pushCandidate "Too many items for tmp array 1" arraySize cands
                            (Stoat.x si, Stoat.y si, kappa) in
            ret (Next cands)
          else ret (Next cands)
        else ret (Next cands)
      else ret (Next cands)) [] in
  let* cands :=
    if negb (daysSincePheromoneRelease =? -1) then
      forRange (length pheromoneArray) (fun i cands =>
        match pheromoneArray !! i with
        | None => fault "pheromoneArray" (Z.of_nat i)
        | Some ph =>
            let dist := distance (x - Pheromone.x ph) (y - Pheromone.y ph) in
            if Qlt_bool dist COA_radius then
              if negb (alreadyInteracted pheromoneInteractionArray stoatid (Z.of_nat i)) then
                let* invK := fdiv 1 minK in
                let kappa :=
                  (invK * np_exp num (- COA_decay_spatial * dist)
                   * np_exp num (- COA_decay_temporal * inject_Z daysSincePheromoneRelease))%Q in
                let* cands := pushCandidate "Too many items for tmp array 2" arraySize cands
                                (Pheromone.x ph, Pheromone.y ph, kappa) in
                ret (Next cands)
              else ret (Next cands)
            else ret (Next cands)
        end) cands
    else ret cands in
  match cands with
  | [] => ret None
  | _ =>
      let Kappac := map snd cands in
      let total := fold_left Qplus Kappac 0%Q in
      if Qeq_bool total 0 then raise ZeroDivisionError
      else
        let Psel := map (fun k => (k / total)%Q) Kappac in
        let* u := draw in
        let COAi := multinomial1 Psel u in
        ret (firstSelected COAi cands)
  end.

(** ** The realisation *)

Record Params := {
  nDays : nat;
  hoursPerDay : nat;
  stepScale : Q;
  stepShape : Q;
  alphaK : Q;
  minK : Q;
  pheromoneReleaseDays : list nat;
  COA_radius : Q;
  COA_decay_spatial : Q;
  COA_decay_temporal : Q;
  estrousStartDays : list nat;
  estrousEndDays : list nat;
  pheromoneArray : list Pheromone.t;
  habituationDays : Z;
  encounterDistance : Q;
  birthDays : list nat;
  meanRecruits : Q;
  trappingDays : option (list nat);
  trapsArray : list (Q * Q);
  trapEncDist : Q;
  trapProbRemoval : Q;
  pDaySurv : Q;
  dispersalDays : list nat;
  island : Island;
  directionalVM : Q;
  nDaysPregnantBeforeBirth : Z;
  probPregnacy : Q
}.

(** The optional debug buffers (all [None] together in the source). *)
Record Debug := {
  stoatDebugEstrous : list bool;
  stoatDebugDaysSincePheromone : list Z;
  stoatDebugFrame : list (list Stoat.t);
  stoatDebugTrapping : list Z
}.

(** The arrays and counters a realisation mutates. *)
Record World := {
  stoatArray : list Stoat.t;
  nStoats : nat;
  Current_Id : Z;
  matingArray : list Mating.t;
  pheromoneInteractionArray : list Interaction.t;
  debug : option Debug
}.

Definition withStoats (w : World) (arr : list Stoat.t) : World :=
  Build_World arr (nStoats w) (Current_Id w) (matingArray w)
              (pheromoneInteractionArray w) (debug w).

(** [stoatDebugTrapping[day] += 1] *)
Definition countTrapKill (day : nat) (dbg : option Debug) : M (option Debug) :=
  match dbg with
  | None => ret None
  | Some b =>
      match stoatDebugTrapping b !! day with
      | None => fault "stoatDebugTrapping" (Z.of_nat day)
      | Some c =>
          ret (Some (Build_Debug (stoatDebugEstrous b) (stoatDebugDaysSincePheromone b)
                       (stoatDebugFrame b) (<[day := c + 1]> (stoatDebugTrapping b))))
      end
  end.

(** Lines 653-657: one row of the per-hour trace. *)
Definition recordFrame (debugIndex : nat) (inEstrous : bool) (daysSince : Z)
    (arr : list Stoat.t) (dbg : option Debug) : M (option Debug) :=
  match dbg with
  | None => ret None
  | Some b =>
      if Nat.ltb debugIndex (length (stoatDebugEstrous b)) then
        if Nat.ltb debugIndex (length (stoatDebugDaysSincePheromone b)) then
          if Nat.ltb debugIndex (length (stoatDebugFrame b)) then
            ret (Some (Build_Debug (<[debugIndex := inEstrous]> (stoatDebugEstrous b))
                         (<[debugIndex := daysSince]> (stoatDebugDaysSincePheromone b))
                         (<[debugIndex := arr]> (stoatDebugFrame b))
                         (stoatDebugTrapping b)))
          else fault "stoatDebugFrame" (Z.of_nat debugIndex)
        else fault "stoatDebugDaysSincePheromone" (Z.of_nat debugIndex)
      else fault "stoatDebugEstrous" (Z.of_nat debugIndex)
  end.

(** Lines 452-464: dispersal. [disperseOne] is the body of the loop. *)
Definition disperseOne (isl : Island) (i : nat) (arr : list Stoat.t) : M (list Stoat.t) :=
  let* si := getStoat arr i in
  let* arr :=
    if negb (Stoat.deleted si) && (negb (Stoat.parentid si =? -1) || Stoat.male si) then
      let* (x, y) := createRandomLocationOnIsland isl in
      let* arr := setStoat arr i (fun s =>
        Stoat.set_home_y y (Stoat.set_home_x x (Stoat.set_y y (Stoat.set_x x s)))) in
      let* b := uniform (- np_pi num) (np_pi num) in
      setStoat arr i (Stoat.set_bearingT_1 b)
    else ret arr in
  (* if a child, set so now an adult *)
  setStoat arr i (Stoat.set_parentid (-1)).

Definition disperse (isl : Island) (nStoats : nat) (arr : list Stoat.t) : M (list Stoat.t) :=
  forRange nStoats (fun i arr =>
    let* arr := disperseOne isl i arr in ret (Next arr)) arr.

(** Lines 539-556: delete the agent, its offspring, and its ledger rows. *)
Definition purgeMating (id : Z) (m : Mating.t) : Mating.t :=
  if (Mating.maleid m =? id) || (Mating.femaleid m =? id)
  then Mating.set_maleid (-1) m else m.

Definition purgeInteraction (id : Z) (e : Interaction.t) : Interaction.t :=
  if Interaction.stoatid e =? id then Interaction.set_stoatid (-1) e else e.

Definition killStoat (stoat : nat) (w : World) : M World :=
  let* arr := setStoat (stoatArray w) stoat (Stoat.set_deleted true) in
  (* now kill immature all children *)
  let* arr :=
    forRange (nStoats w) (fun i arr =>
      let* si := getStoat arr i in
      let* s := getStoat arr stoat in
      if Stoat.parentid si =? Stoat.id s then
        let* arr := setStoat arr i (Stoat.set_deleted true) in ret (Next arr)
      else ret (Next arr)) arr in
  let* s := getStoat arr stoat in
  ret (Build_World arr (nStoats w) (Current_Id w)
         (map (purgeMating (Stoat.id s)) (matingArray w))
         (map (purgeInteraction (Stoat.id s)) (pheromoneInteractionArray w))
         (debug w)).

(** Lines 595-615: the geometric bearing towards the centre of
    attraction and the step length. One of the four bearing tests of the
    source always fires, whatever the signs of the two distances. *)
Definition targetBearing (xdistToCOA ydistToCOA distToCOA : Q) : M Q :=
  let* ratio := fdiv xdistToCOA distToCOA in
  let asinTH := np_arcsin num ratio in
  let bearing := 0%Q in
  let bearing := if Qeq_bool xdistToCOA 0 then np_arccos num ydistToCOA else bearing in
  let bearing := if Qlt_bool 0 ydistToCOA then asinTH else bearing in
  let bearing :=
    if Qlt_bool 0 xdistToCOA && Qle_bool ydistToCOA 0
    then (np_pi num - asinTH)%Q else bearing in
  let bearing :=
    if Qlt_bool xdistToCOA 0 && Qle_bool ydistToCOA 0
    then (- np_pi num - asinTH)%Q else bearing in
  ret bearing.

(** Lines 590-650: the [while not newPosOK] loop. Every iteration
    consumes at least two draws. *)
Fixpoint move_loop (fuel : nat) (p : Params) (stoat : nat) (x y COA_x COA_y : Q)
    (mateResult : option Candidate) (homerangeBehaviour : bool)
    (arr : list Stoat.t) : M (list Stoat.t) :=
  match fuel with
  | O => fun _ => Starved
  | S fuel' =>
      let* u := draw in
      let stepLength := (stepScale p * weibull num (stepShape p) u)%Q in
      let xdistToCOA := (COA_x - x)%Q in
      let ydistToCOA := (COA_y - y)%Q in
      let distToCOA := distance xdistToCOA ydistToCOA in
      let* (stepLength, bearing) :=
        if Qeq_bool distToCOA 0 then ret (stepLength, 0%Q)
        else
          let* stepLength :=
            match mateResult with
            | Some _ =>
                if Qlt_bool distToCOA (stepScale p * 1)
                then let* u := draw in
                     ret ((distToCOA * (95 # 100)) * weibull num (stepShape p) u)%Q
                else ret stepLength
            | None => ret stepLength
            end in
          let* bearing := targetBearing xdistToCOA ydistToCOA distToCOA in
          ret (stepLength, bearing) in
      let* bearing :=
        match mateResult with
        | None =>
            if negb homerangeBehaviour then
              let* s := getStoat arr stoat in
              let bearing := Stoat.bearingT_1 s in
              let* u := draw in
              ret (vonmises num bearing (directionalVM p) u)
            else
              let* u := draw in
              ret (vonmises num bearing
                     (np_log num (np_power num (distToCOA + 1) (alphaK p))) u)
        | Some (_, _, Kappac) =>
            let* u := draw in
            ret (vonmises num bearing Kappac u)
        end in
      let* arr := setStoat arr stoat (Stoat.set_bearingT_1 bearing) in
      let xDistToMove := (np_sin num bearing * stepLength)%Q in
      let yDistToMove := (np_cos num bearing * stepLength)%Q in
      let* s := getStoat arr stoat in
      let newx := (Stoat.x s + xDistToMove)%Q in
      let newy := (Stoat.y s + yDistToMove)%Q in
      let* newPosOK := checkLocationIsOnIsland (island p) newx newy in
      if newPosOK then
        setStoat arr stoat (fun s => Stoat.set_y newy (Stoat.set_x newx s))
      else move_loop fuel' p stoat x y COA_x COA_y mateResult homerangeBehaviour arr
  end.

Definition moveStoat (p : Params) (stoat : nat) (x y COA_x COA_y : Q)
    (mateResult : option Candidate) (homerangeBehaviour : bool)
    (arr : list Stoat.t) : M (list Stoat.t) :=
  fun d => move_loop (S (length d)) p stoat x y COA_x COA_y mateResult
                     homerangeBehaviour arr d.

(** Lines 475-650: what one hour does to the agent in slot [stoat].
    [eradication] is the flag of the enclosing hour. *)
Definition stoatHour (p : Params) (day hour : nat) (inEstrous : bool)
    (daysSincePheromoneRelease : Z) (stoat : nat) (st : World * bool)
  : M (World * bool) :=
  let '(w, eradication) := st in
  let* s := getStoat (stoatArray w) stoat in
  if Stoat.deleted s then ret (w, eradication)
  else
    let eradication := false in (* at least one individual exists *)
    let x := Stoat.x s in
    let y := Stoat.y s in
    let* homerangeBehaviour :=
      if inEstrous then
        if Stoat.male s then ret false
        else if negb (Stoat.pregnant s) then
          checkStoatHasKitsInNest (stoatArray w) (nStoats w) (Stoat.id s)
        else ret true
      else ret true in
    let* arr := setStoat (stoatArray w) stoat (Stoat.set_homerange homerangeBehaviour) in
    let w := withStoats w arr in
    (* mating, or birth *)
    let* (mated, w) :=
      if Stoat.male s then
        if inEstrous && (Stoat.parentid s =? -1) then
          let* (mated, arr, mating) :=
            doMaleMating x y (Stoat.id s) (stoatArray w) (nStoats w) (encounterDistance p)
              (matingArray w) (habituationDays p) (Z.of_nat day) (probPregnacy p) in
          ret (mated, Build_World arr (nStoats w) (Current_Id w) mating
                        (pheromoneInteractionArray w) (debug w))
        else ret (false, w)
      else if inArray day (Some (birthDays p)) && Nat.eqb hour 0 && Stoat.pregnant s
              && (nDaysPregnantBeforeBirth p <? Z.of_nat day - Stoat.pregnant_day s) then
        let* (arr, n, cid) :=
          doBirth (stoatArray w) (nStoats w) stoat (meanRecruits p) (Current_Id w) in
        ret (false, Build_World arr n cid (matingArray w)
                      (pheromoneInteractionArray w) (debug w))
      else ret (false, w) in
    (* interact with pheromones *)
    let* w :=
      if negb mated then
        let* pia :=
          doPheromoneInteraction x y (Stoat.id s) (stoatArray w) (nStoats w)
            (pheromoneArray p) (encounterDistance p) (pheromoneInteractionArray w)
            (habituationDays p) in
        ret (Build_World (stoatArray w) (nStoats w) (Current_Id w) (matingArray w)
               pia (debug w))
      else ret w in
    (* trapping, done at each hour *)
    let* (killed, w) :=
      if inArray day (trappingDays p) then
        if checkWithinDistanceOfTraps x y (trapsArray p) (trapEncDist p) then
          let* b := binomial1 (trapProbRemoval p) in
          if b =? 1 then
            let* dbg := countTrapKill day (debug w) in
            ret (true, Build_World (stoatArray w) (nStoats w) (Current_Id w)
                         (matingArray w) (pheromoneInteractionArray w) dbg)
          else ret (false, w)
        else ret (false, w)
      else ret (false, w) in
    (* mortality, done on the last hour per day *)
    let* killed :=
      if negb killed && (Z.of_nat hour =? Z.of_nat (hoursPerDay p) - 1) then
        let* b := binomial1 (1 - pDaySurv p) in ret (b =? 1)
      else ret killed in
    if killed then
      let* w := killStoat stoat w in
      ret (w, eradication)
    else if negb (Stoat.parentid s =? -1) then
      (* offspring that has not dispersed yet does not move *)
      ret (w, eradication)
    else
      let* mateResult :=
        if negb homerangeBehaviour then
          checkForEstrousMatesAndDecoysInRadius (negb (Stoat.male s)) x y
            (stoatArray w) (nStoats w) (Stoat.id s) (COA_radius p) (COA_decay_spatial p)
            (COA_decay_temporal p) (minK p) daysSincePheromoneRelease (pheromoneArray p)
            (pheromoneInteractionArray w) (matingArray w)
        else ret None in
      let '(COA_x, COA_y) :=
        match mateResult with
        | Some (cx, cy, _) => (cx, cy)
        | None => (Stoat.home_x s, Stoat.home_y s)
        end in
      let* arr := moveStoat p stoat x y COA_x COA_y mateResult homerangeBehaviour
                    (stoatArray w) in
      ret (withStoats w arr, eradication).

(** The local variables of runRealisation that outlive an hour. *)
Record RunState := {
  world : World;
  daysSincePheromoneRelease : Z;
  inEstrous : bool;
  debugIndex : nat;
  eradication : option bool;
  returned : bool
}.

(** Lines 466-662: one hour, over the slots in use when it starts. *)
Definition hourBody (p : Params) (day hour : nat) (rs : RunState) : M (Ctl RunState) :=
  let* (w, erad) :=
    forRange (nStoats (world rs)) (fun stoat st =>
      let* st := stoatHour p day hour (inEstrous rs) (daysSincePheromoneRelease rs)
                   stoat st in
      ret (Next st)) (world rs, true) in
  let* dbg := recordFrame (debugIndex rs) (inEstrous rs) (daysSincePheromoneRelease rs)
                (stoatArray w) (debug w) in
  let w := Build_World (stoatArray w) (nStoats w) (Current_Id w) (matingArray w)
             (pheromoneInteractionArray w) dbg in
  let rs' := Build_RunState w (daysSincePheromoneRelease rs) (inEstrous rs)
               (S (debugIndex rs)) (Some erad) erad in
  if erad then ret (Break rs') else ret (Next rs').

(** Lines 668-680: the daily countdown of both ledgers. *)
Definition decrementInteraction (e : Interaction.t) : Interaction.t :=
  if negb (Interaction.stoatid e =? -1) then
    let e := Interaction.set_ndays (Interaction.ndays e - 1) e in
    if Interaction.ndays e =? 0 then Interaction.set_stoatid (-1) e else e
  else e.

Definition decrementMating (m : Mating.t) : Mating.t :=
  if negb (Mating.maleid m =? -1) then
    let m := Mating.set_ndays (Mating.ndays m - 1) m in
    if Mating.ndays m =? 0 then Mating.set_maleid (-1) m else m
  else m.

Definition endOfDay (rs : RunState) : RunState :=
  let w := world rs in
  Build_RunState
    (Build_World (stoatArray w) (nStoats w) (Current_Id w)
       (map decrementMating (matingArray w))
       (map decrementInteraction (pheromoneInteractionArray w)) (debug w))
    (if negb (daysSincePheromoneRelease rs =? -1)
     then daysSincePheromoneRelease rs + 1 else daysSincePheromoneRelease rs)
    (inEstrous rs) (debugIndex rs) (eradication rs) (returned rs).

(** Lines 430-680: one day. [Break] is either the [break] of the
    anti-explosion test or the [return True] of an eradicated hour. *)
Definition dayBody (p : Params) (day : nat) (rs : RunState) : M (Ctl RunState) :=
  if Nat.ltb 175 (nStoats (world rs)) then
    ret (Break (Build_RunState (world rs) (daysSincePheromoneRelease rs) (inEstrous rs)
                  (debugIndex rs) (Some false) (returned rs)))
  else
    let daysSince :=
      if inArray day (Some (pheromoneReleaseDays p)) then 0
      else daysSincePheromoneRelease rs in
    let estrous :=
      if inArray day (Some (estrousStartDays p)) then true
      else if inArray day (Some (estrousEndDays p)) then false
      else inEstrous rs in
    let* arr :=
      if inArray day (Some (dispersalDays p))
      then disperse (island p) (nStoats (world rs)) (stoatArray (world rs))
      else ret (stoatArray (world rs)) in
    let rs := Build_RunState (withStoats (world rs) arr) daysSince estrous
                (debugIndex rs) (eradication rs) (returned rs) in
    let* rs := forRange (hoursPerDay p) (hourBody p day) rs in
    if returned rs then ret (Break rs)
    else ret (Next (endOfDay rs)).

Definition runRealisation (p : Params) (w : World) : M (bool * World) :=
  let* rs := forRange (nDays p) (dayBody p)
               (Build_RunState w (-1) false 0 None false) in
  match eradication rs with
  | Some b => ret (b, world rs)
  | None => raise (UnboundLocalError "eradication")
  end.

End Engine.

(** ** A concrete [Numerics] for running the model

    Low-order rational stand-ins for the float functions, exact where
    the examples below need them ([np_sqrt] on perfect squares, the
    geometry at the origin). The theorems hold for every [Numerics]. *)

Definition ref_sqrt (q : Q) : Q :=
  Z.sqrt (Qnum q * Zpos (Qden q)) # Qden q.

Definition ref_pi : Q := 355 # 113.

Definition refNumerics : Numerics := {|
  np_sqrt := ref_sqrt;
  np_exp := fun v => (1 + v + v * v * (1 # 2))%Q;
  np_log := fun v => (v - 1)%Q;
  np_power := fun a b => (1 + b * (a - 1))%Q;
  np_sin := fun b => (b - b * b * b * (1 # 6))%Q;
  np_cos := fun b => (1 - b * b * (1 # 2))%Q;
  np_arcsin := fun r => (r + r * r * r * (1 # 6))%Q;
  np_arccos := fun r => (ref_pi * (1 # 2) - (r + r * r * r * (1 # 6)))%Q;
  np_pi := ref_pi;
  weibull := fun _ u => u;
  vonmises := fun mu _ u => (mu + (u - (1 # 2)))%Q;
  poisson := fun lam u => Z.to_nat (Qfloor (2 * lam * u))
|}.

(** ** Specification vocabulary *)

(** [post m Q]: every result of [m] satisfies [Q]. *)
Definition post {A} (m : M A) (Q : A -> Prop) : Prop :=
  forall d a d', m d = Ok a d' -> Q a.

(** [sat m Q R]: every result of [m] satisfies [Q] and every error it
    raises satisfies [R]. *)
Definition sat {A} (m : M A) (Q : A -> Prop) (R : Error -> Prop) : Prop :=
  forall d, match m d with
            | Ok a _ => Q a
            | Raise e => R e
            | _ => True
            end.

Definition freeMating (m : Mating.t) : Prop := Mating.maleid m = -1.
Definition freeInteraction (e : Interaction.t) : Prop := Interaction.stoatid e = -1.



(** The number of live agents among the slots in use. *)
Definition population (w : World) : nat :=
  length (filter (fun s => Stoat.deleted s = false) (take (nStoats w) (stoatArray w))).

(** ** Example inputs *)

(** A one-cell land mask covering the square [-100, 100] x [-100, 100]:
    every point of the bounding box rounds to cell (0, 0). *)
Definition exIsland : Island := {|
  mask := [[1]];
  tlx := -100; tly := 100; brx := 100; bry := -100;
  pixsize := 1000
|}.

(** The parameters of params.py (one sample of each sampled range),
    with the calendar and the stochastic rates left open. *)
Definition exParams (days hours : nat) (release estrousStart estrousEnd births : list nat)
    (trapping : option (list nat)) (dispersal : list nat)
    (stations : list Pheromone.t) (traps : list (Q * Q)) (surv : Q) : Params := {|
  nDays := days;
  hoursPerDay := hours;
  stepScale := 50;
  stepShape := 9 # 10;
  alphaK := 2 # 100;
  minK := 5 # 1000;
  pheromoneReleaseDays := release;
  COA_radius := 2500;
  COA_decay_spatial := 1 # 100;
  COA_decay_temporal := 5 # 1000;
  estrousStartDays := estrousStart;
  estrousEndDays := estrousEnd;
  pheromoneArray := stations;
  habituationDays := 19;
  encounterDistance := 25;
  birthDays := births;
  meanRecruits := 9;
  trappingDays := trapping;
  trapsArray := traps;
  trapEncDist := 15;
  trapProbRemoval := 2 # 10;
  pDaySurv := surv;
  dispersalDays := dispersal;
  island := exIsland;
  directionalVM := 35 # 10;
  nDaysPregnantBeforeBirth := 180;
  probPregnacy := 9 # 10
|}.

(** An adult at the origin. *)
Definition exAdult (male pregnant : bool) (id : Z) : Stoat.t :=
  Stoat.mk false male pregnant 0 0 0 0 id (if pregnant then -200 else -1) (-1) 0 false.

(** A dependent kit at the origin. *)
Definition exKit (male : bool) (id parent : Z) : Stoat.t :=
  Stoat.mk false male false 0 0 0 0 id (-1) parent 0 false.

(** A freed slot whose last occupant remembered bearing [b]. *)
Definition exFreed (b : Q) : Stoat.t :=
  Stoat.mk true true false 0 0 0 0 0 (-1) (-1) b false.

Definition exWorld (arr : list Stoat.t) (n : nat) (cid : Z) (M : list Mating.t)
    (P : list Interaction.t) : World :=
  Build_World arr n cid M P None.

(** The tables as runModel allocates them, cut down to [k] rows. *)
Definition emptyStoats (k : nat) : list Stoat.t := repeat Stoat.empty k.
Definition emptyMatings (k : nat) : list Mating.t := repeat (Mating.mk (-1) 0 0) k.
Definition emptyInteractions (k : nat) : list Interaction.t :=
  repeat (Interaction.mk 0 (-1) 0) k.

(** A full agent table: 1000 live adults with ids 0..999, the even
    slots pregnant females. *)
Definition fullHouse : list Stoat.t :=
  map (fun k => exAdult (Nat.odd k) (negb (Nat.odd k)) (Z.of_nat k))
      (seq 0 INITIAL_STOAT_ARRAY_SIZE).

(** ** On-land vocabulary *)

(** The land-mask membership test succeeds at [(x, y)]. *)
Definition onLand (isl : Island) (x y : Q) : Prop :=
  forall d, checkLocationIsOnIsland isl x y d = Ok true d.

Definition stoatOnLand (isl : Island) (s : Stoat.t) : Prop :=
  Stoat.deleted s = false -> onLand isl (Stoat.x s) (Stoat.y s).

Definition allOnLand (isl : Island) (arr : list Stoat.t) : Prop :=
  Forall (stoatOnLand isl) arr.

(** A write that leaves [deleted], [x] and [y] alone. *)
Definition keepsPlace (f : Stoat.t -> Stoat.t) : Prop :=
  forall s, Stoat.deleted (f s) = Stoat.deleted s /\
            Stoat.x (f s) = Stoat.x s /\ Stoat.y (f s) = Stoat.y s.

(** ** Remembered bearings *)

(** The [bearingT_1] column of the agent table. *)
Definition bearings (arr : list Stoat.t) : list Q := Stoat.bearingT_1 <$> arr.

(** The same outcome with the result transformed. *)
Definition omap {A B} (f : A -> B) (o : Outcome A) : Outcome B :=
  match o with
  | Ok a d => Ok (f a) d
  | Raise e => Raise e
  | Fault s i => Fault s i
  | Starved => Starved
  end.

(** A live agent that has not dispersed yet. *)
Definition liveJuvenile (s : Stoat.t) : Prop :=
  Stoat.deleted s = false /\ Stoat.parentid s <> -1.

(** ** Ledger vocabulary *)

Definition liveAt (arr : list Stoat.t) (i : nat) (s : Stoat.t) : Prop :=
  arr !! i = Some s /\ Stoat.deleted s = false.

(** A live independent agent of the given sex carries this id. *)
Definition adultWithId (arr : list Stoat.t) (isMale : bool) (id : Z) : Prop :=
  exists i s, liveAt arr i s /\ Stoat.male s = isMale /\
              Stoat.parentid s = -1 /\ Stoat.id s = id.

(** What the agent table, the slot count, the id counter and the mating
    table satisfy between any two steps of a realisation. *)
Record Inv (arr : list Stoat.t) (n : nat) (cid : Z) (M : list Mating.t) : Prop := {
  inv_cid : 0 <= cid;
  inv_unique : forall i j si sj,
    liveAt arr i si -> liveAt arr j sj -> Stoat.id si = Stoat.id sj -> i = j;
  inv_bound : forall i s, liveAt arr i s -> 0 <= Stoat.id s < cid;
  inv_refs : forall k m, M !! k = Some m -> Mating.maleid m <> -1 ->
    adultWithId arr true (Mating.maleid m) /\ adultWithId arr false (Mating.femaleid m);
  inv_nodup : forall k1 k2 m1 m2,
    M !! k1 = Some m1 -> M !! k2 = Some m2 ->
    Mating.maleid m1 <> -1 -> Mating.maleid m2 <> -1 ->
    Mating.maleid m1 = Mating.maleid m2 -> Mating.femaleid m1 = Mating.femaleid m2 ->
    k1 = k2;
  inv_unused : forall i s, arr !! i = Some s -> (n <= i)%nat -> Stoat.deleted s = true
}.

Definition WorldInv (w : World) : Prop :=
  Inv (stoatArray w) (nStoats w) (Current_Id w) (matingArray w).

(** Two mating rows name the same unordered pair. *)
Definition samePair (m1 m2 : Mating.t) : Prop :=
  (Mating.maleid m1 = Mating.maleid m2 /\ Mating.femaleid m1 = Mating.femaleid m2) \/
  (Mating.maleid m1 = Mating.femaleid m2 /\ Mating.femaleid m1 = Mating.maleid m2).

(** The uniqueness property of the mating ledger. *)
Definition matingUnique (M : list Mating.t) : Prop :=
  (forall k1 k2 m1 m2,
     M !! k1 = Some m1 -> M !! k2 = Some m2 ->
     Mating.maleid m1 <> -1 -> Mating.maleid m2 <> -1 ->
     k1 <> k2 -> ~ samePair m1 m2) /\
  (forall k m, M !! k = Some m -> Mating.maleid m <> -1 ->
     Mating.maleid m <> Mating.femaleid m).

(** A write that keeps what the invariant looks at: [deleted], [male]
    and [id], and does not turn an independent agent into a dependent
    one. *)
Definition sameKey (s t : Stoat.t) : Prop :=
  Stoat.deleted t = Stoat.deleted s /\ Stoat.male t = Stoat.male s /\
  Stoat.id t = Stoat.id s /\ (Stoat.parentid s = -1 -> Stoat.parentid t = -1).

Definition keyRel (arr arr' : list Stoat.t) : Prop := Forall2 sameKey arr arr'.

(** The agent table after [killStoat stoat]: a slot is either as it was
    or newly marked deleted, and then it is the killed slot or a slot
    whose [parentid] is the killed agent's id. *)
Definition killRel (idS : Z) (stoat : nat) (arr arr' : list Stoat.t) : Prop :=
  length arr' = length arr /\
  forall j t', arr' !! j = Some t' ->
    exists t, arr !! j = Some t /\
      (t' = t \/ (t' = Stoat.set_deleted true t /\ (j = stoat \/ Stoat.parentid t = idS))).

(** ** Eradication vocabulary *)

(** Every slot in use is marked deleted. *)
Definition allDeleted (w : World) : Prop :=
  forall j s, (j < nStoats w)%nat -> stoatArray w !! j = Some s -> Stoat.deleted s = true.

(** Among the slots below [n], those selected by [sel] are deleted. *)
Definition deadWhere (sel : nat -> Prop) (arr : list Stoat.t) (n : nat) : Prop :=
  forall j s, (j < n)%nat -> sel j -> arr !! j = Some s -> Stoat.deleted s = true.

(** Among the slots below [n] other than [stoat], those selected by
    [sel] are deleted or are offspring of the agent with id [idM]. *)
Definition deadOrKitWhere (idM : Z) (stoat : nat) (sel : nat -> Prop)
    (arr : list Stoat.t) (n : nat) : Prop :=
  forall j s, (j < n)%nat -> sel j -> j <> stoat -> arr !! j = Some s ->
    Stoat.deleted s = true \/ Stoat.parentid s = idM.

(** ** Survival vocabulary *)

(** Every live agent in a slot below [n] of [arr] is alive, under the
    same id, in the same slot of [arr']. *)
Definition liveKept (n : nat) (arr arr' : list Stoat.t) : Prop :=
  forall j s, (j < n)%nat -> arr !! j = Some s -> Stoat.deleted s = false ->
    exists s', arr' !! j = Some s' /\ Stoat.deleted s' = false /\ Stoat.id s' = Stoat.id s.

(** No slot in use was given up and no live agent was lost. *)
Definition survive (w w' : World) : Prop :=
  (nStoats w <= nStoats w')%nat /\ liveKept (nStoats w) (stoatArray w) (stoatArray w').

(** ** Dispersal vocabulary *)

(** The slots dispersal does not relocate: free slots and independent
    females. *)
Definition settled (s : Stoat.t) : Prop :=
  Stoat.deleted s = true \/ (Stoat.parentid s = -1 /\ Stoat.male s = false).

(** A two-by-two land mask with 10 m pixels tiling [0, 20] x [0, 20]. *)
Definition grid2 : Island := {|
  mask := [[1; 1]; [1; 1]];
  tlx := 0; tly := 20; brx := 20; bry := 0;
  pixsize := 10
|}.

(** ** Seeding vocabulary *)

(** What createInitialStoats leaves in slot [k], with gestation
    threshold [nd]. *)
Definition seeded (nd : Z) (k : nat) (s : Stoat.t) : Prop :=
  Stoat.deleted s = false /\ Stoat.id s = Z.of_nat k /\ Stoat.parentid s = -1 /\
  Stoat.home_x s = Stoat.x s /\ Stoat.home_y s = Stoat.y s /\
  Stoat.homerange s = false /\
  (k = 0%nat -> Stoat.male s = false) /\ (k = 1%nat -> Stoat.male s = true) /\
  (if Stoat.male s
   then Stoat.pregnant s = false /\ Stoat.pregnant_day s = -1
   else Stoat.pregnant s = true /\ Stoat.pregnant_day s = - nd).

(** * The calendar (dayMonthToDays)

    The driver turns (day, month) pairs into day offsets with
    [datetime.date]. The model of [datetime.date] keeps what the driver
    uses: construction with its range checks, comparison, and the
    difference in days (through the proleptic Gregorian ordinal). *)

Module Date.
Record t := mk { year : Z; month : Z; day : Z }.

Definition is_leap (y : Z) : bool :=
  (y mod 4 =? 0) && (negb (y mod 100 =? 0) || (y mod 400 =? 0)).

Definition days_in_month (y m : Z) : Z :=
  if m =? 2 then (if is_leap y then 29 else 28)
  else if (m =? 4) || (m =? 6) || (m =? 9) || (m =? 11) then 30
  else 31.

Definition days_before_year (y : Z) : Z :=
  let y := y - 1 in y * 365 + y / 4 - y / 100 + y / 400.

Definition days_before_month (y m : Z) : Z :=
  nth (Z.to_nat m) [0; 0; 31; 59; 90; 120; 151; 181; 212; 243; 273; 304; 334] 0
  + (if (2 <? m) && is_leap y then 1 else 0).

Definition toordinal (d : t) : Z :=
  days_before_year (year d) + days_before_month (year d) (month d) + day d.

(** [datetime.date(year, month, day)] *)
Definition make (y m d : Z) : Error + t :=
  if negb ((1 <=? y) && (y <=? 9999)) then inl (ValueError "year is out of range")
  else if negb ((1 <=? m) && (m <=? 12)) then inl (ValueError "month must be in 1..12")
  else if negb ((1 <=? d) && (d <=? days_in_month y m))
       then inl (ValueError "day is out of range for month")
  else inr (mk y m d).

(** A value [datetime.date] can have returned. *)
Definition valid (d : t) : Prop := make (year d) (month d) (day d) = inr d.

(** [a < b] *)
Definition ltb (a b : t) : bool :=
  (year a <? year b) ||
  ((year a =? year b) &&
   ((month a <? month b) || ((month a =? month b) && (day a <? day b)))).

(** [(a - b).days] *)
Definition days_between (a b : t) : Z := toordinal a - toordinal b.
End Date.

(** [range(a, b)] over the integers. *)
Definition zrange (a b : Z) : list Z :=
  map (fun k => a + Z.of_nat k) (seq 0 (Z.to_nat (b - a))).

(** Lines 688-695: the loop over the years for one (day, month) pair. *)
Fixpoint dayMonthToDays_years (startDate endDate : Date.t) (day month : Z) (ndays : Z)
    (years : list Z) (result : list Z) : Error + list Z :=
  match years with
  | [] => inr result
  | year :: years' =>
      match Date.make year month day with
      | inl e => inl e
      | inr date =>
          if Date.ltb date startDate || Date.ltb endDate date then
            dayMonthToDays_years startDate endDate day month ndays years' result
          else
            let startday := Date.days_between date startDate in
            dayMonthToDays_years startDate endDate day month ndays years'
              (result ++ map (fun n => startday + n) (zrange 0 ndays))
      end
  end.

Fixpoint dayMonthToDays_pairs (startDate endDate : Date.t) (dayMonths : list (Z * Z))
    (ndays : Z) (result : list Z) : Error + list Z :=
  match dayMonths with
  | [] => inr result
  | (day, month) :: rest =>
      match dayMonthToDays_years startDate endDate day month ndays
              (zrange (Date.year startDate) (Date.year endDate + 1)) result with
      | inl e => inl e
      | inr result => dayMonthToDays_pairs startDate endDate rest ndays result
      end
  end.

Definition dayMonthToDays (startDate endDate : Date.t) (dayMonths : list (Z * Z))
    (ndays : Z) : Error + list Z :=
  dayMonthToDays_pairs startDate endDate dayMonths ndays [].

(** The dates of params.py. *)
Definition exStartDate : Date.t := Date.mk 2021 8 1.
Definition exEndDate : Date.t := Date.mk 2024 2 15.

(** [d] is the offset of an occurrence of one of the (day, month) pairs
    between the two dates, or of one of the [ndays - 1] days after it. *)
Definition scheduledOffset (startDate endDate : Date.t) (dayMonths : list (Z * Z))
    (ndays : Z) (d : Z) : Prop :=
  exists day month year date n,
    In (day, month) dayMonths /\
    Date.year startDate <= year <= Date.year endDate /\
    Date.make year month day = inr date /\
    Date.ltb date startDate = false /\ Date.ltb endDate date = false /\
    0 <= n < ndays /\ d = Date.days_between date startDate + n.

(** * The driver (params.py, getRandomVariates)

    The functions below run in the Python interpreter, not under njit. *)

(** The fields of [PheromoneParams] the model reads. A sampled range is
    the two-element list of params.py, as a pair. *)
Module PheromoneParams.
Record t := mk {
  startDate : Date.t;
  endDate : Date.t;
  pheromoneReleaseDayMonths : list (Z * Z);
  decoySpacing : Q * Q;
  estrousStartDayMonth : Z * Z;
  estrousEndDayMonth : Z * Z;
  dispersalDateDayMonth : Z * Z;
  hoursPerDay : nat;
  meanNAdd : Q * Q;
  stepScale : Q;
  stepShape : Q;
  directionalVM : Q;
  alphaK : Q * Q;
  COA_radius : Q;
  COA_decay_spatial : Q * Q;
  COA_decay_temporal : Q * Q;
  minK : Q;
  meanRecruits : Q;
  habituationDays : Z * Z;
  encounterDistance : Q;
  probPregnacy : Q;
  birthDayMonth : Z * Z;
  nDaysPregnantBeforeBirth : Z;
  trappingDayMonths : option (list (Z * Z));
  nTrapDays : Z;
  trapEncDist : Q;
  trapProbRemoval : Q;
  PAnnualSurv : Q * Q
}.
End PheromoneParams.

(** The values [PheromoneParams.__init__] assigns. *)
Definition defaultParams : PheromoneParams.t := {|
  PheromoneParams.startDate := Date.mk 2021 8 1;
  PheromoneParams.endDate := Date.mk 2024 2 15;
  PheromoneParams.pheromoneReleaseDayMonths := [(15, 9); (15, 11)];
  PheromoneParams.decoySpacing := (300, 301)%Q;
  PheromoneParams.estrousStartDayMonth := (15, 9);
  PheromoneParams.estrousEndDayMonth := (15, 1);
  PheromoneParams.dispersalDateDayMonth := (16, 1);
  PheromoneParams.hoursPerDay := 16;
  PheromoneParams.meanNAdd := (6, 7)%Q;
  PheromoneParams.stepScale := 50;
  PheromoneParams.stepShape := 9 # 10;
  PheromoneParams.directionalVM := 35 # 10;
  PheromoneParams.alphaK := (2 # 100, 201 # 10000)%Q;
  PheromoneParams.COA_radius := 2500;
  PheromoneParams.COA_decay_spatial := (1 # 100, 101 # 10000)%Q;
  PheromoneParams.COA_decay_temporal := (5 # 1000, 6 # 1000)%Q;
  PheromoneParams.minK := 5 # 1000;
  PheromoneParams.meanRecruits := 9;
  PheromoneParams.habituationDays := (19, 20);
  PheromoneParams.encounterDistance := 25;
  PheromoneParams.probPregnacy := 9 # 10;
  PheromoneParams.birthDayMonth := (30, 10);
  PheromoneParams.nDaysPregnantBeforeBirth := 180;
  PheromoneParams.trappingDayMonths := Some [(20, 1); (20, 7); (20, 11)];
  PheromoneParams.nTrapDays := 14;
  PheromoneParams.trapEncDist := 15;
  PheromoneParams.trapProbRemoval := 2 # 10;
  PheromoneParams.PAnnualSurv := (5 # 10, 501 # 1000)%Q
|}.

(** [int(x)] of a float: truncation towards zero. *)
Definition py_int (q : Q) : Z :=
  if Qle_bool 0 q then Qfloor q else Qceiling q.

(** [np.round(x, -1)]: to the nearest ten, halves to the even ten. *)
Definition np_round_tens (q : Q) : Q := (inject_Z (np_round (q / 10)) * 10)%Q.

(** [np.random.randint(low, high)]: an integer of [low, high), from one
    raw draw; ValueError when the interval is empty. *)
Definition randint (low high : Z) : M Z :=
  if high <=? low then raise (ValueError "low >= high")
  else let* u := draw in ret (low + Qfloor (u * inject_Z (high - low))).

(** What getRandomVariates returns. *)
Module Variates.
Record t := mk {
  nAdd : Z;
  pheromoneReleaseDayMonths : list (Z * Z);
  spacing : Q;
  alphaK : Q;
  COA_decay_spatial : Q;
  COA_decay_temporal : Q;
  habituationDays : Z;
  pDaySurv : Q
}.
End Variates.

(** Lines 698-748. *)
Definition getRandomVariates (num : Numerics) (params : PheromoneParams.t)
  : M Variates.t :=
  let* r := uniform (fst (PheromoneParams.meanNAdd params))
                    (snd (PheromoneParams.meanNAdd params)) in
  let nAdd := py_int r in
  let* b := binomial1 (1 # 2) in
  let twoPheroPerYear := (b =? 1) in
  let twoPheroPerYear := true in
  let pheromoneReleaseDayMonths :=
    if twoPheroPerYear then PheromoneParams.pheromoneReleaseDayMonths params
    else match PheromoneParams.pheromoneReleaseDayMonths params with
         | first :: _ => [first]
         | [] => []
         end in
  let* spacing := uniform (fst (PheromoneParams.decoySpacing params))
                          (snd (PheromoneParams.decoySpacing params)) in
  let spacing := np_round_tens spacing in
  let* COA_decay_spatial := uniform (fst (PheromoneParams.COA_decay_spatial params))
                                    (snd (PheromoneParams.COA_decay_spatial params)) in
  let* COA_decay_temporal := uniform (fst (PheromoneParams.COA_decay_temporal params))
                                     (snd (PheromoneParams.COA_decay_temporal params)) in
  let* habituationDays := randint (fst (PheromoneParams.habituationDays params))
                                  (snd (PheromoneParams.habituationDays params)) in
  let* pAnnSurv := uniform (fst (PheromoneParams.PAnnualSurv params))
                           (snd (PheromoneParams.PAnnualSurv params)) in
  let pDaySurv := np_power num pAnnSurv (1 / 365) in
  let* alphaK := uniform (fst (PheromoneParams.alphaK params))
                         (snd (PheromoneParams.alphaK params)) in
  ret (Variates.mk nAdd pheromoneReleaseDayMonths spacing alphaK COA_decay_spatial
         COA_decay_temporal habituationDays pDaySurv).

(** A raw draw of the generator: a number of [0, 1). *)
Definition unitDraw (u : Q) : Prop := (0 <= u)%Q /\ (u < 1)%Q.

(** A sampled range [lo, hi] of params.py. *)
Definition ordered (r : Q * Q) : Prop := (fst r <= snd r)%Q.
Definition within (r : Q * Q) (v : Q) : Prop := (fst r <= v)%Q /\ (v <= snd r)%Q.

(** * The lure grid (makePheromoneArray) *)

(** Exceptions of the interpreter-level code: those the engine can
    raise too, and those only the interpreter raises. *)
Inductive HostError :=
| EngineError (e : Error)
| IndexError (array : string) (index : Z)
| TypeError (msg : string).

(** [range(start, stop, step)] *)
Definition py_range (start stop step : Z) : Error + list Z :=
  if step =? 0 then inl (ValueError "range() arg 3 must not be zero")
  else
    let count :=
      if 0 <? step then (stop - start + step - 1) / step
      else (start - stop - step - 1) / (- step) in
    inr (map (fun k => start + Z.of_nat k * step) (seq 0 (Z.to_nat count))).

(** The six coefficients of a GDAL geotransform. *)
Definition GeoTransform := (Q * Q * Q * Q * Q * Q)%type.

(** [gdal.ApplyGeoTransform] *)
Definition ApplyGeoTransform (gt : GeoTransform) (x y : Q) : Q * Q :=
  let '(g0, g1, g2, g3, g4, g5) := gt in
  (g0 + x * g1 + y * g2, g3 + x * g4 + y * g5)%Q.

(** [gdal.InvGeoTransform]: the inverse affine map, [None] when the
    transform has no inverse. *)
Definition InvGeoTransform (gt : GeoTransform) : option GeoTransform :=
  let '(g0, g1, g2, g3, g4, g5) := gt in
  let det := (g1 * g5 - g2 * g4)%Q in
  if Qeq_bool det 0 then None
  else
    let inv_det := (1 / det)%Q in
    Some ((g2 * g3 - g0 * g5) * inv_det, g5 * inv_det, - g2 * inv_det,
          (- g1 * g3 + g0 * g4) * inv_det, - g4 * inv_det, g1 * inv_det)%Q.

(** Lines 54-57: is the mask positive at the pixel of [(x, y)]? The
    pixel indices are truncated, and the mask is indexed by the
    interpreter: a negative index counts from the end, an index out of
    range raises. *)
Definition stationAt (mask : list (list Z)) (tinverse : option GeoTransform) (x y : Z)
  : HostError + bool :=
  match tinverse with
  | None => inl (TypeError "ApplyGeoTransform: not a geotransform")
  | Some t =>
      let '(xPix, yPix) := ApplyGeoTransform t (inject_Z x) (inject_Z y) in
      let xPix := py_int xPix in
      let yPix := py_int yPix in
      match np_index mask yPix with
      | None => inl (IndexError "mask" yPix)
      | Some row =>
          match np_index row xPix with
          | None => inl (IndexError "mask" xPix)
          | Some v => inr (0 <? v)
          end
      end
  end.

(** Lines 53-59: the inner loop, over the x of one grid row. *)
Fixpoint makePheromoneArray_row (mask : list (list Z)) (tinverse : option GeoTransform)
    (y : Z) (xs : list Z) (stations : list Pheromone.t) : HostError + list Pheromone.t :=
  match xs with
  | [] => inr stations
  | x :: xs' =>
      match stationAt mask tinverse x y with
      | inl e => inl e
      | inr b =>
          makePheromoneArray_row mask tinverse y xs'
            (if b then stations ++ [Pheromone.mk (inject_Z x) (inject_Z y)] else stations)
      end
  end.

(** Lines 52-59: the outer loop, over the y of the grid rows. *)
Fixpoint makePheromoneArray_rows (mask : list (list Z)) (tinverse : option GeoTransform)
    (ys : list Z) (xs : Error + list Z) (stations : list Pheromone.t)
  : HostError + list Pheromone.t :=
  match ys with
  | [] => inr stations
  | y :: ys' =>
      match xs with
      | inl e => inl (EngineError e)
      | inr xl =>
          match makePheromoneArray_row mask tinverse y xl stations with
          | inl e => inl e
          | inr stations => makePheromoneArray_rows mask tinverse ys' xs stations
          end
      end
  end.

Definition makePheromoneArray (isl : Island) (spacing : Q) (transform : GeoTransform)
  : HostError + list Pheromone.t :=
  let tinverse := InvGeoTransform transform in
  match py_range (py_int (bry isl + spacing)) (py_int (tly isl)) (py_int spacing) with
  | inl e => inl (EngineError e)
  | inr ys =>
      makePheromoneArray_rows (mask isl) tinverse ys
        (py_range (py_int (tlx isl)) (py_int (brx isl)) (py_int spacing)) []
  end.

(** The grid point [(x, y)] is one the loops of makePheromoneArray
    visit. *)
Definition gridPoint (isl : Island) (spacing : Q) (x y : Z) : Prop :=
  exists xs ys,
    py_range (py_int (tlx isl)) (py_int (brx isl)) (py_int spacing) = inr xs /\
    py_range (py_int (bry isl + spacing)) (py_int (tly isl)) (py_int spacing) = inr ys /\
    In x xs /\ In y ys.

(** The geotransform of a north-up raster. *)
Definition northUp (isl : Island) : GeoTransform :=
  (tlx isl, pixsize isl, 0, tly isl, 0, - pixsize isl)%Q.

(** A three-by-three mask with 10 m pixels, land in the middle column. *)
Definition grid3 : Island := {|
  mask := [[0; 1; 0]; [0; 1; 0]; [0; 1; 0]];
  tlx := 0; tly := 30; brx := 30; bry := 0;
  pixsize := 10
|}.

(** ** Attraction vocabulary *)

(** [c] stands at a live independent agent of the sought sex, in a slot
    in use, closer than [COA_radius] to [(x, y)], with no row in the
    mating table pairing it with the seeker [stoatid]. *)
Definition mateCandidate (num : Numerics) (lookingForMale : bool) (x y : Q)
    (stoatArray : list Stoat.t) (nStoats : nat) (stoatid : Z) (COA_radius : Q)
    (matingArray : list Mating.t) (c : Candidate) : Prop :=
  exists i si,
    (i < nStoats)%nat /\ stoatArray !! i = Some si /\
    Stoat.deleted si = false /\ Stoat.parentid si = -1 /\
    Stoat.male si = lookingForMale /\
    Qlt_bool (distance num (x - Stoat.x si) (y - Stoat.y si)) COA_radius = true /\
    (if lookingForMale then alreadyMatedWith matingArray (Stoat.id si) stoatid
     else alreadyMatedWith matingArray stoatid (Stoat.id si)) = false /\
    fst (fst c) = Stoat.x si /\ snd (fst c) = Stoat.y si.

(** [c] stands at a lure station closer than [COA_radius] to [(x, y)]
    that has no row for the seeker in the habituation table. *)
Definition lureCandidate (num : Numerics) (x y : Q) (stoatid : Z) (COA_radius : Q)
    (pheromoneArray : list Pheromone.t) (pheromoneInteractionArray : list Interaction.t)
    (c : Candidate) : Prop :=
  exists i ph,
    pheromoneArray !! i = Some ph /\
    Qlt_bool (distance num (x - Pheromone.x ph) (y - Pheromone.y ph)) COA_radius = true /\
    alreadyInteracted pheromoneInteractionArray stoatid (Z.of_nat i) = false /\
    fst (fst c) = Pheromone.x ph /\ snd (fst c) = Pheromone.y ph.

(** ** Mating vocabulary *)

(** [si] is a female the male [stoatid] standing at [(x, y)] mates with
    when he comes to her slot: live, independent, within the encounter
    distance, and with no row pairing her with him in the mating
    table. *)
Definition matingPartner (num : Numerics) (x y : Q) (stoatid : Z) (encounterDistance : Q)
    (matingArray : list Mating.t) (si : Stoat.t) : Prop :=
  Stoat.deleted si = false /\ Stoat.male si = false /\ Stoat.parentid si = -1 /\
  alreadyMatedWith matingArray stoatid (Stoat.id si) = false /\
  Qlt_bool (distance num (x - Stoat.x si) (y - Stoat.y si)) encounterDistance = true.

(** ** Birth vocabulary *)

(** [t] is a kit doBirth wrote for the mother [m], with an id drawn
    from the counter between [cid] and [cid']. *)
Definition kitOf (m : Stoat.t) (cid cid' : Z) (t : Stoat.t) : Prop :=
  Stoat.deleted t = false /\ Stoat.parentid t = Stoat.id m /\
  Stoat.x t = Stoat.x m /\ Stoat.y t = Stoat.y m /\
  Stoat.home_x t = Stoat.x m /\ Stoat.home_y t = Stoat.y m /\
  Stoat.pregnant t = false /\ Stoat.pregnant_day t = -1 /\
  Stoat.homerange t = false /\ cid <= Stoat.id t < cid'.

(** ** Size vocabulary *)

(** From [w] to [w'] the three tables kept their lengths, neither
    counter went down, and a slot count within the agent table stayed
    within it. *)
Definition sameSizes (w w' : World) : Prop :=
  length (stoatArray w') = length (stoatArray w) /\
  length (matingArray w') = length (matingArray w) /\
  length (pheromoneInteractionArray w') = length (pheromoneInteractionArray w) /\
  (nStoats w <= nStoats w')%nat /\ Current_Id w <= Current_Id w' /\
  ((nStoats w <= length (stoatArray w))%nat ->
   (nStoats w' <= length (stoatArray w'))%nat).

(** ** Mask coverage *)





(** * Proofs *)

(** ** Rules for [post] *)

Lemma post_ret {A} (a : A) (Q : A -> Prop) : Q a -> post (ret a) Q.
Proof. intros H d a' d' E. inversion E; subst; exact H. Qed.

Lemma post_raise {A} (e : Error) (Q : A -> Prop) : post (raise e) Q.
Proof. intros d a d' E. discriminate E. Qed.

Lemma post_fault {A} s i (Q : A -> Prop) : post (fault s i) Q.
Proof. intros d a d' E. discriminate E. Qed.

Lemma post_bind {A B} (m : M A) (k : A -> M B) (Q : B -> Prop) :
  post m (fun a => post (k a) Q) -> post (bind m k) Q.
Proof.
  intros H d b d' E. unfold bind in E.
  destruct (m d) as [a d1| | |] eqn:Em; try discriminate.
  exact (H d a d1 Em d1 b d' E).
Qed.

Lemma post_mono {A} (m : M A) (P Q : A -> Prop) :
  post m P -> (forall a, P a -> Q a) -> post m Q.
Proof. intros H HPQ d a d' E. apply HPQ. exact (H d a d' E). Qed.

Lemma post_draw (Q : Q -> Prop) : (forall u, Q u) -> post draw Q.
Proof. intros H d a d' E. apply H. Qed.

Lemma post_forEach_break {S} (I J : S -> Prop) idxs (body : nat -> S -> M (Ctl S)) :
  (forall i s, In i idxs -> I s ->
     post (body i s) (fun c => match c with Next s' => I s' | Break s' => J s' end)) ->
  (forall s, I s -> J s) ->
  forall s, I s -> post (forEach idxs body s) J.
Proof.
  intros Hb HIJ. induction idxs as [|i rest IH]; intros s Hs; simpl.
  - apply post_ret. apply HIJ; exact Hs.
  - apply post_bind. eapply post_mono.
    + apply Hb; [left; reflexivity | exact Hs].
    + intros [s'|s'] Hc; simpl in Hc.
      * apply IH; [|exact Hc]. intros j s0 Hj. apply Hb. right; exact Hj.
      * apply post_ret; exact Hc.
Qed.

Lemma post_forEach {S} (I : S -> Prop) idxs (body : nat -> S -> M (Ctl S)) :
  (forall i s, In i idxs -> I s -> post (body i s) (fun c => I (ctl_state c))) ->
  forall s, I s -> post (forEach idxs body s) I.
Proof.
  intros Hb. apply post_forEach_break; [|auto].
  intros i s Hi Hs. eapply post_mono; [apply Hb; assumption|].
  intros [s'|s']; auto.
Qed.

Lemma post_forRange {S} (I : S -> Prop) n (body : nat -> S -> M (Ctl S)) :
  (forall i s, (i < n)%nat -> I s -> post (body i s) (fun c => I (ctl_state c))) ->
  forall s, I s -> post (forRange n body s) I.
Proof.
  intros Hb s Hs. unfold forRange. apply post_forEach; [|exact Hs].
  intros i s0 Hi. apply Hb. apply in_seq in Hi. lia.
Qed.

Lemma post_forRange_break {S} (I J : S -> Prop) n (body : nat -> S -> M (Ctl S)) :
  (forall i s, (i < n)%nat -> I s ->
     post (body i s) (fun c => match c with Next s' => I s' | Break s' => J s' end)) ->
  (forall s, I s -> J s) ->
  forall s, I s -> post (forRange n body s) J.
Proof.
  intros Hb HIJ s Hs. unfold forRange. apply post_forEach_break with (I := I); auto.
  intros i s0 Hi. apply Hb. apply in_seq in Hi. lia.
Qed.

Lemma post_getStoat arr i (Q : Stoat.t -> Prop) :
  (forall s, arr !! i = Some s -> Q s) -> post (getStoat arr i) Q.
Proof.
  intros H. unfold getStoat. destruct (arr !! i) as [s|] eqn:E.
  - apply post_ret. apply H. reflexivity.
  - apply post_fault.
Qed.

Lemma post_setStoat arr i f (Q : list Stoat.t -> Prop) :
  (forall s, arr !! i = Some s -> Q (<[i := f s]> arr)) -> post (setStoat arr i f) Q.
Proof.
  intros H. unfold setStoat. destruct (arr !! i) as [s|] eqn:E.
  - apply post_ret. apply H. reflexivity.
  - apply post_fault.
Qed.

(** ** Rules for [sat] *)

Lemma sat_ret {A} (a : A) (Q : A -> Prop) R : Q a -> sat (ret a) Q R.
Proof. intros H d. exact H. Qed.

Lemma sat_raise {A} (e : Error) (Q : A -> Prop) (R : Error -> Prop) : R e -> sat (raise e) Q R.
Proof. intros H d. exact H. Qed.

Lemma sat_fault {A} s i (Q : A -> Prop) R : sat (fault s i) Q R.
Proof. intros d. exact I. Qed.

Lemma sat_bind {A B} (m : M A) (k : A -> M B) (Q : B -> Prop) R :
  sat m (fun a => sat (k a) Q R) R -> sat (bind m k) Q R.
Proof.
  intros H d. unfold bind. specialize (H d).
  destruct (m d) as [a d1| e | |]; auto. apply H.
Qed.

Lemma sat_mono {A} (m : M A) (P Q : A -> Prop) R :
  sat m P R -> (forall a, P a -> Q a) -> sat m Q R.
Proof.
  intros H HPQ d. specialize (H d). destruct (m d); auto.
Qed.

Lemma sat_draw (Q : Q -> Prop) R : (forall u, Q u) -> sat draw Q R.
Proof. intros H [|u d]; simpl; auto. Qed.

Lemma sat_binomial1 p (Q : Z -> Prop) R : (forall b, Q b) -> sat (binomial1 p) Q R.
Proof. intros H. unfold binomial1. apply sat_bind, sat_draw. intros u. apply sat_ret, H. Qed.

Lemma sat_getStoat arr i (Q : Stoat.t -> Prop) R :
  (forall s, arr !! i = Some s -> Q s) -> sat (getStoat arr i) Q R.
Proof.
  intros H. unfold getStoat. destruct (arr !! i) as [s|] eqn:E.
  - apply sat_ret. apply H. reflexivity.
  - apply sat_fault.
Qed.

Lemma sat_setStoat arr i f (Q : list Stoat.t -> Prop) R :
  (forall s, arr !! i = Some s -> Q (<[i := f s]> arr)) -> sat (setStoat arr i f) Q R.
Proof.
  intros H. unfold setStoat. destruct (arr !! i) as [s|] eqn:E.
  - apply sat_ret. apply H. reflexivity.
  - apply sat_fault.
Qed.

Lemma sat_forEach_break {S} (I J : S -> Prop) R idxs (body : nat -> S -> M (Ctl S)) :
  (forall i s, In i idxs -> I s ->
     sat (body i s) (fun c => match c with Next s' => I s' | Break s' => J s' end) R) ->
  (forall s, I s -> J s) ->
  forall s, I s -> sat (forEach idxs body s) J R.
Proof.
  intros Hb HIJ. induction idxs as [|i rest IH]; intros s Hs; simpl.
  - apply sat_ret. apply HIJ; exact Hs.
  - apply sat_bind. eapply sat_mono.
    + apply Hb; [left; reflexivity | exact Hs].
    + intros [s'|s'] Hc; simpl in Hc.
      * apply IH; [|exact Hc]. intros j s0 Hj. apply Hb. right; exact Hj.
      * apply sat_ret; exact Hc.
Qed.

Lemma sat_post {A} (m : M A) (Q : A -> Prop) : sat m Q (fun _ => True) <-> post m Q.
Proof.
  split.
  - intros H d a d' E. specialize (H d). rewrite E in H. exact H.
  - intros H d. destruct (m d) as [a d'| | |] eqn:E; auto. exact (H d a d' E).
Qed.

(** ** The free-slot scans *)


Lemma addMating_Some M sid fid hab M' :
  addMating M sid fid hab = Some M' ->
  exists i m, M !! i = Some m /\ Mating.maleid m = -1 /\
    (forall j m', (j < i)%nat -> M !! j = Some m' -> Mating.maleid m' <> -1) /\
    M' = <[i := Mating.mk sid fid hab]> M.
Proof.
  revert M'. induction M as [|m M IH]; simpl; intros M' H; [discriminate|].
  destruct (Z.eqb_spec (Mating.maleid m) (-1)) as [E|E].
  - inversion H; subst. exists 0%nat, m. repeat split; auto. intros j m' Hj; lia.
  - destruct (addMating M sid fid hab) as [M1|] eqn:EM; simpl in H; [|discriminate].
    inversion H; subst. destruct (IH M1 eq_refl) as (i & m0 & Hi & Hm0 & Hfirst & ->).
    exists (S i), m0. repeat split; auto.
    intros [|j] m' Hj Hl; simpl in Hl.
    + inversion Hl; subst; exact E.
    + apply (Hfirst j); auto; lia.
Qed.


Lemma addInteraction_Some P sid p hab P' :
  addInteraction P sid p hab = Some P' ->
  exists i e, P !! i = Some e /\ Interaction.stoatid e = -1 /\
    (forall j e', (j < i)%nat -> P !! j = Some e' -> Interaction.stoatid e' <> -1) /\
    P' = <[i := Interaction.mk p sid hab]> P.
Proof.
  revert P'. induction P as [|e P IH]; simpl; intros P' H; [discriminate|].
  destruct (Z.eqb_spec (Interaction.stoatid e) (-1)) as [E|E].
  - inversion H; subst. exists 0%nat, e. repeat split; auto. intros j m' Hj; lia.
  - destruct (addInteraction P sid p hab) as [P1|] eqn:EM; simpl in H; [|discriminate].
    inversion H; subst. destruct (IH P1 eq_refl) as (i & m0 & Hi & Hm0 & Hfirst & ->).
    exists (S i), m0. repeat split; auto.
    intros [|j] m' Hj Hl; simpl in Hl.
    + inversion Hl; subst; exact E.
    + apply (Hfirst j); auto; lia.
Qed.



Ltac sat_step :=
  lazymatch goal with
  | |- sat (bind _ _) _ _ => apply sat_bind
  | |- sat (ret _) _ _ => apply sat_ret
  | |- sat (getStoat _ _) _ _ => apply sat_getStoat; intros ? ?
  | |- sat (setStoat _ _ _) _ _ => apply sat_setStoat; intros ? ?
  | |- sat (binomial1 _) _ _ => apply sat_binomial1; intros ?
  | |- sat (if ?c then _ else _) _ _ => destruct c eqn:?
  end.


Lemma sameKey_refl s : sameKey s s.
Proof. repeat split; auto. Qed.

Lemma sameKey_trans s t u : sameKey s t -> sameKey t u -> sameKey s u.
Proof.
  intros (a1 & a2 & a3 & a4) (b1 & b2 & b3 & b4).
  repeat split; try congruence. auto.
Qed.

Lemma keyRel_refl arr : keyRel arr arr.
Proof. apply Forall_Forall2_diag, Forall_forall. intros; apply sameKey_refl. Qed.

Lemma keyRel_trans a b c : keyRel a b -> keyRel b c -> keyRel a c.
Proof.
  unfold keyRel. intros H1 H2. eapply Forall2_trans; [|exact H1|exact H2].
  intros x y z. apply sameKey_trans.
Qed.

Lemma keyRel_insert (arr : list Stoat.t) (i : nat) s t :
  arr !! i = Some s -> sameKey s t -> keyRel arr (<[i := t]> arr).
Proof.
  intros E H. unfold keyRel.
  rewrite <- (list_insert_id arr i s E) at 1.
  apply Forall2_insert; [apply keyRel_refl|exact H].
Qed.

(** ** Total runs of the mating scan *)










(** ** The anti-explosion test *)

Lemma dayLoop_guard num p day rest rs d :
  (175 < nStoats (world rs))%nat ->
  forEach (day :: rest) (dayBody num p) rs d =
  Ok (Build_RunState (world rs) (daysSincePheromoneRelease rs) (inEstrous rs)
        (debugIndex rs) (Some false) (returned rs)) d.
Proof.
  intros H. simpl. unfold bind, dayBody.
  apply Nat.ltb_lt in H. rewrite H. reflexivity.
Qed.

Lemma population_le_nStoats w : (population w <= nStoats w)%nat.
Proof.
  unfold population.
  etransitivity; [apply length_filter|]. rewrite length_take. lia.
Qed.

(** C9. Anti-explosion guard. At the start of any simulated day (the
    head of any remainder of the day loop), if the agent count [nStoats]
    exceeds 175 the loop stops there: nothing is drawn, the world is
    left as it is, and the realisation's result is [eradicated = false],
    an ordinary result and not an error. The live population never
    exceeds [nStoats], so a live population above 175 triggers it too. *)
Theorem anti_explosion_guard (num : Numerics) (p : Params) :
  (forall day rest rs d,
     (175 < nStoats (world rs))%nat ->
     forEach (day :: rest) (dayBody num p) rs d =
     Ok (Build_RunState (world rs) (daysSincePheromoneRelease rs) (inEstrous rs)
           (debugIndex rs) (Some false) (returned rs)) d) /\
  (forall w d,
     (1 <= nDays p)%nat -> (175 < nStoats w)%nat ->
     runRealisation num p w d = Ok (false, w) d) /\
  (forall w, (175 < population w)%nat -> (175 < nStoats w)%nat).
Proof.
  split; [|split].
  - intros. apply dayLoop_guard; assumption.
  - intros w d Hn H. unfold runRealisation, forRange.
    destruct (nDays p) as [|k]; [lia|].
    simpl seq. unfold bind at 1. rewrite dayLoop_guard by exact H. reflexivity.
  - intros w H. pose proof (population_le_nStoats w). lia.
Qed.

(** ** Habituation gating *)

(** C3. An agent (id 7) standing on station 0, to which it already has
    an active habituation row, is given a second row for the same
    station: the scan for an earlier interaction has no effect on what
    doPheromoneInteraction records. *)
Theorem habituated_agent_gets_second_row :
  doPheromoneInteraction refNumerics 0 0 7 [exAdult true false 7] 1
    [Pheromone.mk 0 0] 25
    [Interaction.mk 0 7 5; Interaction.mk 0 (-1) 0] 19 []
  = Ok [Interaction.mk 0 7 5; Interaction.mk 0 7 19] [].
Proof. vm_compute. reflexivity. Qed.

(** ** Capacity *)

(** C2. With all 1000 slots live, a birth of one kit writes row 1000 of
    the 1000-row agent table before the capacity test is reached; with
    a longer table the same call performs that write and only then
    raises 'Too many stoats'. With 999 slots in use the kit fits. *)
Theorem birth_writes_past_capacity :
  length fullHouse = INITIAL_STOAT_ARRAY_SIZE /\
  doBirth refNumerics fullHouse 1000 0 9 1000 [1 # 18; 1 # 4]%Q
    = Fault "stoatArray" 1000 /\
  doBirth refNumerics (fullHouse ++ [Stoat.empty]) 1000 0 9 1000 [1 # 18; 1 # 4]%Q
    = Raise (ValueError "Too many stoats") /\
  (exists arr, doBirth refNumerics (take 999 fullHouse ++ [Stoat.empty]) 999 0 9 1000
                 [1 # 18; 1 # 4]%Q = Ok (arr, 1000%nat, 1001) []).
Proof.
  split; [reflexivity|]. split; [vm_compute; reflexivity|].
  split; [vm_compute; reflexivity|].
  eexists. vm_compute. reflexivity.
Qed.

(** ** Seeded females *)

Lemma seeded_birth_test (n : Z) (day : nat) :
  (n <? Z.of_nat day - (- n)) = true <-> (0 < day)%nat.
Proof. rewrite Z.ltb_lt. lia. Qed.

(** C7. Two agents are seeded with a gestation threshold of 180 days:
    the female gets [pregnant_day = -180]. On day 0 the birth test
    [day - pregnant_day > 180] is false for her, so with day 0 a
    scheduled birth day she does not give birth: after the day the
    agent count and the id counter are what seeding left, and she is
    still pregnant. *)
Theorem seeded_female_waits_on_day0 :
  exists arr n cid w,
    createInitialStoats (emptyStoats 4) 2 exIsland 180
      [1 # 2; 1 # 2; 0; 1 # 2; 1 # 2; 0]%Q = Ok (arr, n, cid) [] /\
    (exists f, arr !! 0%nat = Some f /\ Stoat.deleted f = false /\ Stoat.male f = false /\
               Stoat.pregnant f = true /\ Stoat.pregnant_day f = -180) /\
    (nDaysPregnantBeforeBirth (exParams 1 1 [] [] [] [0%nat] None [] [] [] 1)
       <? Z.of_nat 0 - (-180)) = false /\
    runRealisation refNumerics (exParams 1 1 [] [] [] [0%nat] None [] [] [] 1)
      (exWorld arr n cid (emptyMatings 2) [])
      [0; 0; 1 # 2; 0; 0; 1 # 2]%Q = Ok (false, w) [] /\
    n = 2%nat /\ nStoats w = 2%nat /\ Current_Id w = 2 /\
    (exists f, stoatArray w !! 0%nat = Some f /\ Stoat.pregnant f = true).
Proof.
  do 4 eexists.
  split; [vm_compute; reflexivity|].
  split; [eexists; repeat split; reflexivity|].
  split; [reflexivity|].
  split; [vm_compute; reflexivity|].
  repeat split. eexists. split; reflexivity.
Qed.

(** ** More rules for [post] *)

Lemma post_binomial1 p (Q : Z -> Prop) : (forall b, Q b) -> post (binomial1 p) Q.
Proof. intros H. unfold binomial1. apply post_bind, post_draw. intros u. apply post_ret, H. Qed.

Lemma post_uniform a b (Q : Q -> Prop) : (forall v, Q v) -> post (uniform a b) Q.
Proof. intros H. unfold uniform. apply post_bind, post_draw. intros u. apply post_ret, H. Qed.

Lemma post_fdiv a b (Q : Q -> Prop) : (forall v, Q v) -> post (fdiv a b) Q.
Proof.
  intros H. unfold fdiv. destruct (Qeq_bool b 0); [apply post_raise|apply post_ret, H].
Qed.

Lemma post_true {A} (m : M A) : post m (fun _ => True).
Proof. intros d a d' _. exact I. Qed.

Lemma post_and {A} (m : M A) (P Q : A -> Prop) :
  post m P -> post m Q -> post m (fun a => P a /\ Q a).
Proof. intros HP HQ d a d' E. split; [exact (HP d a d' E)|exact (HQ d a d' E)]. Qed.

Ltac post_step :=
  lazymatch goal with
  | |- post (bind _ _) _ => apply post_bind
  | |- post (ret _) _ => apply post_ret
  | |- post (raise _) _ => apply post_raise
  | |- post (fault _ _) _ => apply post_fault
  | |- post (getStoat _ _) _ =>
      let Hlk := fresh "Hlk" in apply post_getStoat; intros ? Hlk
  | |- post (setStoat _ _ _) _ =>
      let Hlk := fresh "Hlk" in apply post_setStoat; intros ? Hlk
  | |- post (binomial1 _) _ => apply post_binomial1; intros ?
  | |- post (uniform _ _) _ => apply post_uniform; intros ?
  | |- post (fdiv _ _) _ => apply post_fdiv; intros ?
  | |- post draw _ => apply post_draw; intros ?
  | |- post random _ => apply post_draw; intros ?
  | |- post (if ?c then _ else _) _ => destruct c eqn:?
  | |- post (match ?c with _ => _ end) _ => destruct c eqn:?
  end.

(** ** The land test *)





(** ** Writes that keep every live agent on land *)

Lemma allOnLand_insert isl arr i s :
  allOnLand isl arr -> stoatOnLand isl s -> allOnLand isl (<[i := s]> arr).
Proof. intros H Hs. apply Forall_insert; assumption. Qed.

Lemma allOnLand_lookup isl arr i s :
  allOnLand isl arr -> arr !! i = Some s -> stoatOnLand isl s.
Proof. intros H E. exact (proj1 (Forall_lookup _ _) H i s E). Qed.

Lemma allOnLand_keepsPlace isl arr i s f :
  keepsPlace f -> allOnLand isl arr -> arr !! i = Some s ->
  allOnLand isl (<[i := f s]> arr).
Proof.
  intros Hf H E. apply allOnLand_insert; [exact H|].
  pose proof (allOnLand_lookup _ _ _ _ H E) as Hs.
  destruct (Hf s) as (Hd & Hx & Hy). unfold stoatOnLand in *.
  rewrite Hd, Hx, Hy. exact Hs.
Qed.






Ltac post_call lem :=
  apply post_bind; eapply post_mono; [apply lem|].






Lemma post_any {A} (m : M A) (Q : A -> Prop) : (forall a, Q a) -> post m Q.
Proof. intros H d a d' _. apply H. Qed.













(** ** Who writes [bearingT_1] *)

Lemma bearings_insert (arr : list Stoat.t) (i : nat) s t :
  arr !! i = Some s -> Stoat.bearingT_1 t = Stoat.bearingT_1 s ->
  bearings (<[i := t]> arr) = bearings arr.
Proof.
  intros E Hb. unfold bearings. rewrite list_fmap_insert, Hb.
  apply list_insert_id. rewrite list_lookup_fmap, E. reflexivity.
Qed.

Ltac keep_bearing :=
  erewrite bearings_insert by (first [eassumption | reflexivity]).

Lemma doMaleMating_bearings num x y sid arr n enc M hab day pp :
  post (doMaleMating num x y sid arr n enc M hab day pp)
       (fun r => bearings (snd (fst r)) = bearings arr).
Proof.
  unfold doMaleMating.
  apply post_forRange
    with (I := fun r : bool * list Stoat.t * list Mating.t =>
                 bearings (snd (fst r)) = bearings arr); [|reflexivity].
  intros i [[mated arr1] M1] _ H; simpl in H.
  repeat post_step; simpl; try exact H.
  eapply post_mono.
  - apply post_forRange with (I := fun a => bearings a = bearings arr);
      [|keep_bearing; exact H].
    intros j arr2 _ Ha. repeat post_step; simpl; try exact Ha. keep_bearing; exact Ha.
  - intros arr2 Ha. simpl. repeat post_step; simpl; exact Ha.
Qed.

Lemma placeKit_bearings arr slot stoat x y cid :
  post (placeKit arr slot stoat x y cid) (fun arr' => bearings arr' = bearings arr).
Proof.
  unfold placeKit. repeat post_step. keep_bearing. keep_bearing. reflexivity.
Qed.

Lemma doBirth_append_bearings nKits stoat x y B :
  forall st, bearings (fst (fst st)) = B ->
  post (doBirth_append nKits stoat x y st) (fun r => bearings (fst (fst r)) = B).
Proof.
  induction nKits as [|k IH]; intros [[arr n] cid] H; simpl in *.
  - apply post_ret. exact H.
  - post_call placeKit_bearings.
    intros arr1 H1. post_step; [post_step|]. apply IH. simpl. congruence.
Qed.

Lemma doBirth_bearings num arr n stoat mean cid :
  post (doBirth num arr n stoat mean cid) (fun r => bearings (fst (fst r)) = bearings arr).
Proof.
  unfold doBirth. do 4 post_step.
  apply post_bind. eapply post_mono.
  - apply post_forRange
      with (I := fun r : list Stoat.t * nat * Z => bearings (fst (fst r)) = bearings arr);
      [|reflexivity].
    intros i [[arr1 k] c] _ H1; simpl in H1.
    destruct k as [|k]; [post_step; exact H1|].
    post_step. post_step. post_step; [|post_step; exact H1].
    post_call placeKit_bearings. intros arr2 Ha. post_step. simpl. congruence.
  - intros [[arr1 k] c] H1; simpl in H1.
    post_call doBirth_append_bearings; [exact H1|].
    intros [[arr2 n2] c2] Ha; simpl in Ha.
    repeat post_step. simpl. keep_bearing. exact Ha.
Qed.

Lemma killStoat_bearings stoat w :
  post (killStoat stoat w) (fun w' => bearings (stoatArray w') = bearings (stoatArray w)).
Proof.
  unfold killStoat. post_step. post_step.
  apply post_bind. eapply post_mono.
  - apply post_forRange with (I := fun a => bearings a = bearings (stoatArray w));
      [|keep_bearing; reflexivity].
    intros i arr1 _ H1. repeat post_step; simpl; try exact H1. keep_bearing. exact H1.
  - intros arr1 H1. repeat post_step. simpl. exact H1.
Qed.

(** An agent that has not dispersed is processed without any write to
    the bearing column. *)
Lemma stoatHour_juvenile_bearings num p day hour e dsp stoat w b s :
  stoatArray w !! stoat = Some s -> Stoat.parentid s <> -1 ->
  post (stoatHour num p day hour e dsp stoat (w, b))
       (fun r => bearings (stoatArray (fst r)) = bearings (stoatArray w)).
Proof.
  intros Es Hp. unfold stoatHour. post_step. post_step.
  assert (s0 = s) as -> by congruence.
  post_step; [post_step; reflexivity|].
  apply post_bind, post_any. intros hb.
  post_step. post_step.
  assert (bearings (<[stoat := Stoat.set_homerange hb s0]> (stoatArray w))
          = bearings (stoatArray w)) as H1 by (keep_bearing; reflexivity).
  apply post_bind.
  apply post_mono with (P := fun r : bool * World =>
                               bearings (stoatArray (snd r)) = bearings (stoatArray w)).
  { post_step.
    - post_step; [|post_step; exact H1].
      post_call doMaleMating_bearings.
      intros [[mated arr2] M2] Ha. post_step. simpl in *. congruence.
    - post_step; [|post_step; exact H1].
      post_call doBirth_bearings.
      intros [[arr2 n2] c2] Ha. post_step. simpl in *. congruence. }
  intros [mated w1] Hw1; simpl in Hw1.
  apply post_bind.
  apply post_mono with (P := fun w' : World =>
                               bearings (stoatArray w') = bearings (stoatArray w)).
  { post_step; [|post_step; exact Hw1].
    apply post_bind, post_any. intros pia. post_step. exact Hw1. }
  intros w2 Hw2.
  apply post_bind.
  apply post_mono with (P := fun r : bool * World =>
                               bearings (stoatArray (snd r)) = bearings (stoatArray w)).
  { post_step; [|post_step; exact Hw2].
    post_step; [|post_step; exact Hw2].
    post_step. post_step. post_step; [|post_step; exact Hw2].
    apply post_bind, post_any. intros dbg. post_step. exact Hw2. }
  intros [killed w3] Hw3; simpl in Hw3.
  apply post_bind, post_any. intros killed'.
  post_step.
  - post_call killStoat_bearings. intros w4 Hw4. post_step. simpl. congruence.
  - post_step; [post_step; exact Hw3|].
    exfalso. apply Hp. apply Z.eqb_eq. apply negb_false_iff. assumption.
Qed.

(** ** Dispersal does not read a juvenile's bearing *)

Lemma getStoat_insert_ne (arr : list Stoat.t) (i j : nat) t d :
  j <> i -> getStoat (<[i := t]> arr) j d = getStoat arr j d.
Proof.
  intros Hne. unfold getStoat. rewrite list_lookup_insert_ne by congruence. reflexivity.
Qed.

Lemma setStoat_insert_ne (arr : list Stoat.t) (i j : nat) t f d :
  j <> i -> setStoat (<[i := t]> arr) j f d = omap (<[i := t]>) (setStoat arr j f d).
Proof.
  intros Hne. unfold setStoat. rewrite list_lookup_insert_ne by congruence.
  destruct (arr !! j); simpl; [|reflexivity].
  unfold ret. rewrite list_insert_insert_ne by congruence. reflexivity.
Qed.

Lemma disperseOne_commute num isl (arr : list Stoat.t) (i j : nat) t d :
  j <> i ->
  disperseOne num isl j (<[i := t]> arr) d =
  omap (<[i := t]>) (disperseOne num isl j arr d).
Proof.
  intros Hne. unfold disperseOne, bind.
  rewrite getStoat_insert_ne by exact Hne.
  destruct (getStoat arr j d) as [sj d1| | |]; simpl; try reflexivity.
  destruct (negb (Stoat.deleted sj) && _).
  - destruct (createRandomLocationOnIsland isl d1) as [[x y] d2| | |]; simpl; try reflexivity.
    rewrite setStoat_insert_ne by exact Hne.
    destruct (setStoat arr j _ d2) as [a3 d3| | |]; simpl; try reflexivity.
    destruct (uniform (- np_pi num) (np_pi num) d3) as [b d4| | |]; simpl; try reflexivity.
    rewrite setStoat_insert_ne by exact Hne.
    destruct (setStoat a3 j _ d4) as [a5 d5| | |]; simpl; try reflexivity.
    apply setStoat_insert_ne; exact Hne.
  - unfold ret. apply setStoat_insert_ne; exact Hne.
Qed.

Lemma disperseOne_other num isl (arr : list Stoat.t) (i j : nat) d arr' d' :
  j <> i -> disperseOne num isl j arr d = Ok arr' d' -> arr' !! i = arr !! i.
Proof.
  intros Hne E. revert d arr' d' E.
  change (post (disperseOne num isl j arr) (fun arr' => arr' !! i = arr !! i)).
  unfold disperseOne. post_step. post_step. post_step. post_step.
  - apply post_bind, post_any. intros [x y].
    repeat post_step. rewrite !list_lookup_insert_ne by congruence. reflexivity.
  - repeat post_step. rewrite !list_lookup_insert_ne by congruence. reflexivity.
Qed.

Lemma getStoat_Some (arr : list Stoat.t) (i : nat) s d :
  arr !! i = Some s -> getStoat arr i d = Ok s d.
Proof. intros E. unfold getStoat. rewrite E. reflexivity. Qed.

Lemma setStoat_Some (arr : list Stoat.t) (i : nat) s f d :
  arr !! i = Some s -> setStoat arr i f d = Ok (<[i := f s]> arr) d.
Proof. intros E. unfold setStoat. rewrite E. reflexivity. Qed.

Ltac known_slot E Hlt :=
  first [ exact E
        | apply list_lookup_insert_eq; rewrite ?length_insert; exact Hlt ].

Lemma disperseOne_overwrite num isl (arr : list Stoat.t) (i : nat) s b d :
  arr !! i = Some s -> liveJuvenile s ->
  disperseOne num isl i (<[i := Stoat.set_bearingT_1 b s]> arr) d =
  disperseOne num isl i arr d.
Proof.
  intros E [Hd Hp].
  assert (i < length arr)%nat as Hlt by (eapply lookup_lt_Some; exact E).
  unfold disperseOne, bind.
  erewrite !getStoat_Some by known_slot E Hlt. simpl.
  rewrite Hd. simpl.
  destruct (Z.eqb_spec (Stoat.parentid s) (-1)) as [X|_]; [contradiction|]. simpl.
  destruct (createRandomLocationOnIsland isl d) as [[x y] d2| | |]; simpl; try reflexivity.
  erewrite !setStoat_Some by known_slot E Hlt.
  destruct (uniform (- np_pi num) (np_pi num) d2) as [v d4| | |]; simpl; try reflexivity.
  erewrite !setStoat_Some by known_slot E Hlt.
  erewrite ?setStoat_Some by known_slot E Hlt.
  rewrite !list_insert_insert_eq. reflexivity.
Qed.

Lemma disperse_loop_overwrite num isl (i : nat) b idxs :
  NoDup idxs -> i ∈ idxs ->
  forall (arr : list Stoat.t) s d,
  arr !! i = Some s -> liveJuvenile s ->
  forEach idxs (fun j a => let* a := disperseOne num isl j a in ret (Next a))
          (<[i := Stoat.set_bearingT_1 b s]> arr) d =
  forEach idxs (fun j a => let* a := disperseOne num isl j a in ret (Next a)) arr d.
Proof.
  induction idxs as [|j rest IH]; intros Hnd Hin arr s d E Hs.
  { apply elem_of_nil in Hin. destruct Hin. }
  apply NoDup_cons in Hnd. destruct Hnd as [Hj Hnd].
  simpl. unfold bind at 1 2 4 5.
  destruct (Nat.eq_dec j i) as [->|Hne].
  - rewrite disperseOne_overwrite by assumption. reflexivity.
  - rewrite disperseOne_commute by exact Hne.
    apply elem_of_cons in Hin. destruct Hin as [X|Hin]; [congruence|].
    destruct (disperseOne num isl j arr d) as [a1 d1| | |] eqn:E1; simpl; try reflexivity.
    unfold ret at 1 2. apply IH; [exact Hnd|exact Hin| |exact Hs].
    rewrite (disperseOne_other _ _ _ _ _ _ _ _ Hne E1). exact E.
Qed.

Lemma disperse_overwrites_bearing num isl n (arr : list Stoat.t) (i : nat) s b d :
  (i < n)%nat -> arr !! i = Some s -> liveJuvenile s ->
  disperse num isl n (<[i := Stoat.set_bearingT_1 b s]> arr) d = disperse num isl n arr d.
Proof.
  intros Hi E Hs. unfold disperse, forRange.
  apply disperse_loop_overwrite; try assumption.
  - apply NoDup_seq.
  - apply elem_of_seq. lia.
Qed.

(** C10 (amended). doBirth writes every field of the slot it fills
    except [bearingT_1]: the bearing column is the same before and
    after a birth, so a newborn's slot still holds the previous
    occupant's bearing. While the newborn has not dispersed, processing
    it writes no bearing (it does not move). The dispersal that
    promotes it overwrites the bearing with a fresh uniform draw: the
    outcome of dispersal is the same whatever bearing the slot of a
    live juvenile held. The inherited value is therefore not the
    starting bearing of the newborn's later movement. *)
Theorem newborn_bearing (num : Numerics) :
  (forall x y male cid pid s,
     Stoat.set_parentid pid (writeKit x y male cid s) =
     Stoat.mk false male false x y x y cid (-1) pid (Stoat.bearingT_1 s) false) /\
  (forall arr n stoat mean cid,
     post (doBirth num arr n stoat mean cid)
          (fun r => bearings (fst (fst r)) = bearings arr)) /\
  (forall p day hour e dsp stoat w b s,
     stoatArray w !! stoat = Some s -> Stoat.parentid s <> -1 ->
     post (stoatHour num p day hour e dsp stoat (w, b))
          (fun r => bearings (stoatArray (fst r)) = bearings (stoatArray w))) /\
  (forall isl n (arr : list Stoat.t) (i : nat) s b d,
     (i < n)%nat -> arr !! i = Some s -> liveJuvenile s ->
     disperse num isl n (<[i := Stoat.set_bearingT_1 b s]> arr) d =
     disperse num isl n arr d).
Proof.
  split; [reflexivity|].
  split; [intros; apply doBirth_bearings|].
  split; [intros; eapply stoatHour_juvenile_bearings; eassumption|].
  intros. apply disperse_overwrites_bearing; assumption.
Qed.

(** ** The ledger invariant *)

Lemma keyRel_step a b (i : nat) s t :
  keyRel a b -> b !! i = Some s -> sameKey s t -> keyRel a (<[i := t]> b).
Proof. intros H E Hk. eapply keyRel_trans; [exact H|]. eapply keyRel_insert; eassumption. Qed.

Lemma keyRel_liveAt_l a b i s :
  keyRel a b -> liveAt a i s -> exists t, liveAt b i t /\ sameKey s t.
Proof.
  intros H [E Hd]. destruct (Forall2_lookup_l _ _ _ _ _ H E) as (t & Et & Hk).
  exists t. split; [|exact Hk]. split; [exact Et|]. destruct Hk as (-> & _). exact Hd.
Qed.

Lemma keyRel_liveAt_r a b i t :
  keyRel a b -> liveAt b i t -> exists s, liveAt a i s /\ sameKey s t.
Proof.
  intros H [E Hd]. destruct (Forall2_lookup_r _ _ _ _ _ H E) as (s & Es & Hk).
  exists s. split; [|exact Hk]. split; [exact Es|]. destruct Hk as (X & _). congruence.
Qed.

Lemma keyRel_adult a b isMale id :
  keyRel a b -> adultWithId a isMale id -> adultWithId b isMale id.
Proof.
  intros H (i & s & Hl & Hm & Hp & Hi).
  destruct (keyRel_liveAt_l _ _ _ _ H Hl) as (t & Ht & (_ & k2 & k3 & k4)).
  exists i, t. repeat split; try apply Ht; try congruence. auto.
Qed.

Lemma Inv_keyRel arr arr' n cid M :
  Inv arr n cid M -> keyRel arr arr' -> Inv arr' n cid M.
Proof.
  intros [I0 I1 I2 I3 I4 I5] H. constructor.
  - exact I0.
  - intros i j ti tj Hi Hj E.
    destruct (keyRel_liveAt_r _ _ _ _ H Hi) as (si & Hsi & (_ & _ & ki & _)).
    destruct (keyRel_liveAt_r _ _ _ _ H Hj) as (sj & Hsj & (_ & _ & kj & _)).
    apply (I1 i j si sj Hsi Hsj). congruence.
  - intros i t Hi.
    destruct (keyRel_liveAt_r _ _ _ _ H Hi) as (si & Hsi & (_ & _ & ki & _)).
    rewrite ki. exact (I2 i si Hsi).
  - intros k m Em Ha. destruct (I3 k m Em Ha) as [Hm Hf].
    split; eapply keyRel_adult; eassumption.
  - exact I4.
  - intros i t Et Hn.
    destruct (Forall2_lookup_r _ _ _ _ _ H Et) as (s & Es & (kd & _)).
    rewrite kd. exact (I5 i s Es Hn).
Qed.

(** The invariant gives the uniqueness property of the ledger. *)
Lemma Inv_matingUnique arr n cid M : Inv arr n cid M -> matingUnique M.
Proof.
  intros [I0 I1 I2 I3 I4 I5].
  assert (forall k1 k2 m1 m2, M !! k1 = Some m1 -> M !! k2 = Some m2 ->
            Mating.maleid m1 <> -1 -> Mating.maleid m2 <> -1 ->
            Mating.maleid m1 = Mating.femaleid m2 -> False) as Hsex.
  { intros k1 k2 m1 m2 E1 E2 A1 A2 Heq.
    destruct (I3 k1 m1 E1 A1) as [(i & s & Hl & Hm & _ & Hi) _].
    destruct (I3 k2 m2 E2 A2) as [_ (j & t & Hl' & Hm' & _ & Hi')].
    assert (i = j) as -> by (apply (I1 i j s t Hl Hl'); congruence).
    destruct Hl as [E _], Hl' as [E' _]. rewrite E in E'. inversion E'; subst.
    congruence. }
  split.
  - intros k1 k2 m1 m2 E1 E2 A1 A2 Hne [[Hm Hf]|[Hm Hf]].
    + apply Hne. exact (I4 k1 k2 m1 m2 E1 E2 A1 A2 Hm Hf).
    + exact (Hsex k1 k2 m1 m2 E1 E2 A1 A2 Hm).
  - intros k m E A Heq. exact (Hsex k k m m E E A A Heq).
Qed.

Lemma alreadyMatedWith_false M a b k m :
  alreadyMatedWith M a b = false -> M !! k = Some m ->
  Mating.maleid m = a -> Mating.femaleid m = b -> False.
Proof.
  intros H E Ha Hb. unfold alreadyMatedWith in H.
  assert (existsb (fun m => (Mating.maleid m =? a) && (Mating.femaleid m =? b)) M = true) as X.
  { apply existsb_exists. exists m. split.
    - apply list_elem_of_In. eapply list_elem_of_lookup_2. exact E.
    - rewrite Ha, Hb, !Z.eqb_refl. reflexivity. }
  congruence.
Qed.

Lemma Inv_addMating arr n cid M sid fid hab M' :
  Inv arr n cid M ->
  adultWithId arr true sid -> adultWithId arr false fid ->
  alreadyMatedWith M sid fid = false ->
  addMating M sid fid hab = Some M' ->
  Inv arr n cid M'.
Proof.
  intros [I0 I1 I2 I3 I4 I5] Hm Hf Hnew Hadd.
  destruct (addMating_Some _ _ _ _ _ Hadd) as (k & m0 & Ek & Hfree & _ & ->).
  constructor; auto.
  - intros k1 m E A. apply list_lookup_insert_Some in E.
    destruct E as [(<- & <- & _)|(Hne & E)]; [simpl; auto|eauto].
  - intros k1 k2 m1 m2 E1 E2 A1 A2 Hma Hfe.
    apply list_lookup_insert_Some in E1. apply list_lookup_insert_Some in E2.
    destruct E1 as [(<- & <- & _)|(Hne1 & E1)], E2 as [(<- & <- & L2)|(Hne2 & E2)];
      simpl in *; auto.
    + exfalso. apply (alreadyMatedWith_false _ _ _ _ _ Hnew E2); congruence.
    + exfalso. apply (alreadyMatedWith_false _ _ _ _ _ Hnew E1); congruence.
    + eauto.
Qed.

(** A mating table whose active rows are active rows of [M] at the
    same indices. *)
Lemma Inv_shrink arr n cid M M' :
  Inv arr n cid M ->
  (forall k m', M' !! k = Some m' -> Mating.maleid m' <> -1 ->
     exists m, M !! k = Some m /\ Mating.maleid m = Mating.maleid m' /\
               Mating.femaleid m = Mating.femaleid m') ->
  Inv arr n cid M'.
Proof.
  intros [I0 I1 I2 I3 I4 I5] H. constructor; auto.
  - intros k m' E A. destruct (H k m' E A) as (m & Em & Hm & Hf).
    rewrite <- Hm, <- Hf. apply (I3 k m Em). congruence.
  - intros k1 k2 m1 m2 E1 E2 A1 A2 Hma Hfe.
    destruct (H k1 m1 E1 A1) as (a & Ea & Ha1 & Ha2).
    destruct (H k2 m2 E2 A2) as (b & Eb & Hb1 & Hb2).
    apply (I4 k1 k2 a b Ea Eb); congruence.
Qed.

Lemma Inv_decrement arr n cid M :
  Inv arr n cid M -> Inv arr n cid (map decrementMating M).
Proof.
  intros H. apply (Inv_shrink _ _ _ _ _ H).
  intros k m' E A. change (map decrementMating M) with (decrementMating <$> M) in E.
  rewrite list_lookup_fmap in E.
  destruct (M !! k) as [m|]; simpl in E; [|discriminate]. inversion E; subst. clear E.
  exists m. split; [reflexivity|].
  unfold decrementMating in *.
  destruct (negb (Mating.maleid m =? -1)); [|auto].
  simpl in *. destruct (Mating.ndays m - 1 =? 0); simpl in *; [congruence|auto].
Qed.

(** A newborn with the next id, written into a deleted slot. *)
Lemma Inv_fresh (arr : list Stoat.t) n n' cid M (k : nat) old t :
  Inv arr n cid M ->
  arr !! k = Some old -> Stoat.deleted old = true ->
  Stoat.id t = cid -> (n <= n')%nat -> (k < n')%nat ->
  Inv (<[k := t]> arr) n' (cid + 1) M.
Proof.
  intros [I0 I1 I2 I3 I4 I5] Ek Hold Hid Hn Hk.
  assert (forall j s, liveAt (<[k := t]> arr) j s -> j <> k -> liveAt arr j s) as Hother.
  { intros j s [E Hd] Hne. rewrite list_lookup_insert_ne in E by congruence. split; auto. }
  assert (forall s, liveAt (<[k := t]> arr) k s -> s = t) as Hk'.
  { intros s [E _]. rewrite list_lookup_insert_eq in E by (eapply lookup_lt_Some; eauto).
    congruence. }
  constructor.
  - lia.
  - intros i j si sj Hi Hj E.
    destruct (Nat.eq_dec i k) as [->|Hik], (Nat.eq_dec j k) as [->|Hjk]; auto.
    + apply Hk' in Hi. subst si. pose proof (I2 j sj (Hother _ _ Hj Hjk)). lia.
    + apply Hk' in Hj. subst sj. pose proof (I2 i si (Hother _ _ Hi Hik)). lia.
    + eapply I1; eauto.
  - intros i s Hi. destruct (Nat.eq_dec i k) as [->|Hik].
    + apply Hk' in Hi. subst s. lia.
    + pose proof (I2 i s (Hother _ _ Hi Hik)). lia.
  - intros k1 m E A. destruct (I3 k1 m E A) as [Hm Hf].
    assert (forall b id, adultWithId arr b id -> adultWithId (<[k := t]> arr) b id) as Hw.
    { intros b id (i & s & [Ei Hd] & R). exists i, s. split; [|exact R]. split; [|exact Hd].
      rewrite list_lookup_insert_ne; [exact Ei|]. intros ->. congruence. }
    split; apply Hw; assumption.
  - exact I4.
  - intros i s E Hi. rewrite list_lookup_insert_ne in E by lia. apply (I5 i s E). lia.
Qed.

Lemma purgeMating_active id m :
  Mating.maleid (purgeMating id m) <> -1 ->
  purgeMating id m = m /\ Mating.maleid m <> id /\ Mating.femaleid m <> id.
Proof.
  unfold purgeMating.
  destruct (Z.eqb_spec (Mating.maleid m) id), (Z.eqb_spec (Mating.femaleid m) id);
    simpl; intros H; try (exfalso; apply H; reflexivity). auto.
Qed.

Lemma Inv_kill arr arr' n cid M stoat s :
  Inv arr n cid M -> liveAt arr stoat s ->
  killRel (Stoat.id s) stoat arr arr' ->
  Inv arr' n cid (map (purgeMating (Stoat.id s)) M).
Proof.
  intros HI Hs [Hlen HR]. pose proof HI as [I0 I1 I2 I3 I4 I5].
  assert (forall j t, liveAt arr' j t -> liveAt arr j t) as Hback.
  { intros j t' [E Hd]. destruct (HR j t' E) as (t & Et & [->|[-> _]]).
    - split; assumption.
    - simpl in Hd. discriminate. }
  assert (forall k m', (purgeMating (Stoat.id s) <$> M) !! k = Some m' ->
            Mating.maleid m' <> -1 ->
            M !! k = Some m' /\ Mating.maleid m' <> Stoat.id s /\
            Mating.femaleid m' <> Stoat.id s) as Hp.
  { intros k m' E A. rewrite list_lookup_fmap in E.
    destruct (M !! k) as [m|]; simpl in E; [|discriminate]. inversion E; subst. clear E.
    destruct (purgeMating_active _ _ A) as (-> & ? & ?). auto. }
  assert (forall b id, id <> Stoat.id s -> adultWithId arr b id ->
            adultWithId arr' b id) as Hw.
  { intros b id Hne (i & t & [Ei Hd] & Hm & Hpar & Hid).
    destruct (lookup_lt_is_Some_2 arr' i) as [t' Et'].
    { rewrite Hlen. eapply lookup_lt_Some; eauto. }
    destruct (HR i t' Et') as (t0 & Et0 & Hc). rewrite Ei in Et0. inversion Et0; subst t0.
    destruct Hc as [->|[_ [->|Hpp]]].
    - exists i, t. repeat split; auto.
    - destruct Hs as [Es _]. rewrite Ei in Es. inversion Es; subst. contradiction.
    - pose proof (I2 stoat s Hs). lia. }
  constructor.
  - exact I0.
  - intros i j si sj Hi Hj. apply I1; auto.
  - intros i t Hi. apply (I2 i t). auto.
  - intros k m E A. destruct (Hp k m E A) as (Em & H1 & H2).
    destruct (I3 k m Em A) as [Hm Hf]. split; apply Hw; auto.
  - intros k1 k2 m1 m2 E1 E2 A1 A2.
    destruct (Hp k1 m1 E1 A1) as (Em1 & _). destruct (Hp k2 m2 E2 A2) as (Em2 & _).
    apply I4; auto.
  - intros i t' E Hi. destruct (HR i t' E) as (t & Et & [->|[-> _]]); [eauto|reflexivity].
Qed.

Ltac key_step :=
  eapply keyRel_step; [eassumption|eassumption|];
  repeat split; simpl; auto.

Lemma doMaleMating_inv num x y sid arr n cid enc M hab day pp :
  Inv arr n cid M -> adultWithId arr true sid ->
  post (doMaleMating num x y sid arr n enc M hab day pp)
       (fun r => Inv (snd (fst r)) n cid (snd r) /\ keyRel arr (snd (fst r))).
Proof.
  intros HI Hmale. unfold doMaleMating.
  apply post_forRange_break
    with (I := fun r : bool * list Stoat.t * list Mating.t =>
                 keyRel arr (snd (fst r)) /\ snd r = M).
  - intros i [[mated arr1] M1] _ [Hk HM]; simpl in Hk, HM; subst M1.
    post_step. post_step.
    post_step; [|post_step; simpl; auto].
    post_step; [post_step; simpl; auto|].
    post_step; [|post_step; simpl; auto].
    apply andb_prop in Heqb. destruct Heqb as [Hc Hpar].
    apply andb_prop in Hc. destruct Hc as [Hdel Hfem].
    apply negb_true_iff in Hdel, Hfem. apply Z.eqb_eq in Hpar.
    apply post_bind.
    apply post_mono with (P := fun a : list Stoat.t => keyRel arr1 a).
    { post_step; [|post_step; apply keyRel_refl].
      post_step. post_step. post_step; [|post_step; apply keyRel_refl].
      post_step. post_step.
      apply post_forRange with (I := fun a : list Stoat.t => keyRel arr1 a).
      - intros j a _ Ha. repeat post_step; simpl; try exact Ha. key_step.
      - eapply keyRel_insert; [eassumption|]. repeat split; simpl; auto. }
    intros arr2 H12. simpl.
    post_step. post_step.
    destruct (Forall2_lookup_l _ _ _ _ _ H12 Hlk) as (f & Ef & (k1 & k2 & k3 & k4)).
    assert (s0 = f) as -> by congruence.
    destruct (addMating M sid (Stoat.id f) hab) as [M'|] eqn:Eadd; [|post_step].
    post_step. simpl.
    assert (keyRel arr arr2) as Hk2 by (eapply keyRel_trans; eassumption).
    split; [|exact Hk2].
    eapply Inv_addMating; [eapply Inv_keyRel; eassumption| | | |exact Eadd].
    + eapply keyRel_adult; eassumption.
    + exists i, f. repeat split; auto; congruence.
    + rewrite k3. assumption.
  - intros [[mated arr1] M1] [Hk HM]. simpl in *. subst M1. split; [|exact Hk].
    eapply Inv_keyRel; eassumption.
  - split; [apply keyRel_refl|reflexivity].
Qed.

Lemma placeKit_inv arr n n' cid M (k : nat) stoat x y :
  Inv arr n cid M ->
  (forall old, arr !! k = Some old -> Stoat.deleted old = true) ->
  (n <= n')%nat -> (k < n')%nat ->
  post (placeKit arr k stoat x y cid)
       (fun arr' => Inv arr' n' (cid + 1) M /\
                    forall j, j <> k -> arr' !! j = arr !! j).
Proof.
  intros HI Hold Hn Hk. unfold placeKit.
  post_step. post_step. post_step. post_step. post_step. post_step. post_step.
  rewrite list_lookup_insert_eq in Hlk1 by (eapply lookup_lt_Some; eassumption).
  inversion Hlk1; subst. rewrite list_insert_insert_eq. split.
  - eapply Inv_fresh; eauto.
  - intros j Hj. apply list_lookup_insert_ne. congruence.
Qed.

Lemma doBirth_append_inv nKits stoat x y M :
  forall st, Inv (fst (fst st)) (snd (fst st)) (snd st) M ->
  post (doBirth_append nKits stoat x y st)
       (fun r => Inv (fst (fst r)) (snd (fst r)) (snd r) M /\
                 forall j, (j < snd (fst st))%nat -> fst (fst r) !! j = fst (fst st) !! j).
Proof.
  induction nKits as [|k IH]; intros [[arr n] cid] H; simpl in *.
  - apply post_ret. auto.
  - apply post_bind. eapply post_mono.
    + apply (placeKit_inv arr n (S n) cid M n); [exact H| |lia|lia].
      intros old E. eapply inv_unused; [exact H|exact E|lia].
    + intros arr1 [H1 Hsame]. simpl. post_step; [post_step|].
      eapply post_mono; [apply IH; exact H1|].
      intros [[arr2 n2] cid2] [H2 Hsame2]. simpl in *. split; [exact H2|].
      intros j Hj. rewrite Hsame2 by lia. apply Hsame. lia.
Qed.

Lemma doBirth_inv num arr n stoat mean cid M m :
  Inv arr n cid M -> liveAt arr stoat m -> (stoat < n)%nat ->
  post (doBirth num arr n stoat mean cid)
       (fun r => Inv (fst (fst r)) (snd (fst r)) (snd r) M /\
                 exists m', liveAt (fst (fst r)) stoat m').
Proof.
  intros HI Hm Hlt. unfold doBirth. do 4 post_step.
  apply post_bind. eapply post_mono.
  - apply post_forRange
      with (I := fun r : list Stoat.t * nat * Z =>
                   Inv (fst (fst r)) n (snd r) M /\ liveAt (fst (fst r)) stoat m).
    + intros i [[arr1 k] c] Hin [H1 Hm1]; simpl in H1, Hm1.
      destruct k as [|k]; [post_step; simpl; auto|].
      post_step. post_step. post_step; [|post_step; simpl; auto].
      post_step. eapply post_mono.
      * apply (placeKit_inv arr1 n n c M i); [exact H1| |lia|exact Hin].
        intros old E. congruence.
      * intros arr2 [H2 Hsame]. post_step. simpl. split; [exact H2|].
        destruct Hm1 as [Em Hd]. split; [|exact Hd]. rewrite Hsame; [exact Em|].
        intros ->. congruence.
    + simpl. auto.
  - intros [[arr1 k] c] [H1 Hm1]; simpl in H1, Hm1.
    apply post_bind. eapply post_mono.
    + apply doBirth_append_inv. simpl. exact H1.
    + intros [[arr2 n2] c2] [H2 Hsame]; simpl in H2, Hsame.
      post_step. post_step. post_step. simpl.
      assert (arr2 !! stoat = Some m) as E2.
      { rewrite Hsame by exact Hlt. apply Hm1. }
      assert (s0 = m) as -> by congruence.
      split.
      * eapply Inv_keyRel; [exact H2|]. eapply keyRel_insert; [exact E2|].
        repeat split; simpl; auto.
      * eexists. split.
        -- apply list_lookup_insert_eq. eapply lookup_lt_Some; exact E2.
        -- simpl. apply Hm1.
Qed.

Lemma killRel_init (arr : list Stoat.t) (stoat : nat) s idS :
  arr !! stoat = Some s ->
  killRel idS stoat arr (<[stoat := Stoat.set_deleted true s]> arr).
Proof.
  intros E. split; [apply length_insert|].
  intros j t' Ej. apply list_lookup_insert_Some in Ej.
  destruct Ej as [(<- & <- & _)|(Hne & Ej)]; eauto 6.
Qed.

Lemma killRel_step (arr a : list Stoat.t) (stoat i : nat) si idS :
  killRel idS stoat arr a -> a !! i = Some si -> Stoat.parentid si = idS ->
  killRel idS stoat arr (<[i := Stoat.set_deleted true si]> a).
Proof.
  intros [Hlen HR] E Hp. split; [rewrite length_insert; exact Hlen|].
  intros j t' Ej. apply list_lookup_insert_Some in Ej.
  destruct Ej as [(<- & <- & _)|(Hne & Ej)]; [|eauto].
  destruct (HR i si E) as (t & Et & [->|[-> Hc]]).
  - exists t. split; [exact Et|]. right. split; [reflexivity|]. right. exact Hp.
  - exists t. split; [exact Et|]. right. split; [reflexivity|exact Hc].
Qed.

Lemma killStoat_inv stoat w s :
  WorldInv w -> liveAt (stoatArray w) stoat s ->
  post (killStoat stoat w) WorldInv.
Proof.
  intros HI Hs. unfold killStoat. post_step. post_step.
  assert (s0 = s) as -> by (destruct Hs; congruence).
  apply post_bind. eapply post_mono.
  - apply post_forRange
      with (I := fun a : list Stoat.t =>
                   killRel (Stoat.id s) stoat (stoatArray w) a /\
                   exists sd, a !! stoat = Some sd /\ Stoat.id sd = Stoat.id s).
    + intros i a _ [HR (sd & Esd & Hid)].
      post_step. post_step. post_step. post_step.
      assert (s1 = sd) as -> by congruence.
      post_step; [|post_step; simpl; eauto].
      post_step. post_step. post_step. simpl. split.
      * apply killRel_step; auto. apply Z.eqb_eq in Heqb. congruence.
      * destruct (Nat.eq_dec i stoat) as [->|Hne].
        -- eexists. split; [apply list_lookup_insert_eq; eapply lookup_lt_Some; eauto|].
           simpl. congruence.
        -- exists sd. split; [|exact Hid]. rewrite list_lookup_insert_ne by congruence.
           exact Esd.
    + split; [apply killRel_init; apply Hs|].
      eexists. split; [apply list_lookup_insert_eq; eapply lookup_lt_Some; apply Hs|].
      reflexivity.
  - intros a [HR (sd & Esd & Hid)]. post_step. post_step. post_step.
    assert (s0 = sd) as -> by congruence.
    unfold WorldInv. simpl. rewrite Hid.
    eapply Inv_kill; eassumption.
Qed.

Lemma move_loop_keyRel num fuel p stoat x y cx cy mr hb arr0 :
  forall arr, keyRel arr0 arr ->
  post (move_loop num fuel p stoat x y cx cy mr hb arr) (keyRel arr0).
Proof.
  induction fuel as [|fuel IH]; intros arr H; simpl.
  - intros d a d' E. discriminate.
  - post_step. post_step.
    apply post_bind, post_any. intros [stepLength bearing].
    apply post_bind, post_any. intros bearing'.
    post_step. post_step.
    assert (keyRel arr0 (<[stoat := Stoat.set_bearingT_1 bearing' s]> arr)) as Hb
      by key_step.
    post_step. post_step.
    apply post_bind, post_any. intros ok. destruct ok.
    + post_step. key_step.
    + apply IH. exact Hb.
Qed.

Lemma moveStoat_keyRel num p stoat x y cx cy mr hb arr :
  post (moveStoat num p stoat x y cx cy mr hb arr) (keyRel arr).
Proof.
  intros d a d' E. unfold moveStoat in E.
  exact (move_loop_keyRel num _ p stoat x y cx cy mr hb arr arr (keyRel_refl arr) d a d' E).
Qed.

Lemma disperseOne_keyRel num isl i arr0 arr :
  keyRel arr0 arr -> post (disperseOne num isl i arr) (keyRel arr0).
Proof.
  intros H. unfold disperseOne. post_step. post_step. post_step. post_step.
  - apply post_bind, post_any. intros [x y].
    post_step. post_step.
    assert (keyRel arr0 (<[i := Stoat.set_home_y y (Stoat.set_home_x x
                        (Stoat.set_y y (Stoat.set_x x s0)))]> arr)) as H3 by key_step.
    post_step. post_step. post_step.
    assert (keyRel arr0 (<[i := Stoat.set_bearingT_1 v s1]> (<[i :=
              Stoat.set_home_y y (Stoat.set_home_x x
                 (Stoat.set_y y (Stoat.set_x x s0)))]> arr))) as Hb by key_step.
    post_step. key_step.
  - post_step. post_step. key_step.
Qed.

Lemma disperse_keyRel num isl n arr :
  post (disperse num isl n arr) (keyRel arr).
Proof.
  unfold disperse.
  apply post_forRange with (I := keyRel arr); [|apply keyRel_refl].
  intros i arr1 _ H. post_call disperseOne_keyRel; [exact H|].
  intros arr2 H2. post_step. exact H2.
Qed.

Lemma Inv_live_lt arr n cid M i s : Inv arr n cid M -> liveAt arr i s -> (i < n)%nat.
Proof.
  intros H [E Hd]. destruct (Nat.lt_ge_cases i n) as [L|G]; [exact L|].
  pose proof (inv_unused _ _ _ _ H i s E G). congruence.
Qed.

Lemma stoatHour_inv num p day hour e dsp stoat w b :
  WorldInv w ->
  post (stoatHour num p day hour e dsp stoat (w, b)) (fun r => WorldInv (fst r)).
Proof.
  intros HI. unfold stoatHour. post_step. post_step.
  post_step; [post_step; exact HI|].
  apply post_bind, post_any. intros hb.
  post_step. post_step.
  assert (s0 = s) as -> by congruence.
  assert (keyRel (stoatArray w) (<[stoat := Stoat.set_homerange hb s]> (stoatArray w))) as Hk1.
  { eapply keyRel_insert; [eassumption|]. repeat split; simpl; auto. }
  assert (liveAt (<[stoat := Stoat.set_homerange hb s]> (stoatArray w)) stoat
            (Stoat.set_homerange hb s)) as Hl1.
  { split; [apply list_lookup_insert_eq; eapply lookup_lt_Some; eassumption|assumption]. }
  pose proof (Inv_keyRel _ _ _ _ _ HI Hk1) as HI1.
  apply post_bind.
  apply post_mono with (P := fun r : bool * World =>
           WorldInv (snd r) /\ exists s1, liveAt (stoatArray (snd r)) stoat s1).
  { post_step.
    - post_step; [|post_step; split; [exact HI1|eauto]].
      match goal with
      | Hc : _ && (Stoat.parentid s =? -1) = true |- _ =>
          apply andb_prop in Hc; destruct Hc as [_ Hpar]; apply Z.eqb_eq in Hpar
      end.
      apply post_bind. eapply post_mono.
      + apply doMaleMating_inv; [exact HI1|].
        exists stoat, (Stoat.set_homerange hb s). repeat split; simpl; auto.
        apply Hl1.
      + intros [[mated arr2] M2] [Ha Hk]. simpl in Ha, Hk. post_step. simpl.
        split; [exact Ha|].
        destruct (keyRel_liveAt_l _ _ _ _ Hk Hl1) as (t & Ht & _). eauto.
    - post_step; [|post_step; split; [exact HI1|eauto]].
      apply post_bind. eapply post_mono.
      + eapply doBirth_inv; [exact HI1|exact Hl1|].
        eapply Inv_live_lt; [exact HI1|exact Hl1].
      + intros [[arr2 n2] c2] [Ha Hm]. simpl in Ha, Hm. post_step. simpl. auto. }
  intros [mated w1] [Hw1 Hl]; simpl in Hw1, Hl.
  apply post_bind.
  apply post_mono with (P := fun w' : World =>
           WorldInv w' /\ exists s1, liveAt (stoatArray w') stoat s1).
  { post_step; [|post_step; auto].
    apply post_bind, post_any. intros pia. post_step. auto. }
  intros w2 [Hw2 Hl2].
  apply post_bind.
  apply post_mono with (P := fun r : bool * World =>
           WorldInv (snd r) /\ exists s1, liveAt (stoatArray (snd r)) stoat s1).
  { post_step; [|post_step; auto].
    post_step; [|post_step; auto].
    post_step. post_step. post_step; [|post_step; auto].
    apply post_bind, post_any. intros dbg. post_step. auto. }
  intros [killed w3] [Hw3 (s3 & Hl3)]; simpl in Hw3, Hl3.
  apply post_bind, post_any. intros killed'.
  post_step.
  - apply post_bind. eapply post_mono; [eapply killStoat_inv; [exact Hw3|exact Hl3]|].
    intros w4 Hw4. post_step. exact Hw4.
  - post_step; [post_step; exact Hw3|].
    apply post_bind, post_any. intros mateResult.
    assert (forall cx cy,
      post (let* arr := moveStoat num p stoat (Stoat.x s) (Stoat.y s) cx cy mateResult hb
                          (stoatArray w3) in
            ret (withStoats w3 arr, false)) (fun r => WorldInv (fst r))) as Hmove.
    { intros cx cy. post_call moveStoat_keyRel. intros arr4 Hk4. post_step.
      unfold WorldInv, withStoats. simpl. eapply Inv_keyRel; [exact Hw3|exact Hk4]. }
    destruct mateResult as [[[cx cy] k]|]; apply Hmove.
Qed.

Lemma hourBody_inv num p day hour rs :
  WorldInv (world rs) ->
  post (hourBody num p day hour rs) (fun c => WorldInv (world (ctl_state c))).
Proof.
  intros H. unfold hourBody.
  apply post_bind.
  apply post_mono with (P := fun r : World * bool => WorldInv (fst r)).
  - apply post_forRange with (I := fun r : World * bool => WorldInv (fst r)); [|exact H].
    intros i [w b] _ Hw. simpl in Hw.
    post_call stoatHour_inv; [exact Hw|]. intros r Hr. post_step. exact Hr.
  - intros [w erad] Hw; simpl in Hw.
    apply post_bind, post_any. intros dbg.
    destruct erad; post_step; exact Hw.
Qed.

Lemma endOfDay_inv rs : WorldInv (world rs) -> WorldInv (world (endOfDay rs)).
Proof. intros H. unfold WorldInv, endOfDay. simpl. apply Inv_decrement. exact H. Qed.

Lemma dayBody_inv num p day rs :
  WorldInv (world rs) ->
  post (dayBody num p day rs) (fun c => WorldInv (world (ctl_state c))).
Proof.
  intros H. unfold dayBody. post_step; [post_step; exact H|].
  apply post_bind.
  apply post_mono with (P := keyRel (stoatArray (world rs))).
  { post_step; [apply disperse_keyRel|post_step; apply keyRel_refl]. }
  intros arr Harr.
  apply post_bind. eapply post_mono.
  - apply post_forRange with (I := fun rs : RunState => WorldInv (world rs)).
    + intros hour rs1 _ H1. apply hourBody_inv. exact H1.
    + unfold WorldInv, withStoats. simpl. eapply Inv_keyRel; [exact H|exact Harr].
  - intros rs1 H1. simpl in H1. post_step; post_step; simpl; [exact H1|].
    apply endOfDay_inv. exact H1.
Qed.

Lemma runRealisation_inv num p w :
  WorldInv w -> post (runRealisation num p w) (fun r => WorldInv (snd r)).
Proof.
  intros H. unfold runRealisation.
  apply post_bind. eapply post_mono.
  - apply post_forRange with (I := fun rs : RunState => WorldInv (world rs)); [|exact H].
    intros day rs _ H1. apply dayBody_inv. exact H1.
  - intros rs H1. simpl in H1. post_step; [post_step; exact H1|post_step].
Qed.

(** A loop without [break] whose invariant follows the index. *)
Lemma post_forEach_idx {St} (I : nat -> St -> Prop) (body : nat -> St -> M (Ctl St)) m :
  forall k,
  (forall i s, (k <= i < k + m)%nat -> I i s ->
     post (body i s) (fun c => match c with Next s' => I (S i) s' | Break _ => False end)) ->
  forall s, I k s -> post (forEach (seq k m) body s) (I (k + m)%nat).
Proof.
  induction m as [|m IH]; intros k Hb s Hs; simpl.
  - apply post_ret. rewrite Nat.add_0_r. exact Hs.
  - apply post_bind. eapply post_mono; [apply Hb; [lia|exact Hs]|].
    intros [s'|s'] Hc; [|destruct Hc].
    replace (k + S m)%nat with (S k + m)%nat by lia.
    apply IH; [|exact Hc]. intros i s0 Hi. apply Hb. lia.
Qed.

Lemma post_forRange_idx {St} (I : nat -> St -> Prop) n (body : nat -> St -> M (Ctl St)) :
  (forall i s, (i < n)%nat -> I i s ->
     post (body i s) (fun c => match c with Next s' => I (S i) s' | Break _ => False end)) ->
  forall s, I 0%nat s -> post (forRange n body s) (I n).
Proof.
  intros Hb s Hs. unfold forRange.
  apply (post_forEach_idx I body n 0%nat); [|exact Hs].
  intros i s0 Hi. apply Hb. lia.
Qed.

Lemma Inv_blank arr M :
  Forall (fun s => Stoat.deleted s = true) arr ->
  Forall (fun m => Mating.maleid m = -1) M ->
  Inv arr 0 0 M.
Proof.
  intros Ha HM.
  assert (forall i s, liveAt arr i s -> False) as Hno.
  { intros i s [E Hd]. pose proof (proj1 (Forall_lookup _ _) Ha i s E). simpl in *. congruence. }
  assert (forall k m, M !! k = Some m -> Mating.maleid m <> -1 -> False) as HnoM.
  { intros k m E A. apply A. exact (proj1 (Forall_lookup _ _) HM k m E). }
  constructor.
  - lia.
  - intros i j si sj Hi. destruct (Hno _ _ Hi).
  - intros i s Hi. destruct (Hno _ _ Hi).
  - intros k m E A. destruct (HnoM _ _ E A).
  - intros k1 k2 m1 m2 E1 _ A1. destruct (HnoM _ _ E1 A1).
  - intros i s E _. exact (proj1 (Forall_lookup _ _) Ha i s E).
Qed.

Lemma createInitialStoats_inv isl arr nAdd nd M :
  Forall (fun s => Stoat.deleted s = true) arr ->
  Forall (fun m => Mating.maleid m = -1) M ->
  post (createInitialStoats arr nAdd isl nd)
       (fun r => Inv (fst (fst r)) (snd (fst r)) (snd r) M /\ snd (fst r) = nAdd).
Proof.
  intros Ha HM. unfold createInitialStoats.
  apply post_bind. eapply post_mono.
  - apply post_forRange_idx
      with (I := fun (i : nat) (r : list Stoat.t * Z * option nat) =>
                   snd (fst r) = Z.of_nat i /\ Inv (fst (fst r)) i (snd (fst r)) M /\
                   snd r = (if Nat.eqb i 0 then None else Some i)).
    + intros i [[arr1 cid] last] _ (Hc & H & _); simpl in Hc, H. subst cid.
      apply post_bind, post_any. intros [x y].
      do 10 post_step.
      * post_step. post_step. post_step. cbv zeta. post_step. post_step. post_step.
        simpl. split; [lia|]. split; [|f_equal; lia].
        repeat match goal with
        | Hb : <[i := ?t]> ?a !! i = Some ?u |- _ =>
            rewrite list_lookup_insert_eq in Hb
              by (rewrite ?length_insert; eapply lookup_lt_Some; eassumption);
            inversion Hb; subst u; clear Hb
        end.
        rewrite !list_insert_insert_eq.
        replace (Z.of_nat (S i)) with (Z.of_nat i + 1) by lia.
        eapply Inv_fresh; [exact H|eassumption| |reflexivity|lia|lia].
        eapply inv_unused; [exact H|eassumption|lia].
      * post_step. post_step. post_step. cbv zeta. post_step. post_step. post_step.
        simpl. split; [lia|]. split; [|f_equal; lia].
        repeat match goal with
        | Hb : <[i := ?t]> ?a !! i = Some ?u |- _ =>
            rewrite list_lookup_insert_eq in Hb
              by (rewrite ?length_insert; eapply lookup_lt_Some; eassumption);
            inversion Hb; subst u; clear Hb
        end.
        rewrite !list_insert_insert_eq.
        replace (Z.of_nat (S i)) with (Z.of_nat i + 1) by lia.
        eapply Inv_fresh; [exact H|eassumption| |reflexivity|lia|lia].
        eapply inv_unused; [exact H|eassumption|lia].
    + simpl. split; [reflexivity|]. split; [apply Inv_blank; assumption|reflexivity].
  - intros [[arr1 cid] last] (Hc & H & Hl); simpl in Hc, H, Hl.
    destruct last as [k|]; [|post_step].
    post_step. simpl. subst cid.
    destruct nAdd as [|k']; simpl in Hl; [discriminate|].
    inversion Hl; subst. auto.
Qed.

(** C5. Mating-ledger uniqueness in every reachable state. The ledger
    invariant [WorldInv] implies that no two active mating rows name
    the same unordered pair and that no active row has [maleid] equal to
    [femaleid]. The invariant holds after seeding into freshly allocated
    tables, and every step of the engine keeps it: dispersal, the
    processing of any agent in any hour, a whole hour, the end-of-day
    countdown, a whole day (also when it stops early) and the whole
    realisation. *)
Theorem mating_ledger_unique (num : Numerics) (p : Params) :
  (forall w, WorldInv w -> matingUnique (matingArray w)) /\
  (forall k km nAdd nd P dbg,
     post (createInitialStoats (emptyStoats k) nAdd (island p) nd)
          (fun r => WorldInv (Build_World (fst (fst r)) (snd (fst r)) (snd r)
                                (emptyMatings km) P dbg))) /\
  (forall w,
     WorldInv w ->
     (forall n, post (disperse num (island p) n (stoatArray w))
                     (fun arr => WorldInv (withStoats w arr))) /\
     (forall day hour e dsp stoat b,
        post (stoatHour num p day hour e dsp stoat (w, b)) (fun r => WorldInv (fst r))) /\
     (forall day hour rs, world rs = w ->
        post (hourBody num p day hour rs) (fun c => WorldInv (world (ctl_state c)))) /\
     (forall rs, world rs = w -> WorldInv (world (endOfDay rs))) /\
     (forall day rs, world rs = w ->
        post (dayBody num p day rs) (fun c => WorldInv (world (ctl_state c)))) /\
     post (runRealisation num p w) (fun r => WorldInv (snd r))).
Proof.
  split; [intros w H; eapply Inv_matingUnique; exact H|].
  split.
  - intros k km nAdd nd P dbg. eapply post_mono.
    + apply (createInitialStoats_inv (island p) (emptyStoats k) nAdd nd (emptyMatings km)).
      * unfold emptyStoats. induction k; simpl; constructor; auto.
      * unfold emptyMatings. induction km; simpl; constructor; auto.
    + intros [[arr n] cid] [H _]. exact H.
  - intros w H.
    split.
    { intros n. eapply post_mono; [apply disperse_keyRel|].
      intros arr Hk. unfold WorldInv, withStoats. simpl.
      eapply Inv_keyRel; [exact H|exact Hk]. }
    split; [intros; apply stoatHour_inv; exact H|].
    split; [intros day hour rs <-; apply hourBody_inv; exact H|].
    split; [intros rs <-; apply endOfDay_inv; exact H|].
    split; [intros day rs <-; apply dayBody_inv; exact H|].
    apply runRealisation_inv; exact H.
Qed.

(** ** Purging the ledgers on death *)

(** What the purge does achieve: after [killStoat], no active row of
    either ledger names the killed agent itself. *)
Lemma killStoat_purges_killed stoat w s :
  stoatArray w !! stoat = Some s ->
  post (killStoat stoat w)
       (fun w' =>
          (forall k m, matingArray w' !! k = Some m -> Mating.maleid m <> -1 ->
             Mating.maleid m <> Stoat.id s /\ Mating.femaleid m <> Stoat.id s) /\
          (forall k e, pheromoneInteractionArray w' !! k = Some e ->
             Interaction.stoatid e <> -1 -> Interaction.stoatid e <> Stoat.id s)).
Proof.
  intros Es. unfold killStoat. post_step. post_step.
  assert (s0 = s) as -> by congruence.
  apply post_bind. eapply post_mono.
  - apply post_forRange
      with (I := fun a : list Stoat.t =>
                   exists sd, a !! stoat = Some sd /\ Stoat.id sd = Stoat.id s).
    + intros i a _ (sd & Esd & Hid). repeat post_step; simpl; eauto.
      destruct (Nat.eq_dec i stoat) as [->|Hne].
      * eexists. split; [apply list_lookup_insert_eq; eapply lookup_lt_Some; eauto|].
        simpl. congruence.
      * exists sd. split; [|exact Hid]. rewrite list_lookup_insert_ne by congruence.
        exact Esd.
    + eexists. split; [apply list_lookup_insert_eq; eapply lookup_lt_Some; eauto|].
      reflexivity.
  - intros a (sd & Esd & Hid). post_step. post_step. post_step.
    assert (s0 = sd) as -> by congruence. simpl. rewrite Hid. split.
    + intros k m E A.
      change (map (purgeMating (Stoat.id s)) (matingArray w))
        with (purgeMating (Stoat.id s) <$> matingArray w) in E.
      rewrite list_lookup_fmap in E.
      destruct (matingArray w !! k) as [m0|]; simpl in E; [|discriminate].
      inversion E; subst. destruct (purgeMating_active _ _ A) as (-> & ? & ?). auto.
    + intros k e E A.
      change (map (purgeInteraction (Stoat.id s)) (pheromoneInteractionArray w))
        with (purgeInteraction (Stoat.id s) <$> pheromoneInteractionArray w) in E.
      rewrite list_lookup_fmap in E.
      destruct (pheromoneInteractionArray w !! k) as [e0|]; simpl in E; [|discriminate].
      inversion E; subst. unfold purgeInteraction in *.
      destruct (Z.eqb_spec (Interaction.stoatid e0) (Stoat.id s)); simpl in *; congruence.
Qed.

(** C1. One female is seeded next to a lure station. She gives birth
    on day 1; on the last hour of day 1 and on hour 0 of day 2 her kit
    (id 1) interacts with the station and gets habituation rows. On the
    last hour of day 2 the mother dies: the kit is cascade-deleted, the
    mother's rows are purged, and the kit's rows stay active in the
    habituation table at the end of that hour and of the run. *)
Theorem cascade_leaves_habituation_rows :
  exists arr n cid w,
    createInitialStoats (emptyStoats 3) 1 exIsland 180 [1 # 2; 1 # 2; 0]%Q
      = Ok (arr, n, cid) [] /\
    runRealisation refNumerics
      (exParams 3 2 [] [] [] [1%nat] None [] [Pheromone.mk 0 0] [] (1 # 2))
      (exWorld arr n cid (emptyMatings 2) (emptyInteractions 10))
      [0; 1 # 2; 3 # 4; 0; 1 # 2; 1 # 18; 1 # 4; 0; 1 # 2; 3 # 4; 0; 1 # 2; 3 # 4;
       0; 1 # 2; 1 # 4]%Q = Ok (false, w) [] /\
    (exists mother, stoatArray w !! 0%nat = Some mother /\
       Stoat.deleted mother = true /\ Stoat.id mother = 0) /\
    (exists kit, stoatArray w !! 1%nat = Some kit /\
       Stoat.deleted kit = true /\ Stoat.id kit = 1 /\ Stoat.parentid kit = 0) /\
    (forall k e, pheromoneInteractionArray w !! k = Some e ->
       Interaction.stoatid e <> -1 -> Interaction.stoatid e <> 0) /\
    pheromoneInteractionArray w !! 4%nat = Some (Interaction.mk 0 1 17) /\
    pheromoneInteractionArray w !! 6%nat = Some (Interaction.mk 0 1 18).
Proof.
  do 4 eexists.
  split; [vm_compute; reflexivity|].
  split; [vm_compute; reflexivity|].
  split; [eexists; repeat split; reflexivity|].
  split; [eexists; repeat split; reflexivity|].
  split; [|split; reflexivity].
  intros k e E A.
  do 10 (destruct k as [|k]; [inversion E; subst; simpl in *; congruence|]).
  discriminate E.
Qed.

(** ** Zero survival *)

Lemma post_forEach_idx_break {St} (I : nat -> St -> Prop) (J : St -> Prop)
    (body : nat -> St -> M (Ctl St)) m :
  forall k,
  (forall i s, (k <= i < k + m)%nat -> I i s ->
     post (body i s) (fun c => match c with Next s' => I (S i) s' | Break s' => J s' end)) ->
  forall s, I k s -> post (forEach (seq k m) body s) (fun s' => I (k + m)%nat s' \/ J s').
Proof.
  induction m as [|m IH]; intros k Hb s Hs; simpl.
  - apply post_ret. rewrite Nat.add_0_r. left. exact Hs.
  - apply post_bind. eapply post_mono; [apply Hb; [lia|exact Hs]|].
    intros [s'|s'] Hc; [|apply post_ret; right; exact Hc].
    replace (k + S m)%nat with (S k + m)%nat by lia.
    apply IH; [|exact Hc]. intros i s0 Hi. apply Hb. lia.
Qed.

Lemma post_forRange_idx_break {St} (I : nat -> St -> Prop) (J : St -> Prop) n
    (body : nat -> St -> M (Ctl St)) :
  (forall i s, (i < n)%nat -> I i s ->
     post (body i s) (fun c => match c with Next s' => I (S i) s' | Break s' => J s' end)) ->
  forall s, I 0%nat s -> post (forRange n body s) (fun s' => I n s' \/ J s').
Proof.
  intros Hb s Hs. unfold forRange.
  apply (post_forEach_idx_break I J body n 0%nat); [|exact Hs].
  intros i s0 Hi. apply Hb. lia.
Qed.

Lemma binomial1_certain ps :
  (ps == 0)%Q -> post (binomial1 (1 - ps)) (fun b => b = 1).
Proof.
  intros H. unfold binomial1. post_step. post_step. post_step.
  assert (1 - ps == 1)%Q as H1 by (rewrite H; reflexivity).
  destruct (Qeq_bool (1 - ps) 0) eqn:E0.
  - apply Qeq_bool_eq in E0. rewrite H1 in E0. discriminate E0.
  - apply Qeq_eq_bool in H1. rewrite H1. reflexivity.
Qed.

Lemma doMaleMating_keyRel num x y sid arr n enc M hab day pp :
  post (doMaleMating num x y sid arr n enc M hab day pp)
       (fun r => keyRel arr (snd (fst r))).
Proof.
  unfold doMaleMating.
  apply post_forRange
    with (I := fun r : bool * list Stoat.t * list Mating.t => keyRel arr (snd (fst r)));
    [|apply keyRel_refl].
  intros i [[mated arr1] M1] _ H; simpl in H.
  repeat post_step; simpl; try exact H.
  eapply post_mono.
  - apply post_forRange with (I := keyRel arr); [|key_step].
    intros j arr2 _ Ha. repeat post_step; simpl; try exact Ha. key_step.
  - intros arr2 Ha. simpl. repeat post_step; simpl; exact Ha.
Qed.

Lemma keyRel_deleted a b (j : nat) t :
  keyRel a b -> b !! j = Some t ->
  exists s, a !! j = Some s /\ Stoat.deleted t = Stoat.deleted s.
Proof.
  intros H E. destruct (Forall2_lookup_r _ _ _ _ _ H E) as (s & Es & (kd & _)). eauto.
Qed.

Lemma placeKit_kit (arr1 : list Stoat.t) (k stoat : nat) x y cid m :
  arr1 !! stoat = Some m -> k <> stoat ->
  post (placeKit arr1 k stoat x y cid)
       (fun a => a !! stoat = Some m /\
                 (forall t', a !! k = Some t' -> Stoat.parentid t' = Stoat.id m) /\
                 forall j, j <> k -> a !! j = arr1 !! j).
Proof.
  intros Em Hne. unfold placeKit. repeat post_step.
  rewrite list_lookup_insert_ne in Hlk0 by congruence.
  assert (s0 = m) as -> by congruence.
  split; [rewrite !list_lookup_insert_ne by congruence; exact Em|].
  split.
  - intros t' E. rewrite list_lookup_insert_eq in E
      by (rewrite length_insert; eapply lookup_lt_Some; eassumption).
    inversion E; subst. reflexivity.
  - intros j Hj. rewrite !list_lookup_insert_ne by congruence. reflexivity.
Qed.

Lemma doBirth_append_kits nKits (stoat : nat) x y (arr : list Stoat.t) n m :
  (stoat < n)%nat ->
  forall st,
  (fst (fst st) !! stoat = Some m /\ (n <= snd (fst st))%nat /\
   forall j t', fst (fst st) !! j = Some t' -> j <> stoat ->
     Stoat.parentid t' = Stoat.id m \/
     (arr !! j = Some t' /\ (j < n \/ snd (fst st) <= j)%nat)) ->
  post (doBirth_append nKits stoat x y st)
       (fun r => fst (fst r) !! stoat = Some m /\ (n <= snd (fst r))%nat /\
          forall j t', fst (fst r) !! j = Some t' -> j <> stoat ->
            Stoat.parentid t' = Stoat.id m \/
            (arr !! j = Some t' /\ (j < n \/ snd (fst r) <= j)%nat)).
Proof.
  intros Hlt. induction nKits as [|k IH]; intros [[a nc] c] (Em & Hn & H); simpl in *.
  - apply post_ret. simpl. auto.
  - apply post_bind. eapply post_mono.
    + apply (placeKit_kit a nc stoat x y c m Em). lia.
    + intros a1 (Em1 & Hkit & Hsame). simpl. post_step; [post_step|].
      apply IH. simpl. split; [exact Em1|]. split; [lia|].
      intros j t' E Hj. destruct (Nat.eq_dec j nc) as [->|Hjn].
      * left. apply Hkit. exact E.
      * rewrite Hsame in E by exact Hjn.
        destruct (H j t' E Hj) as [Hp|[Ea Hr]]; [left; exact Hp|].
        right. split; [exact Ea|]. lia.
Qed.

Lemma doBirth_kits num (arr : list Stoat.t) n (stoat : nat) mean cid m :
  arr !! stoat = Some m -> Stoat.deleted m = false -> (stoat < n)%nat ->
  post (doBirth num arr n stoat mean cid)
       (fun r => (n <= snd (fst r))%nat /\
          (exists m', fst (fst r) !! stoat = Some m' /\ Stoat.deleted m' = false /\
                      Stoat.id m' = Stoat.id m) /\
          forall j t', fst (fst r) !! j = Some t' -> j <> stoat ->
            Stoat.parentid t' = Stoat.id m \/
            (arr !! j = Some t' /\ (j < n \/ snd (fst r) <= j)%nat)).
Proof.
  intros Em Hd Hlt. unfold doBirth. do 4 post_step.
  apply post_bind. eapply post_mono.
  - apply post_forRange
      with (I := fun r : list Stoat.t * nat * Z =>
                   fst (fst r) !! stoat = Some m /\
                   forall j t', fst (fst r) !! j = Some t' -> j <> stoat ->
                     Stoat.parentid t' = Stoat.id m \/ arr !! j = Some t').
    + intros i [[a k] c] _ [Ema H]; simpl in Ema, H.
      destruct k as [|k]; [post_step; simpl; auto|].
      post_step. post_step. post_step; [|post_step; simpl; auto].
      assert (i <> stoat) as Hne by (intros ->; congruence).
      post_step. eapply post_mono; [apply (placeKit_kit a i stoat _ _ c m Ema Hne)|].
      intros a1 (Em1 & Hkit & Hsame). post_step. simpl. split; [exact Em1|].
      intros j t' E Hj. destruct (Nat.eq_dec j i) as [->|Hji].
      * left. apply Hkit. exact E.
      * rewrite Hsame in E by exact Hji. apply H; assumption.
    + simpl. split; [exact Em|]. intros j t' E _. right. exact E.
  - intros [[a k] c] [Ema H]; simpl in Ema, H.
    apply post_bind. eapply post_mono.
    + apply (doBirth_append_kits k stoat _ _ arr n m Hlt). simpl.
      split; [exact Ema|]. split; [lia|].
      intros j t' E Hj. destruct (H j t' E Hj) as [Hp|Ea]; [left; exact Hp|].
      right. split; [exact Ea|]. lia.
    + intros [[a2 n2] c2] (Em2 & Hn2 & H2); simpl in Em2, Hn2, H2.
      post_step. post_step. post_step. simpl.
      assert (s0 = m) as -> by congruence.
      split; [exact Hn2|]. split.
      * eexists. split; [apply list_lookup_insert_eq; eapply lookup_lt_Some; exact Em2|].
        simpl. auto.
      * intros j t' E Hj. rewrite list_lookup_insert_ne in E by congruence.
        apply H2; assumption.
Qed.

(** After [killStoat], the killed slot and every slot in use whose
    [parentid] is the killed agent's id are deleted, and nothing is
    revived. *)
Lemma killStoat_deletes stoat w s :
  stoatArray w !! stoat = Some s ->
  post (killStoat stoat w)
       (fun w' => nStoats w' = nStoats w /\
          forall j t', stoatArray w' !! j = Some t' ->
            exists t, stoatArray w !! j = Some t /\
              (Stoat.deleted t = true -> Stoat.deleted t' = true) /\
              (j = stoat -> Stoat.deleted t' = true) /\
              ((j < nStoats w)%nat -> Stoat.parentid t = Stoat.id s ->
               Stoat.deleted t' = true)).
Proof.
  intros Es. unfold killStoat. post_step. post_step.
  assert (s0 = s) as -> by congruence.
  apply post_bind. eapply post_mono.
  - apply post_forRange_idx
      with (I := fun (i : nat) (a : list Stoat.t) =>
                   forall j t', a !! j = Some t' ->
                     exists t, stoatArray w !! j = Some t /\
                       Stoat.parentid t' = Stoat.parentid t /\ Stoat.id t' = Stoat.id t /\
                       (Stoat.deleted t = true -> Stoat.deleted t' = true) /\
                       (j = stoat -> Stoat.deleted t' = true) /\
                       ((j < i)%nat -> Stoat.parentid t = Stoat.id s ->
                        Stoat.deleted t' = true)).
    + intros i a Hi H.
      post_step. post_step. post_step. post_step.
      destruct (H stoat s1 Hlk1) as (ts & Ets & _ & Hids & _).
      assert (ts = s) as -> by congruence.
      destruct (H i s0 Hlk0) as (ti & Eti & Hpi & Hidi & Hdi & Hsi & _).
      post_step.
      * post_step. post_step. post_step.
        match goal with
        | |- context [Stoat.set_deleted true ?u] => assert (u = s0) as -> by congruence
        end.
        intros j t' E. apply list_lookup_insert_Some in E.
        destruct E as [(<- & <- & _)|(Hne & E)].
        -- exists ti. simpl. repeat split; auto.
        -- destruct (H j t' E) as (t & Et & Hp & Hid & Hd & Hs & Hk).
           exists t. repeat split; auto. intros Hj. apply Hk. lia.
      * post_step. intros j t' E.
        destruct (H j t' E) as (t & Et & Hp & Hid & Hd & Hs & Hk).
        exists t. repeat split; auto. intros Hj Hpar.
        destruct (Nat.eq_dec j i) as [->|Hne]; [|apply Hk; [lia|exact Hpar]].
        exfalso. assert (s0 = t') as -> by congruence.
        assert (ti = t) as -> by congruence.
        apply Z.eqb_neq in Heqb. congruence.
    + intros j t' E. apply list_lookup_insert_Some in E.
      destruct E as [(<- & <- & _)|(Hne & E)].
      * exists s. simpl. repeat split; auto; intros; lia.
      * exists t'. repeat split; auto; first [congruence | intros; lia].
  - intros a H. post_step. post_step. post_step. simpl. split; [reflexivity|].
    intros j t' E. destruct (H j t' E) as (t & Et & Hp & Hid & Hd & Hs & Hk).
    exists t. repeat split; auto.
Qed.

(** A deleted slot is skipped: nothing changes. *)
Lemma stoatHour_skips num p day hour e dsp stoat w b :
  (forall s, stoatArray w !! stoat = Some s -> Stoat.deleted s = true) ->
  post (stoatHour num p day hour e dsp stoat (w, b)) (fun r => r = (w, b)).
Proof.
  intros H. unfold stoatHour. post_step. post_step.
  rewrite (H s Hlk). post_step. reflexivity.
Qed.

(** The hour's flag stays true only across deleted slots. *)
Lemma stoatHour_flag num p day hour e dsp stoat w b :
  post (stoatHour num p day hour e dsp stoat (w, b))
       (fun r => snd r = true ->
          b = true /\ fst r = w /\
          forall s, stoatArray w !! stoat = Some s -> Stoat.deleted s = true).
Proof.
  unfold stoatHour. post_step. post_step.
  post_step.
  { post_step. simpl. intros ->. repeat split. intros s0 E. congruence. }
  apply post_bind, post_any. intros hb.
  apply post_bind, post_any. intros arr1.
  apply post_bind, post_any. intros [mated w1].
  apply post_bind, post_any. intros w2.
  apply post_bind, post_any. intros [killed w3].
  apply post_bind, post_any. intros killed'.
  post_step.
  - apply post_bind, post_any. intros w4. post_step. simpl. discriminate.
  - post_step; [post_step; simpl; discriminate|].
    apply post_bind, post_any. intros mateResult.
    destruct mateResult as [[[cx cy] k]|];
      apply post_bind, post_any; intros arr4; post_step; simpl; discriminate.
Qed.

Lemma deadWhere_skip (arr : list Stoat.t) n n0 (i : nat) s :
  deadWhere (fun j => (j < i \/ n0 <= j)%nat) arr n ->
  arr !! i = Some s -> Stoat.deleted s = true ->
  deadWhere (fun j => (j < S i \/ n0 <= j)%nat) arr n.
Proof.
  intros H E Hd j t Hj Hsel Et.
  destruct (Nat.eq_dec j i) as [->|Hne]; [congruence|].
  apply (H j t Hj); [lia|exact Et].
Qed.

(** In the last hour of a day, with a daily survival probability of 0,
    processing slot [stoat] leaves it deleted, together with everything
    it added to the table. *)
Lemma stoatHour_lastHour num p day hour e dsp (stoat : nat) w b n0 :
  (pDaySurv p == 0)%Q ->
  Z.of_nat hour = Z.of_nat (hoursPerDay p) - 1 ->
  (stoat < n0)%nat -> (n0 <= nStoats w)%nat ->
  deadWhere (fun j => (j < stoat \/ n0 <= j)%nat) (stoatArray w) (nStoats w) ->
  post (stoatHour num p day hour e dsp stoat (w, b))
       (fun r => (n0 <= nStoats (fst r))%nat /\
          deadWhere (fun j => (j < S stoat \/ n0 <= j)%nat)
                    (stoatArray (fst r)) (nStoats (fst r))).
Proof.
  intros Hps Hlast Hi Hn0 Hpre. unfold stoatHour. post_step. post_step.
  post_step.
  { post_step. simpl. split; [exact Hn0|]. eapply deadWhere_skip; eassumption. }
  apply post_bind, post_any. intros hb.
  post_step. post_step.
  assert (s0 = s) as -> by congruence.
  set (arr1 := <[stoat := Stoat.set_homerange hb s]> (stoatArray w)).
  assert (arr1 !! stoat = Some (Stoat.set_homerange hb s)) as E1.
  { apply list_lookup_insert_eq. eapply lookup_lt_Some; eassumption. }
  assert (forall j, j <> stoat -> arr1 !! j = stoatArray w !! j) as Hsame1.
  { intros j Hj. apply list_lookup_insert_ne. congruence. }
  set (R := fun w1 : World =>
         (n0 <= nStoats w1)%nat /\
         (exists s1, stoatArray w1 !! stoat = Some s1 /\ Stoat.id s1 = Stoat.id s) /\
         deadOrKitWhere (Stoat.id s) stoat (fun j => (j < stoat \/ n0 <= j)%nat)
                        (stoatArray w1) (nStoats w1)).
  assert (forall arr2, keyRel arr1 arr2 ->
            R (Build_World arr2 (nStoats w) (Current_Id w) (matingArray w)
                 (pheromoneInteractionArray w) (debug w))) as Hkey.
  { intros arr2 Hk. unfold R. simpl. split; [exact Hn0|]. split.
    - destruct (Forall2_lookup_l _ _ _ _ _ Hk E1) as (t & Et & (_ & _ & Hid & _)).
      exists t. split; [exact Et|]. simpl in Hid. exact Hid.
    - intros j t Hj Hsel Hne Et. left.
      destruct (keyRel_deleted _ _ _ _ Hk Et) as (s' & Es' & ->).
      rewrite Hsame1 in Es' by exact Hne. eapply Hpre; eassumption. }
  apply post_bind.
  apply post_mono with (P := fun r : bool * World => R (snd r)).
  { post_step.
    - post_step; [|post_step; apply (Hkey arr1), keyRel_refl].
      post_call doMaleMating_keyRel.
      intros [[mated arr2] M2] Hk. simpl in Hk. post_step. simpl.
      destruct (Hkey arr2 Hk) as (A1 & A2 & A3). unfold R. simpl. auto.
    - post_step; [|post_step; apply (Hkey arr1), keyRel_refl].
      apply post_bind. eapply post_mono.
      + apply (doBirth_kits num arr1 (nStoats w) stoat (meanRecruits p) (Current_Id w)
                 (Stoat.set_homerange hb s) E1); [simpl; assumption|lia].
      + intros [[arr2 n2] c2] (Hn2 & (m' & Em' & _ & Hid') & Hk). simpl in *.
        post_step. unfold R. simpl. split; [lia|]. split; [eauto|].
        intros j t Hj Hsel Hne Et.
        destruct (Hk j t Et Hne) as [Hp|[Ea Hr]]; [right; exact Hp|].
        left. rewrite Hsame1 in Ea by exact Hne.
        apply (Hpre j t); [lia|exact Hsel|exact Ea]. }
  intros [mated w1] Hw1; simpl in Hw1.
  apply post_bind.
  apply post_mono with (P := R).
  { post_step; [|post_step; exact Hw1].
    apply post_bind, post_any. intros pia. post_step. exact Hw1. }
  intros w2 Hw2.
  apply post_bind.
  apply post_mono with (P := fun r : bool * World => R (snd r)).
  { post_step; [|post_step; exact Hw2].
    post_step; [|post_step; exact Hw2].
    post_step. post_step. post_step; [|post_step; exact Hw2].
    apply post_bind, post_any. intros dbg. post_step. exact Hw2. }
  intros [killed w3] Hw3; simpl in Hw3.
  apply post_bind.
  apply post_mono with (P := fun k : bool => k = true).
  { rewrite Hlast, Z.eqb_refl. destruct killed; simpl.
    - post_step. reflexivity.
    - post_call binomial1_certain; [exact Hps|]. intros k ->. post_step. reflexivity. }
  intros killed' ->.
  destruct Hw3 as (Hn3 & (s3 & E3 & Hid3) & Hk3).
  apply post_bind. eapply post_mono; [apply (killStoat_deletes stoat w3 s3 E3)|].
  intros w4 (Hn4 & H4). post_step. simpl. rewrite Hn4. split; [exact Hn3|].
  intros j t' Hj Hsel Et'.
  destruct (H4 j t' Et') as (t & Et & Hdead & Hself & Hkit).
  destruct (Nat.eq_dec j stoat) as [->|Hne]; [apply Hself; reflexivity|].
  destruct (Hk3 j t Hj) as [Hd|Hp]; auto; try lia.
  apply Hkit; [exact Hj|congruence].
Qed.

(** One hour. [Break] means the hour found no live agent: the world is
    untouched and every slot in use is deleted. With a daily survival
    probability of 0, the last hour of a day leaves no live agent. *)
Lemma hourBody_spec num p day hour rs :
  post (hourBody num p day hour rs)
       (fun c => match c with
                 | Break rs' =>
                     allDeleted (world rs') /\ eradication rs' = Some true /\
                     returned rs' = true /\ nStoats (world rs') = nStoats (world rs)
                 | Next rs' =>
                     returned rs' = false /\ eradication rs' = Some false /\
                     ((pDaySurv p == 0)%Q ->
                      Z.of_nat hour = Z.of_nat (hoursPerDay p) - 1 ->
                      allDeleted (world rs'))
                 end).
Proof.
  unfold hourBody.
  set (n0 := nStoats (world rs)). set (w0 := world rs).
  set (K := fun (i : nat) (st : World * bool) =>
         (snd st = true ->
            fst st = w0 /\
            forall j s, (j < i)%nat -> stoatArray w0 !! j = Some s -> Stoat.deleted s = true) /\
         ((pDaySurv p == 0)%Q -> Z.of_nat hour = Z.of_nat (hoursPerDay p) - 1 ->
            (n0 <= nStoats (fst st))%nat /\
            deadWhere (fun j => (j < i \/ n0 <= j)%nat)
                      (stoatArray (fst st)) (nStoats (fst st)))).
  apply post_bind.
  apply post_mono with (P := K n0).
  { apply post_forRange_idx with (I := K).
    - intros i [w b] Hi [HK1 HK2]. simpl in HK1, HK2.
      apply post_bind. eapply post_mono.
      + apply post_and; [apply stoatHour_flag|].
        apply post_mono with
          (P := fun r : World * bool =>
             (pDaySurv p == 0)%Q -> Z.of_nat hour = Z.of_nat (hoursPerDay p) - 1 ->
             (n0 <= nStoats (fst r))%nat /\
             deadWhere (fun j => (j < S i \/ n0 <= j)%nat)
                       (stoatArray (fst r)) (nStoats (fst r)));
          [|intros r Hr; exact Hr].
        intros d a d' E Hps Hlast. destruct (HK2 Hps Hlast) as [Hn Hd].
        exact (stoatHour_lastHour num p day hour _ _ i w b n0 Hps Hlast Hi Hn Hd d a d' E).
      + intros [w' b'] [Hflag Hlast]. simpl in Hflag, Hlast. post_step.
        split; simpl; [|exact Hlast].
        intros Hb'. destruct (Hflag Hb') as (Hb & Hw & Hdel). subst b w'.
        destruct (HK1 eq_refl) as [Hw Hall]. subst w. split; [reflexivity|].
        intros j s Hj Ej. destruct (Nat.eq_dec j i) as [->|Hne]; [exact (Hdel s Ej)|].
        apply (Hall j s); [lia|exact Ej].
    - split; simpl.
      + intros _. split; [reflexivity|]. intros j s Hj. lia.
      + intros _ _. split; [unfold n0, w0; lia|].
        intros j s Hj [Hlt|Hge] _; unfold n0, w0 in *; lia. }
  intros [w erad] [HK1 HK2]. simpl in HK1, HK2.
  apply post_bind, post_any. intros dbg.
  destruct erad; post_step; simpl.
  - destruct (HK1 eq_refl) as [-> Hall]. repeat split.
    intros j s Hj Ej. simpl in *. exact (Hall j s Hj Ej).
  - repeat split. intros Hps Hlast. destruct (HK2 Hps Hlast) as [Hn Hd].
    intros j s Hj Ej. simpl in *. apply (Hd j s Hj); [lia|exact Ej].
Qed.

(** An hour that starts with no live agent stops the run. *)
Lemma hourBody_dead num p day hour rs :
  allDeleted (world rs) ->
  post (hourBody num p day hour rs)
       (fun c => exists rs', c = Break rs' /\ allDeleted (world rs') /\
                   eradication rs' = Some true /\ returned rs' = true /\
                   nStoats (world rs') = nStoats (world rs)).
Proof.
  intros Hall. unfold hourBody.
  apply post_bind.
  apply post_mono with (P := fun st : World * bool => st = (world rs, true)).
  { apply post_forRange with (I := fun st : World * bool => st = (world rs, true));
      [|reflexivity].
    intros i st Hi ->. apply post_bind. eapply post_mono.
    - apply stoatHour_skips. intros s Es. exact (Hall i s Hi Es).
    - intros r ->. post_step. reflexivity. }
  intros [w erad] E. inversion E; subst.
  apply post_bind, post_any. intros dbg. post_step.
  eexists. split; [reflexivity|]. simpl. repeat split. exact Hall.
Qed.

Lemma allDeleted_keyRel w arr :
  allDeleted w -> keyRel (stoatArray w) arr -> allDeleted (withStoats w arr).
Proof.
  intros H Hk j t Hj Et. simpl in *.
  destruct (keyRel_deleted _ _ _ _ Hk Et) as (s & Es & ->). exact (H j s Hj Es).
Qed.

(** The flag [eradication] is [True] only over a table without live
    agents. *)
Lemma dayBody_flag num p day rs :
  (eradication rs = Some true -> allDeleted (world rs)) ->
  post (dayBody num p day rs)
       (fun c => eradication (ctl_state c) = Some true -> allDeleted (world (ctl_state c))).
Proof.
  intros H. unfold dayBody. post_step; [post_step; simpl; discriminate|].
  apply post_bind.
  apply post_mono with (P := keyRel (stoatArray (world rs))).
  { post_step; [apply disperse_keyRel|post_step; apply keyRel_refl]. }
  intros arr Harr.
  apply post_bind. eapply post_mono.
  - apply post_forRange with
      (I := fun rs : RunState => eradication rs = Some true -> allDeleted (world rs)).
    + intros hour rs1 _ _. eapply post_mono; [apply hourBody_spec|].
      intros [rs'|rs']; simpl.
      * intros (_ & E & _) E'. congruence.
      * intros (Hd & _) _. exact Hd.
    + simpl. intros E. apply allDeleted_keyRel; [exact (H E)|exact Harr].
  - intros rs1 H1. simpl in H1. post_step; post_step; simpl; [exact H1|].
    intros E. exact (H1 E).
Qed.

(** A day that starts below the explosion threshold, with a daily
    survival probability of 0, ends without live agents. *)
Lemma dayBody_zero num p day rs :
  (pDaySurv p == 0)%Q -> (1 <= hoursPerDay p)%nat -> (nStoats (world rs) <= 175)%nat ->
  post (dayBody num p day rs)
       (fun c => match c with
                 | Next rs' => allDeleted (world rs')
                 | Break rs' => allDeleted (world rs') /\ eradication rs' = Some true
                 end).
Proof.
  intros Hps HH Hn. unfold dayBody.
  destruct (Nat.ltb_spec 175 (nStoats (world rs))) as [Hgt|_]; [lia|].
  apply post_bind, post_any. intros arr.
  apply post_bind. eapply post_mono.
  - apply post_forRange_idx_break with
      (I := fun (i : nat) (s : RunState) =>
              ((1 <= i)%nat -> returned s = false) /\
              (i = hoursPerDay p -> allDeleted (world s)))
      (J := fun s : RunState =>
              allDeleted (world s) /\ eradication s = Some true /\ returned s = true).
    + intros hour rs1 Hh _. eapply post_mono; [apply hourBody_spec|].
      intros [rs'|rs']; simpl.
      * intros (Hr & _ & Hlast). split; [intros _; exact Hr|].
        intros Hi. apply Hlast; [exact Hps|lia].
      * intros (Hd & He & Hr & _). auto.
    + simpl. split; intros; lia.
  - intros rs1 [[Hr Hd]|(Hd & He & Hr)]; simpl.
    + rewrite Hr by lia. post_step. unfold endOfDay. simpl.
      intros j s Hj Ej. simpl in *. exact (Hd eq_refl j s Hj Ej).
    + rewrite Hr. post_step. auto.
Qed.

(** A day that starts without live agents ends the run. *)
Lemma dayBody_dead num p day rs :
  (1 <= hoursPerDay p)%nat -> allDeleted (world rs) ->
  post (dayBody num p day rs)
       (fun c => exists rs', c = Break rs' /\ allDeleted (world rs') /\
                   (eradication rs' = Some true \/
                    (eradication rs' = Some false /\ (175 < nStoats (world rs'))%nat))).
Proof.
  intros HH Hall. unfold dayBody.
  destruct (Nat.ltb_spec 175 (nStoats (world rs))) as [Hgt|_].
  { post_step. eexists. split; [reflexivity|]. simpl. split; [exact Hall|]. right. auto. }
  apply post_bind.
  apply post_mono with (P := keyRel (stoatArray (world rs))).
  { post_step; [apply disperse_keyRel|post_step; apply keyRel_refl]. }
  intros arr Harr.
  apply post_bind. eapply post_mono.
  - apply post_forRange_idx_break with
      (I := fun (i : nat) (s : RunState) => i = 0%nat /\ allDeleted (world s))
      (J := fun s : RunState =>
              allDeleted (world s) /\ eradication s = Some true /\ returned s = true).
    + intros hour rs1 Hh [_ Hd]. eapply post_mono; [apply hourBody_dead; exact Hd|].
      intros c (rs' & -> & Hd' & He & Hr & _). auto.
    + simpl. split; [reflexivity|]. apply allDeleted_keyRel; assumption.
  - intros rs1 [[Hi _]|(Hd & He & Hr)]; simpl; [lia|].
    rewrite Hr. post_step. eexists. split; [reflexivity|]. auto.
Qed.

(** X1: [runRealisation] answers [True] only over a table in which every
    slot in use is deleted: no run reports eradication while an agent
    is alive. *)
Theorem true_only_when_all_deleted (num : Numerics) (p : Params) (w : World) :
  post (runRealisation num p w) (fun r => fst r = true -> allDeleted (snd r)).
Proof.
  unfold runRealisation.
  apply post_bind. eapply post_mono.
  - apply post_forRange with
      (I := fun rs : RunState => eradication rs = Some true -> allDeleted (world rs)).
    + intros day rs _ H1. apply dayBody_flag. exact H1.
    + simpl. discriminate.
  - intros rs H1. simpl in H1. post_step; [|post_step].
    post_step. simpl. intros ->. apply H1. reflexivity.
Qed.

(** X2: with a daily survival probability of 0, at least one hour per
    day, a horizon of at least two days and a start below the explosion
    threshold, a run that ends leaves no live agent, and it answers
    [True] unless births of the first day took the slot count above
    175. *)
Theorem zero_survival_eradication (num : Numerics) (p : Params) (w : World) :
  (pDaySurv p == 0)%Q -> (1 <= hoursPerDay p)%nat -> (2 <= nDays p)%nat ->
  (nStoats w <= 175)%nat ->
  post (runRealisation num p w)
       (fun r => allDeleted (snd r) /\ (fst r = true \/ (175 < nStoats (snd r))%nat)).
Proof.
  intros Hps HH Hd Hn. unfold runRealisation.
  apply post_bind. eapply post_mono.
  - apply post_forRange_idx_break with
      (I := fun (i : nat) (s : RunState) =>
              (i = 0%nat /\ (nStoats (world s) <= 175)%nat) \/
              (i = 1%nat /\ allDeleted (world s)))
      (J := fun s : RunState =>
              allDeleted (world s) /\
              (eradication s = Some true \/
               (eradication s = Some false /\ (175 < nStoats (world s))%nat))).
    + intros day rs _ [[-> Hle]|[-> Hall]].
      * eapply post_mono; [apply dayBody_zero; assumption|].
        intros [rs'|rs']; simpl; [intros Ha; right; auto|].
        intros [Ha He]. auto.
      * eapply post_mono; [apply dayBody_dead; assumption|].
        intros c (rs' & -> & Ha & He). auto.
    + left. simpl. auto.
  - intros rs [[[Hi _]|[Hi _]]|[Ha He]]; simpl; try lia.
    destruct He as [He|[He Hgt]]; rewrite He; post_step; simpl; auto.
Qed.

(** ** Certain survival *)

Lemma liveKept_refl n arr : liveKept n arr arr.
Proof. intros j s _ E Hd. eauto. Qed.

Lemma liveKept_trans n n' a b c :
  (n <= n')%nat -> liveKept n a b -> liveKept n' b c -> liveKept n a c.
Proof.
  intros Hn H1 H2 j s Hj E Hd.
  destruct (H1 j s Hj E Hd) as (s1 & E1 & Hd1 & Hi1).
  destruct (H2 j s1 ltac:(lia) E1 Hd1) as (s2 & E2 & Hd2 & Hi2).
  exists s2. repeat split; auto. congruence.
Qed.

Lemma liveKept_keyRel n a b : keyRel a b -> liveKept n a b.
Proof.
  intros H j s _ E Hd.
  destruct (Forall2_lookup_l _ _ _ _ _ H E) as (t & Et & (kd & _ & ki & _)).
  exists t. repeat split; auto. congruence.
Qed.

Lemma survive_refl w : survive w w.
Proof. split; [lia|apply liveKept_refl]. Qed.

Lemma survive_trans a b c : survive a b -> survive b c -> survive a c.
Proof.
  intros [H1 K1] [H2 K2]. split; [lia|].
  eapply liveKept_trans; [exact H1|exact K1|exact K2].
Qed.

Lemma placeKit_other (arr : list Stoat.t) (k stoat : nat) x y cid :
  post (placeKit arr k stoat x y cid) (fun a => forall j, j <> k -> a !! j = arr !! j).
Proof.
  unfold placeKit. repeat post_step.
  intros j Hj. rewrite !list_lookup_insert_ne by congruence. reflexivity.
Qed.

Lemma liveKept_overwrite n (a a1 : list Stoat.t) (k : nat) :
  (forall s, (k < n)%nat -> a !! k = Some s -> Stoat.deleted s = true) ->
  (forall j, j <> k -> a1 !! j = a !! j) ->
  liveKept n a a1.
Proof.
  intros Hk Hsame j s Hj E Hd.
  destruct (Nat.eq_dec j k) as [->|Hne].
  - rewrite (Hk s Hj E) in Hd. discriminate.
  - exists s. rewrite Hsame by exact Hne. auto.
Qed.

Lemma doBirth_append_live nKits (stoat : nat) x y n :
  forall st, (n <= snd (fst st))%nat ->
  post (doBirth_append nKits stoat x y st)
       (fun r => (n <= snd (fst r))%nat /\ liveKept n (fst (fst st)) (fst (fst r))).
Proof.
  induction nKits as [|k IH]; intros [[a nc] c] Hn; simpl in *.
  - apply post_ret. simpl. split; [exact Hn|apply liveKept_refl].
  - apply post_bind. eapply post_mono; [apply placeKit_other|].
    intros a1 Hsame. simpl. post_step; [post_step|].
    eapply post_mono; [apply (IH (a1, S nc, c + 1)); simpl; lia|].
    intros [[a2 n2] c2] [Hn2 Hk]. simpl in *. split; [exact Hn2|].
    eapply liveKept_trans; [reflexivity| |exact Hk].
    apply (liveKept_overwrite n a a1 nc); [intros; lia|exact Hsame].
Qed.

(** A birth takes no slot from a live agent. *)
Lemma doBirth_live num (arr : list Stoat.t) n (stoat : nat) mean cid :
  post (doBirth num arr n stoat mean cid)
       (fun r => (n <= snd (fst r))%nat /\ liveKept n arr (fst (fst r))).
Proof.
  unfold doBirth. do 4 post_step.
  apply post_bind. eapply post_mono.
  - apply post_forRange
      with (I := fun r : list Stoat.t * nat * Z => liveKept n arr (fst (fst r)));
      [|apply liveKept_refl].
    intros i [[a k] c] _ H; simpl in H.
    destruct k as [|k]; [post_step; exact H|].
    post_step. post_step. post_step; [|post_step; exact H].
    post_step. eapply post_mono; [apply placeKit_other|].
    intros a1 Hsame. post_step. simpl.
    eapply liveKept_trans; [reflexivity|exact H|].
    apply (liveKept_overwrite n a a1 i); [|exact Hsame].
    intros s1 _ E1. congruence.
  - intros [[a k] c] H; simpl in H.
    apply post_bind. eapply post_mono.
    + apply (doBirth_append_live k stoat _ _ n (a, n, c)). simpl. lia.
    + intros [[a2 n2] c2] [Hn2 H2]; simpl in Hn2, H2.
      post_step. post_step. post_step. simpl. split; [exact Hn2|].
      eapply liveKept_trans; [reflexivity|exact H|].
      eapply liveKept_trans; [reflexivity|exact H2|].
      apply liveKept_keyRel. eapply keyRel_insert; [eassumption|].
      repeat split; simpl; auto.
Qed.

Lemma binomial1_never ps :
  (ps == 1)%Q -> post (binomial1 (1 - ps)) (fun b => b = 0).
Proof.
  intros H. unfold binomial1. post_step. post_step. post_step.
  assert (1 - ps == 0)%Q as H1 by (rewrite H; reflexivity).
  apply Qeq_eq_bool in H1. rewrite H1. reflexivity.
Qed.

(** With a daily survival probability of 1 and no trapping calendar,
    processing a slot loses no agent. *)
Lemma stoatHour_survive num p day hour e dsp stoat w b :
  (pDaySurv p == 1)%Q -> trappingDays p = None ->
  post (stoatHour num p day hour e dsp stoat (w, b)) (fun r => survive w (fst r)).
Proof.
  intros Hps Htrap. unfold stoatHour. post_step. post_step.
  post_step; [post_step; apply survive_refl|].
  apply post_bind, post_any. intros hb.
  post_step. post_step.
  assert (s0 = s) as -> by congruence.
  set (arr1 := <[stoat := Stoat.set_homerange hb s]> (stoatArray w)).
  assert (keyRel (stoatArray w) arr1) as Hk1.
  { eapply keyRel_insert; [eassumption|]. repeat split; simpl; auto. }
  assert (forall arr2, keyRel arr1 arr2 ->
            survive w (Build_World arr2 (nStoats w) (Current_Id w) (matingArray w)
                         (pheromoneInteractionArray w) (debug w))) as Hkey.
  { intros arr2 Hk. split; simpl; [lia|].
    apply liveKept_keyRel. eapply keyRel_trans; eassumption. }
  apply post_bind.
  apply post_mono with (P := fun r : bool * World => survive w (snd r)).
  { post_step.
    - post_step; [|post_step; apply (Hkey arr1), keyRel_refl].
      post_call doMaleMating_keyRel.
      intros [[mated arr2] M2] Hk. simpl in Hk. post_step.
      destruct (Hkey arr2 Hk) as [A1 A2]. split; simpl; auto.
    - post_step; [|post_step; apply (Hkey arr1), keyRel_refl].
      apply post_bind. eapply post_mono; [apply doBirth_live|].
      intros [[arr2 n2] c2] [Hn2 Hl]. simpl in *. post_step. split; simpl; [exact Hn2|].
      eapply liveKept_trans; [reflexivity|apply liveKept_keyRel; exact Hk1|exact Hl]. }
  intros [mated w1] Hw1; simpl in Hw1.
  apply post_bind.
  apply post_mono with (P := survive w).
  { post_step; [|post_step; exact Hw1].
    apply post_bind, post_any. intros pia. post_step. exact Hw1. }
  intros w2 Hw2.
  rewrite Htrap. simpl inArray. cbv iota.
  apply post_bind. apply post_ret.
  apply post_bind.
  apply post_mono with (P := fun k : bool => k = false).
  { simpl. post_step; [|post_step; reflexivity].
    post_call binomial1_never; [exact Hps|]. intros k ->. post_step. reflexivity. }
  intros killed' ->.
  post_step; [post_step; exact Hw2|].
  apply post_bind, post_any. intros mateResult.
  assert (forall cx cy,
    post (let* arr := moveStoat num p stoat (Stoat.x s) (Stoat.y s) cx cy mateResult hb
                        (stoatArray w2) in
          ret (withStoats w2 arr, false)) (fun r => survive w (fst r))) as Hmove.
  { intros cx cy. post_call moveStoat_keyRel. intros arr4 Hk4. post_step.
    eapply survive_trans; [exact Hw2|]. split; simpl; [lia|].
    apply liveKept_keyRel. exact Hk4. }
  destruct mateResult as [[[cx cy] k]|]; apply Hmove.
Qed.

Lemma hourBody_survive num p day hour rs :
  (pDaySurv p == 1)%Q -> trappingDays p = None ->
  post (hourBody num p day hour rs) (fun c => survive (world rs) (world (ctl_state c))).
Proof.
  intros Hps Htrap. unfold hourBody.
  apply post_bind.
  apply post_mono with (P := fun r : World * bool => survive (world rs) (fst r)).
  - apply post_forRange with (I := fun r : World * bool => survive (world rs) (fst r));
      [|apply survive_refl].
    intros i [w b] _ Hw. simpl in Hw.
    post_call stoatHour_survive; [exact Hps|exact Htrap|]. intros r Hr. post_step.
    eapply survive_trans; eassumption.
  - intros [w erad] Hw; simpl in Hw.
    apply post_bind, post_any. intros dbg.
    destruct erad; post_step; exact Hw.
Qed.

Lemma dayBody_survive num p day rs :
  (pDaySurv p == 1)%Q -> trappingDays p = None ->
  post (dayBody num p day rs) (fun c => survive (world rs) (world (ctl_state c))).
Proof.
  intros Hps Htrap. unfold dayBody. post_step; [post_step; apply survive_refl|].
  apply post_bind.
  apply post_mono with (P := keyRel (stoatArray (world rs))).
  { post_step; [apply disperse_keyRel|post_step; apply keyRel_refl]. }
  intros arr Harr.
  assert (survive (world rs) (withStoats (world rs) arr)) as H0.
  { split; simpl; [lia|]. apply liveKept_keyRel. exact Harr. }
  apply post_bind. eapply post_mono.
  - apply post_forRange with (I := fun rs1 : RunState => survive (world rs) (world rs1));
      [|exact H0].
    intros hour rs1 _ H1. eapply post_mono; [apply hourBody_survive; assumption|].
    intros c Hc. eapply survive_trans; eassumption.
  - intros rs1 H1. simpl in H1. post_step; post_step; simpl; exact H1.
Qed.

(** X3: with a daily survival probability of 1 and no trapping
    calendar, a run loses no agent: every agent alive at the start is
    alive, in its slot and under its id, at the end, and a run that
    starts with a live agent in a slot in use never answers [True]. *)
Theorem certain_survival_no_deaths (num : Numerics) (p : Params) (w : World) :
  (pDaySurv p == 1)%Q -> trappingDays p = None ->
  post (runRealisation num p w)
       (fun r => survive w (snd r) /\
                 ((exists j s, (j < nStoats w)%nat /\ stoatArray w !! j = Some s /\
                               Stoat.deleted s = false) -> fst r = false)).
Proof.
  intros Hps Htrap. unfold runRealisation.
  apply post_bind. eapply post_mono.
  - apply post_forRange with
      (I := fun rs : RunState =>
              survive w (world rs) /\
              (eradication rs = Some true -> allDeleted (world rs))).
    + intros day rs _ [H1 H2]. eapply post_mono.
      * apply post_and; [apply dayBody_survive; assumption|apply dayBody_flag; exact H2].
      * intros c [Hc1 Hc2]. split; [|exact Hc2]. eapply survive_trans; eassumption.
    + simpl. split; [apply survive_refl|discriminate].
  - intros rs [H1 H2]. simpl in H1, H2. post_step; [|post_step].
    post_step. simpl. split; [exact H1|].
    intros (j & s & Hj & Ej & Hd). destruct b; [|reflexivity].
    destruct H1 as [Hn Hk]. destruct (Hk j s Hj Ej Hd) as (s' & Es' & Hd' & _).
    rewrite (H2 eq_refl j s' ltac:(lia) Es') in Hd'. discriminate.
Qed.

(** ** Dispersal *)

Lemma disperseOne_spec num isl (i : nat) (a : list Stoat.t) :
  post (disperseOne num isl i a)
       (fun a' => length a' = length a /\
          (forall j, j <> i -> a' !! j = a !! j) /\
          (forall t, a' !! i = Some t -> Stoat.parentid t = -1) /\
          (forall s, a !! i = Some s -> settled s ->
             a' !! i = Some (Stoat.set_parentid (-1) s))).
Proof.
  unfold disperseOne. post_step. post_step. post_step. post_step.
  - apply post_bind, post_any. intros [x y].
    post_step. post_step. post_step. post_step. post_step. post_step.
    rewrite !length_insert.
    split; [reflexivity|]. split.
    { intros j Hj. rewrite !list_lookup_insert_ne by congruence. reflexivity. }
    split.
    { intros t E. rewrite list_lookup_insert_eq in E
        by (rewrite !length_insert; eapply lookup_lt_Some; eassumption).
      inversion E; subst. reflexivity. }
    intros s' Es' [Hd|[Hp Hm]].
    + assert (s' = s) as -> by congruence. rewrite Hd in *. discriminate.
    + assert (s' = s) as -> by congruence. rewrite Hm in *.
      apply Z.eqb_eq in Hp. rewrite Hp in *.
      destruct (Stoat.deleted s); discriminate.
  - post_step. post_step. rewrite length_insert.
    split; [reflexivity|]. split.
    { intros j Hj. rewrite list_lookup_insert_ne by congruence. reflexivity. }
    split.
    { intros t E. rewrite list_lookup_insert_eq in E
        by (eapply lookup_lt_Some; eassumption).
      inversion E; subst. reflexivity. }
    intros s' Es' _. assert (s' = s0) as -> by congruence.
    apply list_lookup_insert_eq. eapply lookup_lt_Some; eassumption.
Qed.

(** X4: after the dispersal loop no slot in use carries a parent id;
    the slots beyond [nStoats] are untouched, and a free slot or an
    independent female keeps every field but [parentid]: only live
    dependants and live males are relocated. *)
Theorem dispersal_promotes_all (num : Numerics) (isl : Island) (n : nat)
    (arr : list Stoat.t) :
  post (disperse num isl n arr)
       (fun arr' =>
          length arr' = length arr /\
          (forall j t, (j < n)%nat -> arr' !! j = Some t -> Stoat.parentid t = -1) /\
          (forall j, (n <= j)%nat -> arr' !! j = arr !! j) /\
          (forall j s, (j < n)%nat -> arr !! j = Some s -> settled s ->
             arr' !! j = Some (Stoat.set_parentid (-1) s))).
Proof.
  unfold disperse.
  apply post_forRange_idx with
    (I := fun (i : nat) (a : list Stoat.t) =>
            length a = length arr /\
            (forall j t, (j < i)%nat -> a !! j = Some t -> Stoat.parentid t = -1) /\
            (forall j, (i <= j)%nat -> a !! j = arr !! j) /\
            (forall j s, (j < i)%nat -> arr !! j = Some s -> settled s ->
               a !! j = Some (Stoat.set_parentid (-1) s))).
  - intros i a Hi (HL & HP & HU & HS).
    post_call disperseOne_spec. intros a' (HL' & Hother & Hpar & Hset). post_step.
    split; [congruence|]. split; [|split].
    + intros j t Hj E. destruct (Nat.eq_dec j i) as [->|Hne]; [exact (Hpar t E)|].
      rewrite Hother in E by exact Hne. apply (HP j t); [lia|exact E].
    + intros j Hj. rewrite Hother by lia. apply HU. lia.
    + intros j s Hj E Hs. destruct (Nat.eq_dec j i) as [->|Hne].
      * apply Hset; [|exact Hs]. rewrite HU by lia. exact E.
      * rewrite Hother by exact Hne. apply HS; [lia|exact E|exact Hs].
  - split; [reflexivity|]. split; [intros; lia|]. split; [reflexivity|intros; lia].
Qed.

(** ** The ledgers *)

Lemma decrementInteraction_free e :
  Interaction.stoatid e = -1 -> decrementInteraction e = e.
Proof. intros H. unfold decrementInteraction. rewrite H. reflexivity. Qed.

Lemma decrementInteraction_live e :
  Interaction.stoatid e <> -1 ->
  Interaction.ndays (decrementInteraction e) = Interaction.ndays e - 1 /\
  Interaction.pheromoneid (decrementInteraction e) = Interaction.pheromoneid e /\
  Interaction.stoatid (decrementInteraction e) =
    (if Interaction.ndays e =? 1 then -1 else Interaction.stoatid e).
Proof.
  intros H. unfold decrementInteraction.
  destruct (Z.eqb_spec (Interaction.stoatid e) (-1)) as [E|_]; [contradiction|].
  simpl. destruct (Z.eqb_spec (Interaction.ndays e - 1) 0) as [E0|E0];
    destruct (Z.eqb_spec (Interaction.ndays e) 1) as [E1|E1]; simpl; auto; lia.
Qed.

Lemma decrementMating_free m :
  Mating.maleid m = -1 -> decrementMating m = m.
Proof. intros H. unfold decrementMating. rewrite H. reflexivity. Qed.

Lemma decrementMating_live m :
  Mating.maleid m <> -1 ->
  Mating.ndays (decrementMating m) = Mating.ndays m - 1 /\
  Mating.femaleid (decrementMating m) = Mating.femaleid m /\
  Mating.maleid (decrementMating m) =
    (if Mating.ndays m =? 1 then -1 else Mating.maleid m).
Proof.
  intros H. unfold decrementMating.
  destruct (Z.eqb_spec (Mating.maleid m) (-1)) as [E|_]; [contradiction|].
  simpl. destruct (Z.eqb_spec (Mating.ndays m - 1) 0) as [E0|E0];
    destruct (Z.eqb_spec (Mating.ndays m) 1) as [E1|E1]; simpl; auto; lia.
Qed.

(** X5: the daily countdown of a habituation row. A row entered for
    [h >= 1] days stays active through [h - 1] ends of day and is freed
    by the [h]-th; a row entered for [h <= 0] days is never freed by the
    countdown. *)
Theorem habituation_countdown (e : Interaction.t) :
  Interaction.stoatid e <> -1 ->
  (forall k : nat, Z.of_nat k < Interaction.ndays e ->
     Interaction.stoatid (Nat.iter k decrementInteraction e) = Interaction.stoatid e /\
     Interaction.ndays (Nat.iter k decrementInteraction e) = Interaction.ndays e - Z.of_nat k) /\
  (forall k : nat, 1 <= Interaction.ndays e <= Z.of_nat k ->
     Interaction.stoatid (Nat.iter k decrementInteraction e) = -1) /\
  (Interaction.ndays e <= 0 ->
   forall k : nat,
     Interaction.stoatid (Nat.iter k decrementInteraction e) = Interaction.stoatid e).
Proof.
  intros Hlive.
  assert (forall k : nat, Z.of_nat k < Interaction.ndays e \/ Interaction.ndays e <= 0 ->
     Interaction.stoatid (Nat.iter k decrementInteraction e) = Interaction.stoatid e /\
     Interaction.ndays (Nat.iter k decrementInteraction e)
       = Interaction.ndays e - Z.of_nat k) as Hrun.
  { induction k as [|k IH]; intros Hk.
    - simpl. split; [reflexivity|lia].
    - destruct IH as [Hs Hn]; [lia|]. simpl Nat.iter.
      destruct (decrementInteraction_live (Nat.iter k decrementInteraction e)) as (Dn & _ & Ds);
        [congruence|].
      rewrite Dn, Ds, Hn, Hs.
      destruct (Z.eqb_spec (Interaction.ndays e - Z.of_nat k) 1); [lia|]. split; [reflexivity|lia]. }
  split; [intros k Hk; apply Hrun; lia|]. split.
  - intros k [H1 Hk].
    assert (exists j : nat, k = (Z.to_nat (Interaction.ndays e) + j)%nat) as [j ->]
      by (exists (k - Z.to_nat (Interaction.ndays e))%nat; lia).
    rewrite Nat.add_comm.
    induction j as [|j IHj].
    + simpl. destruct (Z.to_nat (Interaction.ndays e)) as [|h] eqn:Eh; [lia|].
      simpl Nat.iter. destruct (Hrun h) as [Hs Hn]; [lia|].
      destruct (decrementInteraction_live (Nat.iter h decrementInteraction e)) as (_ & _ & Ds);
        [congruence|].
      rewrite Ds, Hn. destruct (Z.eqb_spec (Interaction.ndays e - Z.of_nat h) 1); [reflexivity|lia].
    + simpl Nat.iter. rewrite decrementInteraction_free; apply IHj; lia.
  - intros H0 k. apply Hrun. lia.
Qed.

(** X6: the same countdown for a mating row. *)
Theorem mating_countdown (m : Mating.t) :
  Mating.maleid m <> -1 ->
  (forall k : nat, Z.of_nat k < Mating.ndays m ->
     Mating.maleid (Nat.iter k decrementMating m) = Mating.maleid m /\
     Mating.femaleid (Nat.iter k decrementMating m) = Mating.femaleid m /\
     Mating.ndays (Nat.iter k decrementMating m) = Mating.ndays m - Z.of_nat k) /\
  (forall k : nat, 1 <= Mating.ndays m <= Z.of_nat k ->
     Mating.maleid (Nat.iter k decrementMating m) = -1) /\
  (Mating.ndays m <= 0 ->
   forall k : nat, Mating.maleid (Nat.iter k decrementMating m) = Mating.maleid m).
Proof.
  intros Hlive.
  assert (forall k : nat, Z.of_nat k < Mating.ndays m \/ Mating.ndays m <= 0 ->
     Mating.maleid (Nat.iter k decrementMating m) = Mating.maleid m /\
     Mating.femaleid (Nat.iter k decrementMating m) = Mating.femaleid m /\
     Mating.ndays (Nat.iter k decrementMating m) = Mating.ndays m - Z.of_nat k) as Hrun.
  { induction k as [|k IH]; intros Hk.
    - simpl. repeat split; lia.
    - destruct IH as (Hs & Hf & Hn); [lia|]. simpl Nat.iter.
      destruct (decrementMating_live (Nat.iter k decrementMating m)) as (Dn & Df & Ds);
        [congruence|].
      rewrite Dn, Ds, Df, Hn, Hs, Hf.
      destruct (Z.eqb_spec (Mating.ndays m - Z.of_nat k) 1); [lia|]. repeat split; lia. }
  split; [intros k Hk; apply Hrun; lia|]. split.
  - intros k [H1 Hk].
    assert (exists j : nat, k = (Z.to_nat (Mating.ndays m) + j)%nat) as [j ->]
      by (exists (k - Z.to_nat (Mating.ndays m))%nat; lia).
    rewrite Nat.add_comm.
    induction j as [|j IHj].
    + simpl. destruct (Z.to_nat (Mating.ndays m)) as [|h] eqn:Eh; [lia|].
      simpl Nat.iter. destruct (Hrun h) as (Hs & _ & Hn); [lia|].
      destruct (decrementMating_live (Nat.iter h decrementMating m)) as (_ & _ & Ds);
        [congruence|].
      rewrite Ds, Hn. destruct (Z.eqb_spec (Mating.ndays m - Z.of_nat h) 1); [reflexivity|lia].
    + simpl Nat.iter. rewrite decrementMating_free; apply IHj; lia.
  - intros H0 k. apply Hrun. lia.
Qed.

(** X7: entering a mating and looking it up. After doMaleMating has
    written the pair into the first free row, the lookup of the mating
    scans answers yes for that pair and what it answered before for
    every other pair of a real male id; the table keeps its size. *)
Theorem mating_ledger_roundtrip (M M' : list Mating.t) (male female h a b : Z) :
  addMating M male female h = Some M' -> a <> -1 ->
  alreadyMatedWith M' a b = alreadyMatedWith M a b || ((a =? male) && (b =? female)) /\
  length M' = length M.
Proof.
  intros H Ha. revert M' H. induction M as [|m M IH]; simpl; intros M' H; [discriminate|].
  destruct (Z.eqb_spec (Mating.maleid m) (-1)) as [E|E].
  - inversion H; subst. unfold alreadyMatedWith. simpl.
    rewrite E. destruct (Z.eqb_spec (-1) a) as [Ea|_]; [congruence|]. simpl.
    rewrite (Z.eqb_sym male a), (Z.eqb_sym female b).
    split; [apply orb_comm|reflexivity].
  - destruct (addMating M male female h) as [M1|] eqn:EM; simpl in H; [|discriminate].
    inversion H; subst. destruct (IH M1 eq_refl) as [IH1 IH2].
    unfold alreadyMatedWith in *. simpl. rewrite IH1, IH2.
    split; [apply orb_assoc|reflexivity].
Qed.

(** X8: the same for the habituation table. *)
Theorem habituation_ledger_roundtrip (P P' : list Interaction.t) (stoatid p h sid q : Z) :
  addInteraction P stoatid p h = Some P' -> sid <> -1 ->
  alreadyInteracted P' sid q = alreadyInteracted P sid q || ((sid =? stoatid) && (q =? p)) /\
  length P' = length P.
Proof.
  intros H Ha. revert P' H. induction P as [|e P IH]; simpl; intros P' H; [discriminate|].
  destruct (Z.eqb_spec (Interaction.stoatid e) (-1)) as [E|E].
  - inversion H; subst. unfold alreadyInteracted. simpl.
    rewrite E. destruct (Z.eqb_spec (-1) sid) as [Ea|_]; [congruence|]. simpl.
    rewrite (Z.eqb_sym stoatid sid), (Z.eqb_sym p q).
    split; [apply orb_comm|reflexivity].
  - destruct (addInteraction P stoatid p h) as [P1|] eqn:EM; simpl in H; [|discriminate].
    inversion H; subst. destruct (IH P1 eq_refl) as [IH1 IH2].
    unfold alreadyInteracted in *. simpl. rewrite IH1, IH2.
    split; [apply orb_assoc|reflexivity].
Qed.

(** X9: killing an agent clears it from both tables. Afterwards the
    mating lookup finds no pair with the killed agent's id on either
    side, and the habituation lookup finds no station for it. *)
Theorem kill_clears_ledgers (stoat : nat) (w : World) (s : Stoat.t) :
  stoatArray w !! stoat = Some s -> Stoat.id s <> -1 ->
  post (killStoat stoat w)
       (fun w' =>
          (forall b, alreadyMatedWith (matingArray w') (Stoat.id s) b = false) /\
          (forall a, a <> -1 -> alreadyMatedWith (matingArray w') a (Stoat.id s) = false) /\
          (forall p, alreadyInteracted (pheromoneInteractionArray w') (Stoat.id s) p = false)).
Proof.
  intros Es Hid. eapply post_mono; [apply (killStoat_purges_killed stoat w s Es)|].
  intros w' [HM HP].
  assert (forall a b, a <> -1 -> alreadyMatedWith (matingArray w') a b = true ->
            a <> Stoat.id s /\ b <> Stoat.id s) as Hmate.
  { intros a b Ha E. unfold alreadyMatedWith in E.
    apply existsb_exists in E. destruct E as (m & Hin & Hm).
    apply andb_prop in Hm. destruct Hm as [Hm1 Hm2].
    apply Z.eqb_eq in Hm1, Hm2.
    apply list_elem_of_In, list_elem_of_lookup_1 in Hin. destruct Hin as [k Ek].
    destruct (HM k m Ek) as [A B]; [congruence|]. split; congruence. }
  split; [|split].
  - intros b. destruct (alreadyMatedWith (matingArray w') (Stoat.id s) b) eqn:E; [|reflexivity].
    destruct (Hmate _ _ Hid E) as [A _]. contradiction.
  - intros a Ha. destruct (alreadyMatedWith (matingArray w') a (Stoat.id s)) eqn:E; [|reflexivity].
    destruct (Hmate _ _ Ha E) as [_ B]. contradiction.
  - intros p.
    destruct (alreadyInteracted (pheromoneInteractionArray w') (Stoat.id s) p) eqn:E;
      [|reflexivity].
    unfold alreadyInteracted in E.
    apply existsb_exists in E. destruct E as (e & Hin & He).
    apply andb_prop in He. destruct He as [He1 _]. apply Z.eqb_eq in He1.
    apply list_elem_of_In, list_elem_of_lookup_1 in Hin. destruct Hin as [k Ek].
    exfalso. apply (HP k e Ek); congruence.
Qed.

(** ** The margins of the land mask *)

Lemma Qlt_bool_true a b : Qlt_bool a b = true <-> (a < b)%Q.
Proof.
  unfold Qlt_bool. rewrite negb_true_iff. split.
  - intros H. apply Qnot_le_lt. intros Hle. apply Qle_bool_iff in Hle. congruence.
  - intros H. destruct (Qle_bool b a) eqn:E; [|reflexivity].
    apply Qle_bool_iff in E. exfalso. exact (Qlt_not_le _ _ H E).
Qed.

Lemma Qlt_bool_false a b : Qlt_bool a b = false <-> (b <= a)%Q.
Proof.
  unfold Qlt_bool. rewrite negb_false_iff. apply Qle_bool_iff.
Qed.

(** Rounding a value in the upper half of the unit interval below an
    integer gives that integer. *)
Lemma np_round_upper (q : Q) (n : Z) :
  (inject_Z n - (1 # 2) < q)%Q -> (q <= inject_Z n)%Q -> np_round q = n.
Proof.
  intros Hlo Hhi. unfold np_round.
  pose proof (Qfloor_le q) as Hf1. pose proof (Qlt_floor q) as Hf2.
  set (f := Qfloor q) in *.
  rewrite inject_Z_plus in Hf2. change (inject_Z 1) with 1%Q in Hf2.
  assert (f <= n) as Hfn by (rewrite Zle_Qle; lra).
  assert (n < f + 2) as Hnf.
  { rewrite Zlt_Qlt, inject_Z_plus. change (inject_Z 2) with 2%Q. lra. }
  destruct (Z.eq_dec f n) as [E|E].
  - assert (Qlt_bool (q - inject_Z f) (1 # 2) = true) as ->.
    { apply Qlt_bool_true. rewrite E in *. lra. }
    exact E.
  - assert (f = n - 1) as Ef by lia.
    assert (inject_Z f == inject_Z n - 1)%Q as Hfq.
    { rewrite Ef. unfold Z.sub. rewrite inject_Z_plus. reflexivity. }
    assert (Qlt_bool (q - inject_Z f) (1 # 2) = false) as ->.
    { apply Qlt_bool_false. lra. }
    assert (Qlt_bool (1 # 2) (q - inject_Z f) = true) as ->.
    { apply Qlt_bool_true. lra. }
    lia.
Qed.

Lemma np_index_past {A} (l : list A) : np_index l (Z.of_nat (length l)) = None.
Proof.
  unfold np_index. destruct (Z.leb_spec 0 (Z.of_nat (length l))) as [_|H]; [|lia].
  rewrite Nat2Z.id. apply lookup_ge_None. lia.
Qed.

Lemma round_to_count (v lo pix : Q) (n : nat) :
  (0 < pix)%Q -> (pix * inject_Z (Z.of_nat n) - pix * (1 # 2) < v - lo)%Q ->
  (v - lo <= pix * inject_Z (Z.of_nat n))%Q ->
  np_round ((v - lo) / pix) = Z.of_nat n.
Proof.
  intros Hp Hlo Hhi. apply np_round_upper.
  - apply Qlt_shift_div_l; [exact Hp|].
    assert ((inject_Z (Z.of_nat n) - (1 # 2)) * pix
            == pix * inject_Z (Z.of_nat n) - pix * (1 # 2))%Q as -> by ring.
    exact Hlo.
  - apply Qle_shift_div_r; [exact Hp|].
    assert (inject_Z (Z.of_nat n) * pix == pix * inject_Z (Z.of_nat n))%Q as -> by ring.
    exact Hhi.
Qed.

(** X10: the land test rounds to the nearest pixel, so on a mask whose
    rows and columns tile the bounding box exactly (the way runModel
    builds it) a point of the box within half a pixel of the south edge
    indexes the mask at row [nrows], and a point within half a pixel of
    the east edge at column [ncols]: one past the end in both cases. *)
Theorem margin_reads_past_mask (isl : Island) (x y : Q) :
  (0 < pixsize isl)%Q ->
  (tlx isl <= x)%Q -> (x <= brx isl)%Q -> (bry isl <= y)%Q -> (y <= tly isl)%Q ->
  ((tly isl - bry isl == pixsize isl * inject_Z (Z.of_nat (length (mask isl))))%Q ->
   (y < bry isl + pixsize isl * (1 # 2))%Q ->
   forall d, checkLocationIsOnIsland isl x y d
             = Fault "mask" (Z.of_nat (length (mask isl)))) /\
  (forall row,
     np_index (mask isl) (np_round ((tly isl - y) / pixsize isl)) = Some row ->
     (brx isl - tlx isl == pixsize isl * inject_Z (Z.of_nat (length row)))%Q ->
     (brx isl - pixsize isl * (1 # 2) < x)%Q ->
     forall d, checkLocationIsOnIsland isl x y d = Fault "mask" (Z.of_nat (length row))).
Proof.
  intros Hp Hx1 Hx2 Hy1 Hy2.
  assert (Qle_bool (tlx isl) x && Qle_bool x (brx isl) &&
          Qle_bool y (tly isl) && Qle_bool (bry isl) y = true) as Hbox.
  { rewrite !andb_true_iff, !Qle_bool_iff. auto. }
  assert (Qeq_bool (pixsize isl) 0 = false) as Hpix.
  { destruct (Qeq_bool (pixsize isl) 0) eqn:E; [|reflexivity].
    apply Qeq_bool_eq in E. rewrite E in Hp. discriminate Hp. }
  split.
  - intros Hrows Hy d.
    unfold checkLocationIsOnIsland, fdiv, bind, ret, fault.
    rewrite Hbox, Hpix.
    rewrite (round_to_count (tly isl) y (pixsize isl) (length (mask isl)) Hp)
      by (rewrite <- Hrows; lra).
    rewrite np_index_past. reflexivity.
  - intros row Hrow Hcols Hx d.
    unfold checkLocationIsOnIsland, fdiv, bind, ret, fault.
    rewrite Hbox, Hpix, Hrow.
    rewrite (round_to_count x (tlx isl) (pixsize isl) (length row) Hp)
      by (rewrite <- Hcols; lra).
    rewrite np_index_past. reflexivity.
Qed.

(** ** Seeding *)

(** X11: the layout createInitialStoats produces. It returns
    [nStoats = Current_Id = nAdd]; slot [k < nAdd] holds a live
    independent agent with id [k], at home where it stands, slot 0 a
    female and slot 1 a male, every female pregnant since day
    [-nDaysPregnantBeforeBirth] and no male pregnant; the remembered
    bearing of a slot is not initialised (it keeps what the table held)
    and the slots from [nAdd] on are untouched. *)
Theorem seeding_layout (isl : Island) (arr : list Stoat.t) (nAdd : nat) (nd : Z) :
  post (createInitialStoats arr nAdd isl nd)
       (fun r =>
          snd (fst r) = nAdd /\ snd r = Z.of_nat nAdd /\
          length (fst (fst r)) = length arr /\
          (forall j, (nAdd <= j)%nat -> fst (fst r) !! j = arr !! j) /\
          (forall k, (k < nAdd)%nat ->
             exists s s0, fst (fst r) !! k = Some s /\ seeded nd k s /\
                          arr !! k = Some s0 /\
                          Stoat.bearingT_1 s = Stoat.bearingT_1 s0)).
Proof.
  unfold createInitialStoats.
  apply post_bind. eapply post_mono.
  - apply post_forRange_idx
      with (I := fun (i : nat) (r : list Stoat.t * Z * option nat) =>
                   snd (fst r) = Z.of_nat i /\
                   snd r = (if Nat.eqb i 0 then None else Some i) /\
                   length (fst (fst r)) = length arr /\
                   (forall j, (i <= j)%nat -> fst (fst r) !! j = arr !! j) /\
                   (forall k, (k < i)%nat ->
                      exists s s0, fst (fst r) !! k = Some s /\ seeded nd k s /\
                                   arr !! k = Some s0 /\
                                   Stoat.bearingT_1 s = Stoat.bearingT_1 s0)).
    + intros i [[arr1 cid] last] _ (Hc & _ & HL & HU & HS); simpl in Hc, HL, HU, HS.
      subst cid.
      apply post_bind, post_any. intros [x y].
      do 10 post_step;
        (post_step; post_step; post_step; cbv zeta; post_step; post_step; post_step;
         simpl;
         repeat match goal with
         | Hb : <[i := ?t]> ?a !! i = Some ?u |- _ =>
             rewrite list_lookup_insert_eq in Hb
               by (rewrite ?length_insert; eapply lookup_lt_Some; eassumption);
             inversion Hb; subst u; clear Hb
         end;
         rewrite !list_insert_insert_eq;
         split; [lia|]; split; [f_equal; lia|];
         split; [rewrite length_insert; exact HL|];
         split; [intros j Hj; rewrite list_lookup_insert_ne by lia; apply HU; lia|];
         intros k Hk; destruct (Nat.eq_dec k i) as [->|Hne];
         [|rewrite list_lookup_insert_ne by congruence; apply HS; lia]).
      * eexists _, s.
        split; [apply list_lookup_insert_eq; eapply lookup_lt_Some; eassumption|].
        split; [|split; [rewrite <- HU by lia; assumption|reflexivity]].
        simpl in *. unfold seeded. simpl.
        apply negb_true_iff in Heqb. rewrite Heqb.
        repeat split; auto; intros ->; simpl in *; congruence.
      * eexists _, s.
        split; [apply list_lookup_insert_eq; eapply lookup_lt_Some; eassumption|].
        split; [|split; [rewrite <- HU by lia; assumption|reflexivity]].
        simpl in *. unfold seeded. simpl.
        apply negb_false_iff in Heqb. rewrite Heqb.
        repeat split; auto; intros ->; simpl in *; congruence.
    + simpl. repeat split; auto. intros k Hk. lia.
  - intros [[arr1 cid] last] (Hc & Hl & HL & HU & HS); simpl in Hc, Hl, HL, HU, HS.
    destruct last as [k|]; [|post_step].
    post_step. simpl. subst cid.
    destruct nAdd as [|k']; simpl in Hl; [discriminate|].
    inversion Hl; subst. auto.
Qed.

(** ** The calendar *)

Lemma Date_make_inr y m d dt :
  Date.make y m d = inr dt ->
  dt = Date.mk y m d /\ 1 <= y <= 9999 /\ 1 <= m <= 12 /\ 1 <= d <= Date.days_in_month y m.
Proof.
  unfold Date.make.
  destruct (Z.leb_spec 1 y), (Z.leb_spec y 9999); simpl; try discriminate.
  destruct (Z.leb_spec 1 m), (Z.leb_spec m 12); simpl; try discriminate.
  destruct (Z.leb_spec 1 d), (Z.leb_spec d (Date.days_in_month y m)); simpl; try discriminate.
  intros E. inversion E. repeat split; assumption.
Qed.

Lemma Date_valid_fields d :
  Date.valid d ->
  1 <= Date.year d <= 9999 /\ 1 <= Date.month d <= 12 /\
  1 <= Date.day d <= Date.days_in_month (Date.year d) (Date.month d).
Proof. intros H. apply Date_make_inr in H. tauto. Qed.

Lemma Date_make_valid y m d dt : Date.make y m d = inr dt -> Date.valid dt.
Proof.
  intros H. destruct (Date_make_inr _ _ _ _ H) as [-> _]. exact H.
Qed.

Lemma month_cases m :
  1 <= m <= 12 ->
  m = 1 \/ m = 2 \/ m = 3 \/ m = 4 \/ m = 5 \/ m = 6 \/
  m = 7 \/ m = 8 \/ m = 9 \/ m = 10 \/ m = 11 \/ m = 12.
Proof. lia. Qed.

Lemma days_before_month_next y m :
  1 <= m <= 11 ->
  Date.days_before_month y (m + 1) = Date.days_before_month y m + Date.days_in_month y m.
Proof.
  intros H. pose proof (month_cases m ltac:(lia)) as C.
  unfold Date.days_before_month, Date.days_in_month.
  repeat (destruct C as [->|C]; [destruct (Date.is_leap y); reflexivity|]).
  lia.
Qed.

Lemma days_in_month_pos y m : 28 <= Date.days_in_month y m.
Proof.
  unfold Date.days_in_month.
  destruct (m =? 2); [destruct (Date.is_leap y); lia|].
  destruct (_ || _); lia.
Qed.

(** The days before a later month include the whole of an earlier one. *)
Lemma days_before_month_mono y m1 m2 :
  1 <= m1 -> m1 < m2 -> m2 <= 12 ->
  Date.days_before_month y m1 + Date.days_in_month y m1 <= Date.days_before_month y m2.
Proof.
  intros H1 H12 H2.
  assert (exists k : nat, m2 = m1 + 1 + Z.of_nat k) as [k ->]
    by (exists (Z.to_nat (m2 - m1 - 1)); lia).
  induction k as [|k IH].
  - rewrite Z.add_0_r. rewrite days_before_month_next by lia. lia.
  - replace (m1 + 1 + Z.of_nat (S k)) with (m1 + 1 + Z.of_nat k + 1) by lia.
    rewrite days_before_month_next by lia.
    pose proof (days_in_month_pos y (m1 + 1 + Z.of_nat k)).
    assert (Date.days_before_month y m1 + Date.days_in_month y m1
            <= Date.days_before_month y (m1 + 1 + Z.of_nat k)) by (apply IH; lia).
    lia.
Qed.

Lemma days_before_month_nonneg y m : 0 <= Date.days_before_month y m.
Proof.
  unfold Date.days_before_month.
  assert (0 <= nth (Z.to_nat m)
                  [0; 0; 31; 59; 90; 120; 151; 181; 212; 243; 273; 304; 334] 0).
  { generalize (Z.to_nat m). intros n.
    do 13 (destruct n as [|n]; [simpl; lia|]). destruct n; simpl; lia. }
  destruct (_ && _); lia.
Qed.

Lemma year_length y :
  Date.days_before_month y 12 + Date.days_in_month y 12
  = 365 + (if Date.is_leap y then 1 else 0).
Proof.
  unfold Date.days_before_month, Date.days_in_month.
  destruct (Date.is_leap y); reflexivity.
Qed.

Lemma days_before_year_next y :
  Date.days_before_year (y + 1)
  = Date.days_before_year y + 365 + (if Date.is_leap y then 1 else 0).
Proof.
  unfold Date.days_before_year, Date.is_leap.
  replace (y + 1 - 1) with y by lia.
  destruct (Z.eqb_spec (y mod 4) 0), (Z.eqb_spec (y mod 100) 0),
           (Z.eqb_spec (y mod 400) 0); simpl;
    Z.div_mod_to_equations; lia.
Qed.

Lemma days_before_year_mono y1 y2 :
  y1 <= y2 -> Date.days_before_year y1 <= Date.days_before_year y2.
Proof.
  intros H. unfold Date.days_before_year. Z.div_mod_to_equations. lia.
Qed.

(** The ordinal orders valid dates the way the comparison does. *)
Lemma toordinal_lt a b :
  Date.valid a -> Date.valid b -> Date.ltb a b = true ->
  Date.toordinal a < Date.toordinal b.
Proof.
  intros Ha Hb H.
  destruct (Date_valid_fields a Ha) as (Hya & Hma & Hda).
  destruct (Date_valid_fields b Hb) as (Hyb & Hmb & Hdb).
  unfold Date.ltb in H. unfold Date.toordinal.
  pose proof (days_before_month_nonneg (Date.year b) (Date.month b)) as Hnb.
  destruct (Z.ltb_spec (Date.year a) (Date.year b)) as [Hy|Hy].
  - assert (Date.days_before_year (Date.year a + 1) <= Date.days_before_year (Date.year b))
      as Hm by (apply days_before_year_mono; lia).
    rewrite days_before_year_next in Hm.
    pose proof (year_length (Date.year a)) as HL.
    assert (Date.days_before_month (Date.year a) (Date.month a)
            + Date.days_in_month (Date.year a) (Date.month a)
            <= Date.days_before_month (Date.year a) 12 + Date.days_in_month (Date.year a) 12)
      as Hlast.
    { destruct (Z.eq_dec (Date.month a) 12) as [->|Hne]; [lia|].
      pose proof (days_before_month_mono (Date.year a) (Date.month a) 12
                    ltac:(lia) ltac:(lia) ltac:(lia)).
      pose proof (days_in_month_pos (Date.year a) 12). lia. }
    lia.
  - simpl in H. apply andb_prop in H. destruct H as [Hye H].
    apply Z.eqb_eq in Hye. rewrite Hye in *.
    destruct (Z.ltb_spec (Date.month a) (Date.month b)) as [Hm|Hm].
    + pose proof (days_before_month_mono (Date.year b) (Date.month a) (Date.month b)
                    ltac:(lia) Hm ltac:(lia)). lia.
    + simpl in H. apply andb_prop in H. destruct H as [Hme Hd].
      apply Z.eqb_eq in Hme. apply Z.ltb_lt in Hd. rewrite Hme. lia.
Qed.

Lemma toordinal_le a b :
  Date.valid a -> Date.valid b -> Date.ltb a b = false ->
  Date.toordinal b <= Date.toordinal a.
Proof.
  intros Ha Hb H.
  destruct (Date.ltb b a) eqn:E.
  - pose proof (toordinal_lt b a Hb Ha E). lia.
  - assert (Date.year a = Date.year b /\ Date.month a = Date.month b /\
            Date.day a = Date.day b) as (E1 & E2 & E3).
    { unfold Date.ltb in *.
      destruct (Z.ltb_spec (Date.year a) (Date.year b)),
               (Z.ltb_spec (Date.year b) (Date.year a)),
               (Z.eqb_spec (Date.year a) (Date.year b)),
               (Z.eqb_spec (Date.year b) (Date.year a)),
               (Z.ltb_spec (Date.month a) (Date.month b)),
               (Z.ltb_spec (Date.month b) (Date.month a)),
               (Z.eqb_spec (Date.month a) (Date.month b)),
               (Z.eqb_spec (Date.month b) (Date.month a)),
               (Z.ltb_spec (Date.day a) (Date.day b)),
               (Z.ltb_spec (Date.day b) (Date.day a));
        simpl in *; try discriminate; lia. }
    unfold Date.toordinal. rewrite E1, E2, E3. lia.
Qed.

Lemma elem_of_zrange a b k : In k (zrange a b) <-> a <= k < b.
Proof.
  unfold zrange. rewrite in_map_iff. split.
  - intros (n & <- & Hn). apply in_seq in Hn. lia.
  - intros H. exists (Z.to_nat (k - a)). split; [lia|]. apply in_seq. lia.
Qed.

Lemma dayMonthToDays_years_spec startDate endDate day month ndays years :
  forall result res,
  dayMonthToDays_years startDate endDate day month ndays years result = inr res ->
  forall d, In d res <->
    In d result \/
    exists year date n,
      In year years /\ Date.make year month day = inr date /\
      Date.ltb date startDate = false /\ Date.ltb endDate date = false /\
      0 <= n < ndays /\ d = Date.days_between date startDate + n.
Proof.
  induction years as [|y ys IH]; simpl; intros result res H d.
  - inversion H; subst. split; [auto|]. intros [Hd|(? & ? & ? & [] & _)]. exact Hd.
  - destruct (Date.make y month day) as [e|date] eqn:Emk; [discriminate|].
    destruct (Date.ltb date startDate || Date.ltb endDate date) eqn:Eout.
    + rewrite (IH _ _ H d). split.
      * intros [Hd|(year & dt & n & Hy & Hrest)]; [auto|]. right. exists year, dt, n. simpl; first [tauto|repeat split; auto; lia].
      * intros [Hd|(year & dt & n & [<-|Hy] & Hm & H1 & H2 & Hrest)]; [auto| |].
        -- assert (dt = date) as -> by congruence. rewrite H1, H2 in Eout. discriminate.
        -- right. exists year, dt, n. simpl; first [tauto|repeat split; auto; lia].
    + apply orb_false_elim in Eout. destruct Eout as [E1 E2].
      rewrite (IH _ _ H d), in_app_iff, in_map_iff. split.
      * intros [[Hd|(n & <- & Hn)]|(year & dt & n & Hy & Hrest)]; [auto| |].
        -- right. exists y, date, n. apply elem_of_zrange in Hn. simpl; first [tauto|repeat split; auto; lia].
        -- right. exists year, dt, n. simpl; first [tauto|repeat split; auto; lia].
      * intros [Hd|(year & dt & n & [<-|Hy] & Hm & H1 & H2 & Hn & ->)]; [auto| |].
        -- assert (dt = date) as -> by congruence. left. right. exists n.
           split; [reflexivity|]. apply elem_of_zrange. lia.
        -- right. exists year, dt, n. simpl; first [tauto|repeat split; auto; lia].
Qed.

Lemma dayMonthToDays_pairs_spec startDate endDate ndays dayMonths :
  forall result res,
  dayMonthToDays_pairs startDate endDate dayMonths ndays result = inr res ->
  forall d, In d res <->
    In d result \/ scheduledOffset startDate endDate dayMonths ndays d.
Proof.
  induction dayMonths as [|[day month] rest IH]; simpl; intros result res H d.
  - inversion H; subst. split; [auto|]. intros [Hd|(? & ? & ? & ? & ? & [] & _)]. exact Hd.
  - destruct (dayMonthToDays_years startDate endDate day month ndays _ result)
      as [e|r1] eqn:Ey; [discriminate|].
    rewrite (IH _ _ H d), (dayMonthToDays_years_spec _ _ _ _ _ _ _ _ Ey d). split.
    + intros [[Hd|(year & dt & n & Hy & Hm & H1 & H2 & Hn & ->)]|Hs]; [auto| |].
      * right. exists day, month, year, dt, n. apply elem_of_zrange in Hy.
        simpl; first [tauto|repeat split; auto; lia].
      * right. destruct Hs as (day' & month' & year & dt & n & Hin & Hrest).
        exists day', month', year, dt, n. simpl; first [tauto|repeat split; auto; lia].
    + intros [Hd|(day' & month' & year & dt & n & [Hin|Hin] & Hy & Hm & Hrest)]; [auto| |].
      * inversion Hin; subst. left. right. exists year, dt, n.
        split; [apply elem_of_zrange; lia|tauto].
      * right. exists day', month', year, dt, n. simpl; first [tauto|repeat split; auto; lia].
Qed.

(** X12: what the schedule holds. When dayMonthToDays returns, its
    result lists exactly the offsets from [startDate] of the dates
    (day, month, year), for the listed pairs and the years from
    [startDate.year] to [endDate.year], that fall between the two dates
    (both included), each followed by the next [ndays - 1] offsets. *)
Theorem schedule_contents (startDate endDate : Date.t) (dayMonths : list (Z * Z))
    (ndays : Z) (res : list Z) :
  dayMonthToDays startDate endDate dayMonths ndays = inr res ->
  forall d, In d res <-> scheduledOffset startDate endDate dayMonths ndays d.
Proof.
  intros H d. unfold dayMonthToDays in H.
  rewrite (dayMonthToDays_pairs_spec _ _ _ _ _ _ H d). simpl. tauto.
Qed.

(** X13: every offset of the schedule is a day from 0 on, and at most
    [ndays - 1] days after [endDate]; with [ndays = 1] it lies between 0
    and the length of the period, the last day included. *)
Theorem schedule_offsets_bounded (startDate endDate : Date.t)
    (dayMonths : list (Z * Z)) (ndays : Z) (res : list Z) :
  Date.valid startDate -> Date.valid endDate ->
  dayMonthToDays startDate endDate dayMonths ndays = inr res ->
  forall d, In d res -> 0 <= d < Date.days_between endDate startDate + ndays.
Proof.
  intros Hs He H d Hd. unfold dayMonthToDays in H.
  apply (dayMonthToDays_pairs_spec _ _ _ _ _ _ H d) in Hd.
  destruct Hd as [[]|(day & month & year & date & n & _ & _ & Hm & H1 & H2 & Hn & ->)].
  pose proof (Date_make_valid _ _ _ _ Hm) as Hv.
  pose proof (toordinal_le _ _ Hv Hs H1).
  pose proof (toordinal_le _ _ He Hv H2).
  unfold Date.days_between. lia.
Qed.

Lemma dayMonthToDays_years_raises startDate endDate day month ndays years :
  forall result,
  (exists e, dayMonthToDays_years startDate endDate day month ndays years result = inl e) <->
  (exists year e, In year years /\ Date.make year month day = inl e).
Proof.
  induction years as [|y ys IH]; simpl; intros result.
  - split; [intros [e H]; discriminate|intros (? & ? & [] & _)].
  - destruct (Date.make y month day) as [e|date] eqn:Emk.
    + split; [intros _; exists y, e; auto|intros _; exists e; reflexivity].
    + destruct (_ || _); rewrite IH; (split;
        [intros (year & e & Hy & Hm); exists year, e; auto
        |intros (year & e & [<-|Hy] & Hm); [congruence|exists year, e; auto]]).
Qed.

(** X14: dayMonthToDays raises ValueError exactly when one of the pairs
    is not a date in one of the years from [startDate.year] to
    [endDate.year]: the date is built before it is compared with the
    period, so a year inside the range fails even when its date would
    lie outside the period. *)
Theorem schedule_raises_iff (startDate endDate : Date.t) (dayMonths : list (Z * Z))
    (ndays : Z) :
  (exists e, dayMonthToDays startDate endDate dayMonths ndays = inl e) <->
  (exists day month year e,
     In (day, month) dayMonths /\
     Date.year startDate <= year <= Date.year endDate /\
     Date.make year month day = inl e).
Proof.
  unfold dayMonthToDays. generalize (@nil Z).
  induction dayMonths as [|[day month] rest IH]; simpl; intros result.
  - split; [intros [e H]; discriminate|intros (? & ? & ? & ? & [] & _)].
  - destruct (dayMonthToDays_years startDate endDate day month ndays _ result)
      as [e|r1] eqn:Ey.
    + split; [intros _|intros _; exists e; reflexivity].
      destruct (proj1 (dayMonthToDays_years_raises _ _ _ _ _ _ _) (ex_intro _ e Ey))
        as (year & e' & Hy & Hm).
      exists day, month, year, e'. apply elem_of_zrange in Hy. simpl; first [tauto|repeat split; auto; lia].
    + rewrite IH. split.
      * intros (d' & m' & year & e & Hin & Hrest). exists d', m', year, e. simpl; first [tauto|repeat split; auto; lia].
      * intros (d' & m' & year & e & [Hin|Hin] & Hy & Hm);
          [|exists d', m', year, e; auto].
        inversion Hin; subst.
        destruct (proj2 (dayMonthToDays_years_raises startDate endDate d' m' ndays
                           (zrange (Date.year startDate) (Date.year endDate + 1)) result))
          as [e2 He2].
        { exists year, e. split; [apply elem_of_zrange; lia|exact Hm]. }
        congruence.
Qed.

(** ** The random variates *)

Lemma Qfloor_unique (q : Q) (n : Z) :
  (inject_Z n <= q)%Q -> (q < inject_Z n + 1)%Q -> Qfloor q = n.
Proof.
  intros H1 H2.
  pose proof (Qfloor_le q) as Hf1. pose proof (Qlt_floor q) as Hf2.
  rewrite inject_Z_plus in Hf2. change (inject_Z 1) with 1%Q in Hf2.
  assert (Qfloor q < n + 1).
  { rewrite Zlt_Qlt, inject_Z_plus. change (inject_Z 1) with 1%Q. lra. }
  assert (n < Qfloor q + 1).
  { rewrite Zlt_Qlt, inject_Z_plus. change (inject_Z 1) with 1%Q. lra. }
  lia.
Qed.

Lemma py_int_nonneg (q : Q) : (0 <= q)%Q -> py_int q = Qfloor q.
Proof.
  intros H. unfold py_int. apply Qle_bool_iff in H. rewrite H. reflexivity.
Qed.

(** Rounding moves a value by at most one half. *)
Lemma np_round_close (q : Q) :
  (q - (1 # 2) <= inject_Z (np_round q))%Q /\ (inject_Z (np_round q) <= q + (1 # 2))%Q.
Proof.
  unfold np_round.
  pose proof (Qfloor_le q) as Hf1. pose proof (Qlt_floor q) as Hf2.
  set (f := Qfloor q) in *.
  rewrite inject_Z_plus in Hf2. change (inject_Z 1) with 1%Q in Hf2.
  destruct (Qlt_bool (q - inject_Z f) (1 # 2)) eqn:E1.
  - apply Qlt_bool_true in E1. lra.
  - apply Qlt_bool_false in E1.
    destruct (Qlt_bool (1 # 2) (q - inject_Z f)) eqn:E2.
    + rewrite inject_Z_plus. change (inject_Z 1) with 1%Q. lra.
    + apply Qlt_bool_false in E2. destruct (Z.even f).
      * lra.
      * rewrite inject_Z_plus. change (inject_Z 1) with 1%Q. lra.
Qed.

Lemma np_round_near (q : Q) (n : Z) :
  (inject_Z n - (1 # 2) < q)%Q -> (q < inject_Z n + (1 # 2))%Q -> np_round q = n.
Proof.
  intros H1 H2. destruct (np_round_close q) as [A B].
  assert (np_round q < n + 1).
  { rewrite Zlt_Qlt, inject_Z_plus. change (inject_Z 1) with 1%Q. lra. }
  assert (n < np_round q + 1).
  { rewrite Zlt_Qlt, inject_Z_plus. change (inject_Z 1) with 1%Q. lra. }
  lia.
Qed.

(** [np.random.uniform(lo, hi)] stays in the range. *)
Lemma uniform_value (lo hi u : Q) :
  (lo <= hi)%Q -> unitDraw u ->
  (lo <= lo + (hi - lo) * u)%Q /\ (lo + (hi - lo) * u <= hi)%Q /\
  ((lo < hi)%Q -> (lo + (hi - lo) * u < hi)%Q).
Proof.
  intros H [U0 U1]. repeat split; [nra|nra|intros Hlt; nra].
Qed.

(** X15: getRandomVariates on a stream of raw draws of [0, 1). It
    consumes eight draws; with ordered ranges (and a non-empty integer
    range for the habituation days) every variate lies in its range:
    [nAdd] is the integer part of its sample, the spacing is a multiple
    of ten within five of its range, the habituation days are an integer
    of [low, high). The release dates are those of the parameters
    whatever the coin says: the flag drawn for them is overwritten. *)
Theorem variates_in_range (num : Numerics) (params : PheromoneParams.t)
    (u1 u2 u3 u4 u5 u6 u7 u8 : Q) (rest : Draws) :
  unitDraw u1 -> unitDraw u3 -> unitDraw u4 -> unitDraw u5 -> unitDraw u6 ->
  unitDraw u7 -> unitDraw u8 ->
  (0 <= fst (PheromoneParams.meanNAdd params))%Q ->
  ordered (PheromoneParams.meanNAdd params) ->
  ordered (PheromoneParams.decoySpacing params) ->
  ordered (PheromoneParams.COA_decay_spatial params) ->
  ordered (PheromoneParams.COA_decay_temporal params) ->
  ordered (PheromoneParams.alphaK params) ->
  fst (PheromoneParams.habituationDays params) < snd (PheromoneParams.habituationDays params) ->
  exists v,
    getRandomVariates num params (u1 :: u2 :: u3 :: u4 :: u5 :: u6 :: u7 :: u8 :: rest)
      = Ok v rest /\
    (fst (PheromoneParams.meanNAdd params) - 1 < inject_Z (Variates.nAdd v))%Q /\
    (inject_Z (Variates.nAdd v) <= snd (PheromoneParams.meanNAdd params))%Q /\
    Variates.pheromoneReleaseDayMonths v = PheromoneParams.pheromoneReleaseDayMonths params /\
    (exists k, Variates.spacing v = (inject_Z k * 10)%Q) /\
    (fst (PheromoneParams.decoySpacing params) - 5 <= Variates.spacing v)%Q /\
    (Variates.spacing v <= snd (PheromoneParams.decoySpacing params) + 5)%Q /\
    within (PheromoneParams.COA_decay_spatial params) (Variates.COA_decay_spatial v) /\
    within (PheromoneParams.COA_decay_temporal params) (Variates.COA_decay_temporal v) /\
    within (PheromoneParams.alphaK params) (Variates.alphaK v) /\
    fst (PheromoneParams.habituationDays params) <= Variates.habituationDays v
      < snd (PheromoneParams.habituationDays params).
Proof.
  intros U1 U3 U4 U5 U6 U7 U8 Hn0 On Os Ocs Oct Oa Hh.
  unfold getRandomVariates, uniform, binomial1, randint, bind, draw, ret.
  destruct (Z.leb_spec (snd (PheromoneParams.habituationDays params))
                       (fst (PheromoneParams.habituationDays params))) as [Hbad|_]; [lia|].
  eexists. split; [reflexivity|].
  cbn [Variates.nAdd Variates.pheromoneReleaseDayMonths Variates.spacing Variates.alphaK
       Variates.COA_decay_spatial Variates.COA_decay_temporal Variates.habituationDays].
  destruct (uniform_value _ _ u1 On U1) as (A1 & A2 & _).
  destruct (uniform_value _ _ u3 Os U3) as (B1 & B2 & _).
  destruct (uniform_value _ _ u4 Ocs U4) as (C1 & C2 & _).
  destruct (uniform_value _ _ u5 Oct U5) as (D1 & D2 & _).
  destruct (uniform_value _ _ u8 Oa U8) as (E1 & E2 & _).
  split; [|split].
  { rewrite py_int_nonneg by lra.
    pose proof (Qlt_floor (fst (PheromoneParams.meanNAdd params)
                 + (snd (PheromoneParams.meanNAdd params)
                    - fst (PheromoneParams.meanNAdd params)) * u1)) as Hf.
    rewrite inject_Z_plus in Hf. change (inject_Z 1) with 1%Q in Hf. lra. }
  { rewrite py_int_nonneg by lra.
    pose proof (Qfloor_le (fst (PheromoneParams.meanNAdd params)
                 + (snd (PheromoneParams.meanNAdd params)
                    - fst (PheromoneParams.meanNAdd params)) * u1)) as Hf. lra. }
  split; [reflexivity|].
  split; [eexists; reflexivity|].
  unfold np_round_tens.
  match goal with
  | |- context [np_round ?q] => destruct (np_round_close q) as [R1 R2]
  end.
  split; [|split].
  { set (raw := (fst (PheromoneParams.decoySpacing params)
                 + (snd (PheromoneParams.decoySpacing params)
                    - fst (PheromoneParams.decoySpacing params)) * u3)%Q) in *.
    set (r := np_round (raw / 10)) in *.
    unfold Qdiv in R1. change (/ 10)%Q with (1 # 10)%Q in R1. lra. }
  { set (raw := (fst (PheromoneParams.decoySpacing params)
                 + (snd (PheromoneParams.decoySpacing params)
                    - fst (PheromoneParams.decoySpacing params)) * u3)%Q) in *.
    set (r := np_round (raw / 10)) in *.
    unfold Qdiv in R2. change (/ 10)%Q with (1 # 10)%Q in R2. lra. }
  split; [split; assumption|]. split; [split; assumption|]. split; [split; assumption|].
  destruct U6 as [V0 V1].
  set (w := snd (PheromoneParams.habituationDays params)
            - fst (PheromoneParams.habituationDays params)) in *.
  assert (0 < inject_Z w)%Q as Hw.
  { change 0%Q with (inject_Z 0). rewrite <- Zlt_Qlt. unfold w. lia. }
  assert (0 <= Qfloor (u6 * inject_Z w)).
  { change 0 with (Qfloor (inject_Z 0)). apply Qfloor_resp_le.
    change (inject_Z 0) with 0%Q. nra. }
  assert (Qfloor (u6 * inject_Z w) < w).
  { rewrite Zlt_Qlt. pose proof (Qfloor_le (u6 * inject_Z w)). nra. }
  unfold w in *. lia.
Qed.

(** X16: with the ranges params.py ships, two of the "random" variates
    are constants: whatever the draws, the lure spacing is 300 (every
    value of the range [300, 301] rounds to 300) and the habituation
    lasts 19 days ([randint(19, 20)]); the release dates are both dates
    of the parameters, and [nAdd] is 6 or 7 (7 only for a sample equal
    to the upper end of its range). *)
Theorem default_variates_are_constant (num : Numerics)
    (u1 u2 u3 u4 u5 u6 u7 u8 : Q) (rest : Draws) :
  unitDraw u1 -> unitDraw u3 -> unitDraw u6 ->
  exists v,
    getRandomVariates num defaultParams
      (u1 :: u2 :: u3 :: u4 :: u5 :: u6 :: u7 :: u8 :: rest) = Ok v rest /\
    6 <= Variates.nAdd v <= 7 /\ Variates.spacing v = 300%Q /\
    Variates.habituationDays v = 19 /\
    Variates.pheromoneReleaseDayMonths v = [(15, 9); (15, 11)].
Proof.
  intros [A0 A1] [B0 B1] [C0 C1].
  unfold getRandomVariates, uniform, binomial1, randint, bind, draw, ret.
  cbn [defaultParams PheromoneParams.meanNAdd PheromoneParams.decoySpacing
       PheromoneParams.habituationDays PheromoneParams.pheromoneReleaseDayMonths
       PheromoneParams.COA_decay_spatial PheromoneParams.COA_decay_temporal
       PheromoneParams.PAnnualSurv PheromoneParams.alphaK fst snd].
  change (20 <=? 19) with false. cbv iota.
  eexists. split; [reflexivity|].
  cbn [Variates.nAdd Variates.pheromoneReleaseDayMonths Variates.spacing
       Variates.habituationDays].
  split; [|split; [|split; [|reflexivity]]].
  - rewrite py_int_nonneg by lra. rewrite (Qfloor_unique _ 6); [lia| |].
    + change (inject_Z 6) with 6%Q. lra.
    + change (inject_Z 6) with 6%Q. lra.
  - unfold np_round_tens.
    rewrite (np_round_near _ 30).
    + reflexivity.
    + change (inject_Z 30) with 30%Q. unfold Qdiv. change (/ 10)%Q with (1 # 10)%Q. lra.
    + change (inject_Z 30) with 30%Q. unfold Qdiv. change (/ 10)%Q with (1 # 10)%Q. lra.
  - rewrite (Qfloor_unique _ 0); [reflexivity| |].
    + change (inject_Z 0) with 0%Q. change (inject_Z (20 - 19)) with 1%Q. lra.
    + change (inject_Z 0) with 0%Q. change (inject_Z (20 - 19)) with 1%Q. lra.
Qed.

(** ** The lure grid *)

Lemma py_range_inr start stop step l :
  py_range start stop step = inr l -> step <> 0.
Proof.
  unfold py_range. destruct (Z.eqb_spec step 0); [discriminate|auto].
Qed.

Lemma py_range_total start stop step :
  step <> 0 -> exists l, py_range start stop step = inr l.
Proof.
  intros H. unfold py_range. destruct (Z.eqb_spec step 0); [contradiction|eauto].
Qed.

(** With a positive step, [range] lists the values of the half-open
    interval that lie a multiple of the step after the start. *)
Lemma py_range_pos start stop step l :
  0 < step -> py_range start stop step = inr l ->
  forall v, In v l <-> (start <= v < stop /\ (v - start) mod step = 0).
Proof.
  intros Hs H v. unfold py_range in H.
  destruct (Z.eqb_spec step 0); [lia|].
  destruct (Z.ltb_spec 0 step); [|lia].
  inversion H; subst l; clear H.
  rewrite in_map_iff. split.
  - intros (k & <- & Hk). apply in_seq in Hk.
    assert (Z.of_nat k < (stop - start + step - 1) / step) as Hlt by lia.
    assert (Z.of_nat k * step < stop - start).
    { assert (Z.of_nat k + 1 <= (stop - start + step - 1) / step) as Hle by lia.
      apply (Z.mul_le_mono_nonneg_r _ _ step) in Hle; [|lia].
      pose proof (Z.mul_div_le (stop - start + step - 1) step Hs). lia. }
    split; [lia|].
    replace (start + Z.of_nat k * step - start) with (Z.of_nat k * step) by lia.
    apply Z.mod_mul. lia.
  - intros [[H1 H2] Hm].
    apply Z.mod_divide in Hm; [|lia]. destruct Hm as [q Hq].
    assert (0 <= q) by nia.
    exists (Z.to_nat q). split; [lia|]. apply in_seq.
    assert (q + 1 <= (stop - start + step - 1) / step); [|lia].
    apply Z.div_le_lower_bound; [lia|]. nia.
Qed.

Lemma makePheromoneArray_row_spec mask tinverse y xs :
  forall stations res,
  makePheromoneArray_row mask tinverse y xs stations = inr res ->
  forall ph, In ph res <->
    In ph stations \/
    exists x, In x xs /\ stationAt mask tinverse x y = inr true /\
              ph = Pheromone.mk (inject_Z x) (inject_Z y).
Proof.
  induction xs as [|x xs IH]; simpl; intros stations res H ph.
  - inversion H; subst. split; [auto|]. intros [Hp|(? & [] & _)]. exact Hp.
  - destruct (stationAt mask tinverse x y) as [e|b] eqn:Es; [discriminate|].
    rewrite (IH _ _ H ph). destruct b.
    + rewrite in_app_iff. simpl. split.
      * intros [[Hp|[<-|[]]]|(x' & Hx & Hrest)]; [auto| |].
        -- right. exists x. auto.
        -- right. exists x'. tauto.
      * intros [Hp|(x' & [<-|Hx] & Hs' & ->)]; [auto| |].
        -- left. right. left. reflexivity.
        -- right. exists x'. auto.
    + split.
      * intros [Hp|(x' & Hx & Hrest)]; [auto|]. right. exists x'. tauto.
      * intros [Hp|(x' & [<-|Hx] & Hs' & ->)]; [auto|congruence|].
        right. exists x'. auto.
Qed.

Lemma makePheromoneArray_rows_spec mask tinverse xl ys :
  forall stations res,
  makePheromoneArray_rows mask tinverse ys (inr xl) stations = inr res ->
  forall ph, In ph res <->
    In ph stations \/
    exists x y, In x xl /\ In y ys /\ stationAt mask tinverse x y = inr true /\
                ph = Pheromone.mk (inject_Z x) (inject_Z y).
Proof.
  induction ys as [|y ys IH]; simpl; intros stations res H ph.
  - inversion H; subst. split; [auto|]. intros [Hp|(? & ? & _ & [] & _)]. exact Hp.
  - destruct (makePheromoneArray_row mask tinverse y xl stations) as [e|r1] eqn:Er;
      [discriminate|].
    rewrite (IH _ _ H ph), (makePheromoneArray_row_spec _ _ _ _ _ _ Er ph). split.
    + intros [[Hp|(x & Hx & Hs & ->)]|(x & y' & Hx & Hy & Hrest)]; [auto| |].
      * right. exists x, y. auto.
      * right. exists x, y'. tauto.
    + intros [Hp|(x & y' & Hx & [<-|Hy] & Hs & ->)]; [auto| |].
      * left. right. exists x. auto.
      * right. exists x, y'. auto.
Qed.

(** X17: what the lure grid holds. When makePheromoneArray returns,
    its stations are exactly the points of the two grid ranges at whose
    pixel (the inverse transform, truncated) the mask is positive, with
    their integer coordinates. *)
Theorem lure_grid_contents (isl : Island) (spacing : Q) (transform : GeoTransform)
    (stations : list Pheromone.t) :
  makePheromoneArray isl spacing transform = inr stations ->
  forall ph, In ph stations <->
    exists x y, gridPoint isl spacing x y /\
      stationAt (mask isl) (InvGeoTransform transform) x y = inr true /\
      ph = Pheromone.mk (inject_Z x) (inject_Z y).
Proof.
  intros H ph. unfold makePheromoneArray in H.
  destruct (py_range (py_int (bry isl + spacing)) (py_int (tly isl)) (py_int spacing))
    as [e|ys] eqn:Ey; [discriminate|].
  destruct (py_range_total (py_int (tlx isl)) (py_int (brx isl)) (py_int spacing)
              (py_range_inr _ _ _ _ Ey)) as [xs Ex].
  rewrite Ex in H.
  rewrite (makePheromoneArray_rows_spec _ _ _ _ _ _ H ph). unfold gridPoint. split.
  - intros [[]|(x & y & Hx & Hy & Hs & ->)]. exists x, y.
    split; [exists xs, ys; auto|auto].
  - intros (x & y & (xs' & ys' & Ex' & Ey' & Hx & Hy) & Hs & ->).
    right. exists x, y. rewrite Ex in Ex'. rewrite Ey in Ey'.
    inversion Ex'; inversion Ey'; subst. auto.
Qed.

(** X18: with a spacing of at least one metre every station lies on
    the integer lattice of step [int(spacing)] anchored at
    ([int(tlx)], [int(bry + spacing)]), west of [int(brx)] and south of
    [int(tly)]. *)
Theorem lure_grid_lattice (isl : Island) (spacing : Q) (transform : GeoTransform)
    (stations : list Pheromone.t) :
  0 < py_int spacing ->
  makePheromoneArray isl spacing transform = inr stations ->
  forall ph, In ph stations ->
    exists x y,
      ph = Pheromone.mk (inject_Z x) (inject_Z y) /\
      py_int (tlx isl) <= x < py_int (brx isl) /\
      py_int (bry isl + spacing) <= y < py_int (tly isl) /\
      (x - py_int (tlx isl)) mod py_int spacing = 0 /\
      (y - py_int (bry isl + spacing)) mod py_int spacing = 0.
Proof.
  intros Hs H ph Hph. unfold makePheromoneArray in H.
  destruct (py_range (py_int (bry isl + spacing)) (py_int (tly isl)) (py_int spacing))
    as [e|ys] eqn:Ey; [discriminate|].
  destruct (py_range_total (py_int (tlx isl)) (py_int (brx isl)) (py_int spacing)
              (py_range_inr _ _ _ _ Ey)) as [xs Ex].
  rewrite Ex in H.
  apply (makePheromoneArray_rows_spec _ _ _ _ _ _ H ph) in Hph.
  destruct Hph as [[]|(x & y & Hx & Hy & _ & ->)].
  apply (py_range_pos _ _ _ _ Hs Ex) in Hx.
  apply (py_range_pos _ _ _ _ Hs Ey) in Hy.
  exists x, y. tauto.
Qed.

Lemma py_int_small (q : Q) : (-1 < q)%Q -> (q < 1)%Q -> py_int q = 0.
Proof.
  intros H1 H2. unfold py_int. destruct (Qle_bool 0 q) eqn:E.
  - apply Qle_bool_iff in E. apply Qfloor_unique; change (inject_Z 0) with 0%Q; lra.
  - assert (q < 0)%Q as Hneg.
    { apply Qnot_le_lt. intros Hle. apply Qle_bool_iff in Hle. congruence. }
    unfold Qceiling. rewrite (Qfloor_unique (- q) 0); [reflexivity| |]; change (inject_Z 0) with 0%Q; lra.
Qed.

(** X19: a spacing strictly between -1 and 1 truncates to a step of 0,
    and makePheromoneArray raises the ValueError of [range]. *)
Theorem lure_grid_zero_step (isl : Island) (spacing : Q) (transform : GeoTransform) :
  (-1 < spacing)%Q -> (spacing < 1)%Q ->
  makePheromoneArray isl spacing transform
  = inl (EngineError (ValueError "range() arg 3 must not be zero")).
Proof.
  intros H1 H2. unfold makePheromoneArray, py_range.
  rewrite (py_int_small spacing H1 H2). reflexivity.
Qed.

(** ** The attraction search *)

Lemma sat_fdiv a b (Q : Q -> Prop) (R : Error -> Prop) :
  R ZeroDivisionError -> (forall v, Q v) -> sat (fdiv a b) Q R.
Proof.
  intros HR H. unfold fdiv. destruct (Qeq_bool b 0); [apply sat_raise, HR|apply sat_ret, H].
Qed.

(** The size test after a write into the temporary arrays never fires:
    a write that stays in the arrays leaves the count within them. *)
Lemma sat_pushCandidate msg size cands c (R : Error -> Prop) :
  sat (pushCandidate msg size cands c) (fun cands' => cands' = cands ++ [c]) R.
Proof.
  unfold pushCandidate. destruct (Nat.ltb_spec (length cands) size) as [H|H].
  - destruct (Nat.ltb_spec size (length (cands ++ [c]))) as [H2|H2].
    + rewrite length_app in H2. simpl in H2. lia.
    + apply sat_ret. reflexivity.
  - apply sat_fault.
Qed.

Lemma firstSelected_In COAi cands c : firstSelected COAi cands = Some c -> In c cands.
Proof.
  revert cands. induction COAi as [|v COAi IH]; intros [|k cands] H; simpl in H;
    try discriminate.
  destruct (0 <? v); [inversion H; subst; left; reflexivity|].
  right. apply IH. exact H.
Qed.

(** X20: the attraction search is sound. The centre of attraction it
    returns is the position of a live independent agent of the sought
    sex in range that has no mating row with the seeker, or, once a
    release has happened, of a lure station in range the seeker is not
    habituated to. *)
Theorem attraction_search_sound (num : Numerics) (lookingForMale : bool) (x y : Q)
    (stoatArray : list Stoat.t) (nStoats : nat) (stoatid : Z)
    (COA_radius COA_decay_spatial COA_decay_temporal minK : Q)
    (daysSincePheromoneRelease : Z) (pheromoneArray : list Pheromone.t)
    (pheromoneInteractionArray : list Interaction.t) (matingArray : list Mating.t) :
  post (checkForEstrousMatesAndDecoysInRadius num lookingForMale x y stoatArray nStoats
          stoatid COA_radius COA_decay_spatial COA_decay_temporal minK
          daysSincePheromoneRelease pheromoneArray pheromoneInteractionArray matingArray)
       (fun r => forall c, r = Some c ->
          mateCandidate num lookingForMale x y stoatArray nStoats stoatid COA_radius
                        matingArray c \/
          (daysSincePheromoneRelease <> -1 /\
           lureCandidate num x y stoatid COA_radius pheromoneArray
                         pheromoneInteractionArray c)).
Proof.
  apply sat_post.
  unfold checkForEstrousMatesAndDecoysInRadius.
  set (P := fun c : Candidate =>
         mateCandidate num lookingForMale x y stoatArray nStoats stoatid COA_radius
                       matingArray c \/
         (daysSincePheromoneRelease <> -1 /\
          lureCandidate num x y stoatid COA_radius pheromoneArray
                        pheromoneInteractionArray c)).
  apply sat_bind.
  apply sat_mono with (P := Forall P).
  { unfold forRange.
    apply sat_forEach_break with (I := Forall P) (J := Forall P); auto.
    intros i cands Hi Hc. apply in_seq in Hi.
    sat_step. sat_step. sat_step; [|sat_step; exact Hc].
    sat_step; [|sat_step; exact Hc].
    sat_step; [|sat_step; exact Hc].
    sat_step. apply sat_fdiv; [exact I|]. intros invK.
    sat_step. eapply sat_mono; [apply sat_pushCandidate|].
    intros cands' ->. sat_step. apply Forall_app. split; [exact Hc|].
    constructor; [|constructor]. left.
    repeat match goal with
    | H : _ && _ = true |- _ => apply andb_prop in H; destruct H
    end.
    match goal with Hs : stoatArray !! i = Some ?s |- _ => exists i, s end.
    repeat split; simpl; auto; try lia;
      first [apply negb_true_iff; assumption
            |apply Z.eqb_eq; assumption
            |apply eqb_prop; assumption]. }
  intros cands Hc.
  apply sat_bind.
  apply sat_mono with (P := Forall P).
  { sat_step; [|sat_step; exact Hc].
    unfold forRange.
    apply sat_forEach_break with (I := Forall P) (J := Forall P); auto.
    intros i cands1 Hi Hc1.
    destruct (pheromoneArray !! i) as [ph|] eqn:Eph; [|apply sat_fault].
    sat_step; [|sat_step; exact Hc1].
    sat_step; [|sat_step; exact Hc1].
    sat_step. apply sat_fdiv; [exact I|]. intros invK.
    sat_step. eapply sat_mono; [apply sat_pushCandidate|].
    intros cands' ->. sat_step. apply Forall_app. split; [exact Hc1|].
    constructor; [|constructor]. right. split.
    - apply negb_true_iff in Heqb. intros E. rewrite E in Heqb. discriminate.
    - exists i, ph. repeat split; simpl; auto. apply negb_true_iff. assumption. }
  intros cands2 Hc2.
  destruct cands2 as [|c0 cands2]; [apply sat_ret; discriminate|].
  destruct (Qeq_bool _ 0); [apply sat_raise; exact I|].
  apply sat_bind. apply sat_draw. intros u. apply sat_ret.
  intros c E. apply firstSelected_In in E.
  rewrite Forall_forall in Hc2. apply Hc2. apply list_elem_of_In. exact E.
Qed.

Lemma post_pushCandidate msg size cands c :
  post (pushCandidate msg size cands c) (fun cands' => cands' = cands ++ [c]).
Proof. apply sat_post. apply sat_pushCandidate. Qed.

(** The multinomial draw selects one of the candidates. *)
Lemma firstSelected_multinomial1 (g : Candidate -> Q) (cands : list Candidate) :
  cands <> [] -> forall u, firstSelected (multinomial1 (map g cands) u) cands <> None.
Proof.
  induction cands as [|c cands IH]; [congruence|]. intros _ u.
  destruct cands as [|c' cands]; [simpl; discriminate|].
  change (map g (c :: c' :: cands)) with (g c :: map g (c' :: cands)).
  change (multinomial1 (g c :: map g (c' :: cands)) u)
    with (if Qlt_bool u (g c) then 1 :: map (fun _ => 0) (map g (c' :: cands))
          else 0 :: multinomial1 (map g (c' :: cands)) (u - g c)%Q).
  destruct (Qlt_bool u (g c)); [simpl; discriminate|].
  change (firstSelected (0 :: ?l) (c :: ?k)) with (firstSelected l k).
  apply IH. discriminate.
Qed.

Lemma app_not_nil {A} (l : list A) (a : A) : l ++ [a] <> [].
Proof. destruct l; discriminate. Qed.

(** X21: the attraction search is complete. When a live independent
    agent of the sought sex in range has no mating row with the seeker,
    or, after a release, a station in range is not in the seeker's
    habituation rows, a search that returns does not return [None]. *)
Theorem attraction_search_complete (num : Numerics) (lookingForMale : bool) (x y : Q)
    (stoatArray : list Stoat.t) (nStoats : nat) (stoatid : Z)
    (COA_radius COA_decay_spatial COA_decay_temporal minK : Q)
    (daysSincePheromoneRelease : Z) (pheromoneArray : list Pheromone.t)
    (pheromoneInteractionArray : list Interaction.t) (matingArray : list Mating.t) :
  (exists c, mateCandidate num lookingForMale x y stoatArray nStoats stoatid COA_radius
                           matingArray c) \/
  (daysSincePheromoneRelease <> -1 /\
   exists c, lureCandidate num x y stoatid COA_radius pheromoneArray
                           pheromoneInteractionArray c) ->
  post (checkForEstrousMatesAndDecoysInRadius num lookingForMale x y stoatArray nStoats
          stoatid COA_radius COA_decay_spatial COA_decay_temporal minK
          daysSincePheromoneRelease pheromoneArray pheromoneInteractionArray matingArray)
       (fun r => r <> None).
Proof.
  intros Hex. unfold checkForEstrousMatesAndDecoysInRadius.
  assert (forall cands : list Candidate, cands <> [] ->
    post (match cands with
          | [] => ret None
          | _ :: _ =>
              if Qeq_bool (fold_left Qplus (map snd cands) 0%Q) 0
              then raise ZeroDivisionError
              else
                let* u := draw in
                ret (firstSelected
                       (multinomial1
                          (map (fun k : Q => (k / fold_left Qplus (map snd cands) 0)%Q)
                               (map snd cands)) u) cands)
          end) (fun r => r <> None)) as Hfinal.
  { intros cands Hne. destruct cands as [|c0 cands]; [congruence|].
    post_step; [post_step|]. post_step. post_step. post_step.
    rewrite map_map. apply firstSelected_multinomial1. discriminate. }
  destruct Hex as [(c & i0 & si & Hi0 & Es & Hd & Hp & Hsex & Hdist & Hmated & _)
                  |(Hrel & c & i0 & ph & Eph & Hdist & Hint & _)].
  - apply post_bind.
    apply post_mono with (P := fun cands : list Candidate => cands <> []).
    { eapply post_mono.
      - apply post_forRange_idx
          with (I := fun (i : nat) (cands : list Candidate) => (i0 < i)%nat -> cands <> []).
        + intros i cands Hi HI. post_step. post_step.
          destruct (Nat.eq_dec i i0) as [->|Hne].
          * assert (s = si) as -> by congruence.
            rewrite Hd, Hp, Hsex, Hdist, Hmated, eqb_reflx. simpl.
            post_step. post_step. post_call post_pushCandidate.
            intros cands' ->. post_step. intros _. apply app_not_nil.
          * assert ((i0 < S i)%nat -> cands <> []) as HI' by (intros; apply HI; lia).
            post_step; [|post_step; exact HI'].
            post_step; [|post_step; exact HI'].
            post_step; [|post_step; exact HI'].
            post_step. post_step. post_call post_pushCandidate.
            intros cands' ->. post_step. intros _. apply app_not_nil.
        + intros H. lia.
      - intros cands HI. apply HI. exact Hi0. }
    intros cands Hne.
    apply post_bind.
    apply post_mono with (P := fun cands : list Candidate => cands <> []);
      [|exact Hfinal].
    post_step; [|post_step; exact Hne].
    apply post_forRange with (I := fun cands : list Candidate => cands <> []);
      [|exact Hne].
    intros i cands1 _ H1. post_step; [|post_step].
    post_step; [|post_step; exact H1].
    post_step; [|post_step; exact H1].
    post_step. post_step. post_call post_pushCandidate.
    intros cands' ->. post_step. apply app_not_nil.
  - apply post_bind, post_any. intros cands.
    apply post_bind.
    apply post_mono with (P := fun cands : list Candidate => cands <> []);
      [|exact Hfinal].
    destruct (Z.eqb_spec daysSincePheromoneRelease (-1)) as [E|_]; [contradiction|].
    simpl negb. cbv iota.
    assert (i0 < length pheromoneArray)%nat as Hi0 by (eapply lookup_lt_Some; exact Eph).
    eapply post_mono.
    + apply post_forRange_idx
        with (I := fun (i : nat) (cands : list Candidate) => (i0 < i)%nat -> cands <> []).
      * intros i cands1 Hi HI.
        destruct (Nat.eq_dec i i0) as [->|Hne].
        -- rewrite Eph, Hdist, Hint. simpl.
           post_step. post_step. post_call post_pushCandidate.
           intros cands' ->. post_step. intros _. apply app_not_nil.
        -- assert ((i0 < S i)%nat -> cands1 <> []) as HI' by (intros; apply HI; lia).
           post_step; [|post_step].
           post_step; [|post_step; exact HI'].
           post_step; [|post_step; exact HI'].
           post_step. post_step. post_call post_pushCandidate.
           intros cands' ->. post_step. intros _. apply app_not_nil.
      * intros H. lia.
    + intros cands1 HI. apply HI. exact Hi0.
Qed.

(** ** The choice of a partner *)

(** X22: what doMaleMating does. Either no slot in use holds a partner
    for the male, and then it returns [False] and leaves both tables
    alone; or it returns [True] after entering one row, for the partner
    in the lowest slot: a male mates at most once per call. The agent
    table keeps its slots, sexes and ids. *)
Theorem male_mates_first_partner (num : Numerics) (x y : Q) (stoatid : Z)
    (stoatArray : list Stoat.t) (nStoats : nat) (encounterDistance : Q)
    (matingArray : list Mating.t) (habituationDays day : Z) (probPregnacy : Q) :
  post (doMaleMating num x y stoatid stoatArray nStoats encounterDistance matingArray
          habituationDays day probPregnacy)
       (fun r =>
          (r = (false, stoatArray, matingArray) /\
           forall j sj, (j < nStoats)%nat -> stoatArray !! j = Some sj ->
             ~ matingPartner num x y stoatid encounterDistance matingArray sj) \/
          (fst (fst r) = true /\ keyRel stoatArray (snd (fst r)) /\
           exists i si,
             (i < nStoats)%nat /\ stoatArray !! i = Some si /\
             matingPartner num x y stoatid encounterDistance matingArray si /\
             (forall j sj, (j < i)%nat -> stoatArray !! j = Some sj ->
                ~ matingPartner num x y stoatid encounterDistance matingArray sj) /\
             addMating matingArray stoatid (Stoat.id si) habituationDays = Some (snd r))).
Proof.
  unfold doMaleMating.
  set (partner := matingPartner num x y stoatid encounterDistance matingArray).
  apply post_forRange_idx_break with
    (I := fun (i : nat) (r : bool * list Stoat.t * list Mating.t) =>
            r = (false, stoatArray, matingArray) /\
            forall j sj, (j < i)%nat -> stoatArray !! j = Some sj -> ~ partner sj)
    (J := fun r : bool * list Stoat.t * list Mating.t =>
            fst (fst r) = true /\ keyRel stoatArray (snd (fst r)) /\
            exists i si,
              (i < nStoats)%nat /\ stoatArray !! i = Some si /\ partner si /\
              (forall j sj, (j < i)%nat -> stoatArray !! j = Some sj -> ~ partner sj) /\
              addMating matingArray stoatid (Stoat.id si) habituationDays = Some (snd r)).
  - intros i r Hi [-> Hno].
    post_step. post_step.
    assert (forall Hs : ~ partner s,
              forall j sj, (j < S i)%nat -> stoatArray !! j = Some sj -> ~ partner sj)
      as Hskip.
    { intros Hs j sj Hj Ej. destruct (Nat.eq_dec j i) as [->|Hne].
      - assert (sj = s) as -> by congruence. exact Hs.
      - apply (Hno j sj); [lia|exact Ej]. }
    post_step.
    + repeat match goal with
      | H : _ && _ = true |- _ => apply andb_prop in H; destruct H
      end.
      post_step.
      { post_step. split; [reflexivity|]. apply Hskip.
        intros (_ & _ & _ & Hm & _). congruence. }
      post_step.
      2:{ post_step. split; [reflexivity|]. apply Hskip.
          intros (_ & _ & _ & _ & Hd). congruence. }
      assert (partner s) as Hp.
      { repeat split; auto.
        - apply negb_true_iff. assumption.
        - apply negb_true_iff. assumption.
        - apply Z.eqb_eq. assumption. }
      apply post_bind.
      apply post_mono with (P := keyRel stoatArray).
      { post_step; [|post_step; apply keyRel_refl].
        post_step. post_step. post_step; [|post_step; apply keyRel_refl].
        post_step. post_step.
        apply post_forRange with (I := keyRel stoatArray).
        - intros j arr2 _ Ha. repeat post_step; simpl; try exact Ha. key_step.
        - eapply keyRel_insert; [eassumption|]. repeat split; simpl; auto. }
      intros arr2 Hk. post_step. post_step.
      destruct (Forall2_lookup_l _ _ _ _ _ Hk Hlk) as (t & Et & (_ & _ & Hid & _)).
      assert (s0 = t) as -> by congruence. rewrite Hid.
      destruct (addMating matingArray stoatid (Stoat.id s) habituationDays) as [M'|] eqn:EM;
        [|post_step].
      post_step. simpl. split; [reflexivity|]. split; [exact Hk|].
      exists i, s. split; [exact Hi|]. split; [assumption|]. split; [exact Hp|].
      split; [exact Hno|exact EM].
    + post_step. split; [reflexivity|]. apply Hskip.
      intros (Hd & Hm & Hpar & _).
      rewrite Hd, Hm, Hpar in *. discriminate.
  - split; [reflexivity|]. intros j sj Hj. lia.
Qed.

(** ** What a birth writes *)

Lemma kitOf_mono m cid c c' t : kitOf m cid c t -> c <= c' -> kitOf m cid c' t.
Proof. unfold kitOf. intros H Hc. repeat split; try tauto; lia. Qed.

Lemma placeKit_fields (arr1 : list Stoat.t) (k stoat : nat) cid c m :
  arr1 !! stoat = Some m -> k <> stoat -> cid <= c ->
  post (placeKit arr1 k stoat (Stoat.x m) (Stoat.y m) c)
       (fun a => a !! stoat = Some m /\
                 (exists t', a !! k = Some t' /\ kitOf m cid (c + 1) t') /\
                 (exists old, arr1 !! k = Some old) /\
                 forall j, j <> k -> a !! j = arr1 !! j).
Proof.
  intros Em Hne Hc. unfold placeKit. repeat post_step.
  rewrite list_lookup_insert_ne in Hlk0 by congruence.
  assert (s0 = m) as -> by congruence.
  split; [rewrite !list_lookup_insert_ne by congruence; exact Em|].
  split.
  - eexists. split.
    + apply list_lookup_insert_eq. rewrite length_insert.
      eapply lookup_lt_Some; eassumption.
    + rewrite list_lookup_insert_eq in Hlk1 by (eapply lookup_lt_Some; eassumption).
      inversion Hlk1; subst. unfold kitOf. simpl. repeat split; auto; lia.
  - split; [eauto|].
    intros j Hj. rewrite !list_lookup_insert_ne by congruence. reflexivity.
Qed.

Lemma doBirth_append_fields nKits (stoat : nat) (arr : list Stoat.t) n cid m :
  (stoat < n)%nat ->
  forall st,
  (fst (fst st) !! stoat = Some m /\ (n <= snd (fst st))%nat /\ cid <= snd st /\
   forall j t', fst (fst st) !! j = Some t' -> j <> stoat ->
     (arr !! j = Some t' /\ (j < n \/ snd (fst st) <= j)%nat) \/
     (kitOf m cid (snd st) t' /\
      (exists old, arr !! j = Some old /\ (Stoat.deleted old = true \/ (n <= j)%nat)) /\
      (j < snd (fst st))%nat)) ->
  post (doBirth_append nKits stoat (Stoat.x m) (Stoat.y m) st)
       (fun r => fst (fst r) !! stoat = Some m /\ (n <= snd (fst r))%nat /\ cid <= snd r /\
          forall j t', fst (fst r) !! j = Some t' -> j <> stoat ->
            (arr !! j = Some t' /\ (j < n \/ snd (fst r) <= j)%nat) \/
            (kitOf m cid (snd r) t' /\
             (exists old, arr !! j = Some old /\
                          (Stoat.deleted old = true \/ (n <= j)%nat)) /\
             (j < snd (fst r))%nat)).
Proof.
  intros Hlt. induction nKits as [|k IH]; intros [[a nc] c] (Em & Hn & Hc & H); simpl in *.
  - apply post_ret. simpl. auto.
  - apply post_bind. eapply post_mono.
    + apply (placeKit_fields a nc stoat cid c m Em); [lia|exact Hc].
    + intros a1 (Em1 & (tk & Etk & Hkit) & (t0 & E0) & Hsame). simpl.
      post_step; [post_step|].
      apply IH. simpl. split; [exact Em1|]. split; [lia|]. split; [lia|].
      intros j t' E Hj. destruct (Nat.eq_dec j nc) as [->|Hjn].
      * right. assert (t' = tk) as -> by congruence. split; [exact Hkit|].
        split; [|lia].
        destruct (H nc t0 E0 ltac:(lia)) as [[Ea _]|(_ & _ & Hbad)]; [|lia].
        exists t0. split; [exact Ea|]. right. lia.
      * rewrite Hsame in E by exact Hjn.
        destruct (H j t' E Hj) as [[Ea Hr]|(Hk & Ho & Hjl)].
        -- left. split; [exact Ea|]. lia.
        -- right. split; [eapply kitOf_mono; [exact Hk|lia]|]. split; [exact Ho|lia].
Qed.

(** X23: what doBirth writes. Every slot other than the mother's is
    either as it was, or holds a kit: a live agent at the mother's
    position, with her id as [parentid], not pregnant, with an id taken
    from the counter during this birth, written over a deleted slot or
    over a slot at or beyond the old [nStoats]. Slots from the new
    [nStoats] on are untouched, the mother only loses her pregnancy, and
    neither [nStoats] nor the id counter decreases. *)
Theorem birth_writes_kits (num : Numerics) (stoatArray : list Stoat.t) (nStoats : nat)
    (stoat : nat) (meanRecruits : Q) (Current_Id : Z) (m : Stoat.t) :
  stoatArray !! stoat = Some m -> Stoat.deleted m = false -> (stoat < nStoats)%nat ->
  post (doBirth num stoatArray nStoats stoat meanRecruits Current_Id)
       (fun r =>
          (nStoats <= snd (fst r))%nat /\ Current_Id <= snd r /\
          fst (fst r) !! stoat
            = Some (Stoat.set_pregnant_day (-1) (Stoat.set_pregnant false m)) /\
          forall j t', fst (fst r) !! j = Some t' -> j <> stoat ->
            (stoatArray !! j = Some t' /\ (j < nStoats \/ snd (fst r) <= j)%nat) \/
            (kitOf m Current_Id (snd r) t' /\
             (exists old, stoatArray !! j = Some old /\
                          (Stoat.deleted old = true \/ (nStoats <= j)%nat)) /\
             (j < snd (fst r))%nat)).
Proof.
  intros Em Hd Hlt. unfold doBirth. do 4 post_step.
  assert (s = m) as -> by congruence.
  apply post_bind. eapply post_mono.
  - apply post_forRange
      with (I := fun r : list Stoat.t * nat * Z =>
                   fst (fst r) !! stoat = Some m /\ Current_Id <= snd r /\
                   forall j t', fst (fst r) !! j = Some t' -> j <> stoat ->
                     stoatArray !! j = Some t' \/
                     (kitOf m Current_Id (snd r) t' /\
                      (exists old, stoatArray !! j = Some old /\ Stoat.deleted old = true) /\
                      (j < nStoats)%nat)).
    + intros i [[a k] c] Hi (Ema & Hc & H); simpl in Ema, Hc, H.
      destruct k as [|k]; [post_step; simpl; auto|].
      post_step. post_step. post_step; [|post_step; simpl; auto].
      assert (i <> stoat) as Hne by (intros ->; congruence).
      post_step. eapply post_mono; [apply (placeKit_fields a i stoat Current_Id c m Ema Hne Hc)|].
      intros a1 (Em1 & (tk & Etk & Hkit) & _ & Hsame). post_step. simpl.
      split; [exact Em1|]. split; [lia|].
      intros j t' E Hj. destruct (Nat.eq_dec j i) as [->|Hji].
      * right. assert (t' = tk) as -> by congruence. split; [exact Hkit|].
        split; [|exact Hi].
        destruct (H i s Hlk0 Hne) as [Ea|(Hk & _)].
        -- exists s. auto.
        -- destruct Hk as (Hdk & _). congruence.
      * rewrite Hsame in E by exact Hji.
        destruct (H j t' E Hj) as [Ea|(Hk & Ho & Hjl)]; [left; exact Ea|].
        right. split; [eapply kitOf_mono; [exact Hk|lia]|]. auto.
    + simpl. split; [exact Em|]. split; [lia|]. intros j t' E _. left. exact E.
  - intros [[a k] c] (Ema & Hc & H); simpl in Ema, Hc, H.
    apply post_bind. eapply post_mono.
    + apply (doBirth_append_fields k stoat stoatArray nStoats Current_Id m Hlt (a, nStoats, c)).
      simpl. split; [exact Ema|]. split; [lia|]. split; [exact Hc|].
      intros j t' E Hj. destruct (H j t' E Hj) as [Ea|(Hk & (old & Eo & Hod) & Hjl)].
      * left. split; [exact Ea|]. lia.
      * right. split; [exact Hk|]. split; [eauto|exact Hjl].
    + intros [[a2 n2] c2] (Em2 & Hn2 & Hc2 & H2); simpl in Em2, Hn2, Hc2, H2.
      post_step. post_step. post_step. simpl.
      assert (s = m) as -> by congruence.
      split; [exact Hn2|]. split; [exact Hc2|]. split.
      * apply list_lookup_insert_eq. eapply lookup_lt_Some; exact Em2.
      * intros j t' E Hj. rewrite list_lookup_insert_ne in E by congruence.
        apply H2; assumption.
Qed.

(** ** The nest scan *)

(** X24: checkStoatHasKitsInNest answers [True] exactly when a slot in
    use holds a live agent whose [parentid] is the given id. *)
Theorem kits_in_nest_scan (stoatArray : list Stoat.t) (nStoats : nat)
    (stoatid : Z) :
  post (checkStoatHasKitsInNest stoatArray nStoats stoatid)
       (fun hasKits =>
          hasKits = true <->
          exists i s, (i < nStoats)%nat /\ stoatArray !! i = Some s /\
                      Stoat.deleted s = false /\ Stoat.parentid s = stoatid).
Proof.
  unfold checkStoatHasKitsInNest.
  eapply post_mono.
  - apply post_forRange_idx_break with
      (I := fun (i : nat) (hasKits : bool) =>
              hasKits = false /\
              forall j s, (j < i)%nat -> stoatArray !! j = Some s ->
                ~ (Stoat.deleted s = false /\ Stoat.parentid s = stoatid))
      (J := fun hasKits : bool =>
              hasKits = true /\
              exists i s, (i < nStoats)%nat /\ stoatArray !! i = Some s /\
                          Stoat.deleted s = false /\ Stoat.parentid s = stoatid).
    + intros i hasKits Hi [-> Hno]. post_step. post_step. post_step.
      * post_step. split; [reflexivity|].
        apply andb_prop in Heqb. destruct Heqb as [Hd Hp].
        apply negb_true_iff in Hd. apply Z.eqb_eq in Hp. exists i, s. auto.
      * post_step. split; [reflexivity|].
        intros j sj Hj Ej. destruct (Nat.eq_dec j i) as [->|Hne].
        -- assert (sj = s) as -> by congruence. intros [Hd Hp].
           rewrite Hd in Heqb. apply Z.eqb_eq in Hp. rewrite Hp in Heqb. discriminate.
        -- apply (Hno j sj); [lia|exact Ej].
    + split; [reflexivity|]. intros j s Hj. lia.
  - intros hasKits [[-> Hno]|[-> Hex]].
    + split; [discriminate|]. intros (i & s & Hi & Es & Hd & Hp).
      exfalso. apply (Hno i s Hi Es). auto.
    + split; [intros _; exact Hex|reflexivity].
Qed.

(** ** Table sizes *)

Lemma sameSizes_refl w : sameSizes w w.
Proof. unfold sameSizes. repeat split; auto; lia. Qed.

Lemma sameSizes_trans a b c : sameSizes a b -> sameSizes b c -> sameSizes a c.
Proof. unfold sameSizes. intros H1 H2. repeat split; try lia; intuition congruence || lia. Qed.

Lemma addMating_length M sid fid hab M' :
  addMating M sid fid hab = Some M' -> length M' = length M.
Proof.
  intros H. destruct (addMating_Some _ _ _ _ _ H) as (i & m & _ & _ & _ & ->).
  apply length_insert.
Qed.

Lemma addInteraction_length P sid p hab P' :
  addInteraction P sid p hab = Some P' -> length P' = length P.
Proof.
  intros H. destruct (addInteraction_Some _ _ _ _ _ H) as (i & m & _ & _ & _ & ->).
  apply length_insert.
Qed.

Lemma doMaleMating_length num x y sid arr n enc M hab day pp :
  post (doMaleMating num x y sid arr n enc M hab day pp)
       (fun r => length (snd (fst r)) = length arr /\ length (snd r) = length M).
Proof.
  eapply post_mono.
  - apply post_and; [apply doMaleMating_keyRel|].
    unfold doMaleMating.
    apply post_forRange
      with (I := fun r : bool * list Stoat.t * list Mating.t => length (snd r) = length M);
      [|reflexivity].
    intros i [[mated arr1] M1] _ H; simpl in H.
    post_step. post_step. post_step; [|post_step; exact H].
    post_step; [post_step; exact H|].
    post_step; [|post_step; exact H].
    apply post_bind, post_any. intros arr2. post_step. post_step.
    destruct (addMating M1 sid (Stoat.id s0) hab) as [M2|] eqn:EM; [|post_step].
    post_step. simpl. rewrite (addMating_length _ _ _ _ _ EM). exact H.
  - intros r [Hk HM]. split; [|exact HM].
    symmetry. eapply Forall2_length. exact Hk.
Qed.

Lemma doPheromoneInteraction_length num x y sid arr n pher enc P hab :
  post (doPheromoneInteraction num x y sid arr n pher enc P hab)
       (fun P' => length P' = length P).
Proof.
  unfold doPheromoneInteraction.
  apply post_forRange with (I := fun P' : list Interaction.t => length P' = length P);
    [|reflexivity].
  intros i P1 _ H.
  destruct (pher !! i) as [ph|]; [|post_step].
  post_step; [|post_step; exact H].
  cbv zeta.
  destruct (addInteraction P1 sid (Z.of_nat i) hab) as [P2|] eqn:EP; [|post_step].
  post_step. simpl. rewrite (addInteraction_length _ _ _ _ _ EP). exact H.
Qed.

Lemma placeKit_length (arr : list Stoat.t) (k stoat : nat) x y cid :
  post (placeKit arr k stoat x y cid)
       (fun a => length a = length arr /\ (k < length arr)%nat).
Proof.
  unfold placeKit. repeat post_step. rewrite !length_insert.
  split; [reflexivity|]. eapply lookup_lt_Some; eassumption.
Qed.

Lemma doBirth_append_length nKits (stoat : nat) x y :
  forall st,
  post (doBirth_append nKits stoat x y st)
       (fun r => length (fst (fst r)) = length (fst (fst st)) /\
                 (snd (fst st) <= snd (fst r))%nat /\ snd st <= snd r /\
                 ((snd (fst st) <= length (fst (fst st)))%nat ->
                  (snd (fst r) <= length (fst (fst r)))%nat)).
Proof.
  induction nKits as [|k IH]; intros [[a nc] c]; simpl.
  - apply post_ret. simpl. repeat split; auto; lia.
  - apply post_bind. eapply post_mono; [apply placeKit_length|].
    intros a1 [HL Hk]. simpl. post_step; [post_step|].
    eapply post_mono; [apply (IH (a1, S nc, c + 1))|].
    intros [[a2 n2] c2] (H1 & H2 & H3 & H4). simpl in *.
    repeat split; lia.
Qed.

Lemma doBirth_length num (arr : list Stoat.t) n (stoat : nat) mean cid :
  post (doBirth num arr n stoat mean cid)
       (fun r => length (fst (fst r)) = length arr /\
                 (n <= snd (fst r))%nat /\ cid <= snd r /\
                 ((n <= length arr)%nat -> (snd (fst r) <= length (fst (fst r)))%nat)).
Proof.
  unfold doBirth. do 4 post_step.
  apply post_bind. eapply post_mono.
  - apply post_forRange
      with (I := fun r : list Stoat.t * nat * Z =>
                   length (fst (fst r)) = length arr /\ cid <= snd r);
      [|simpl; split; [reflexivity|lia]].
    intros i [[a k] c] _ [HL Hc]; simpl in HL, Hc.
    destruct k as [|k]; [post_step; simpl; auto|].
    post_step. post_step. post_step; [|post_step; simpl; auto].
    post_step. eapply post_mono; [apply placeKit_length|].
    intros a1 [HL1 _]. post_step. simpl. split; [congruence|lia].
  - intros [[a k] c] [HL Hc]; simpl in HL, Hc.
    apply post_bind. eapply post_mono; [apply (doBirth_append_length k stoat _ _ (a, n, c))|].
    intros [[a2 n2] c2] (H1 & H2 & H3 & H4); simpl in H1, H2, H3, H4.
    post_step. post_step. post_step. simpl. rewrite length_insert.
    repeat split; try lia; try congruence.
Qed.

Lemma killStoat_sizes stoat w :
  post (killStoat stoat w) (sameSizes w).
Proof.
  unfold killStoat. post_step. post_step.
  apply post_bind.
  apply post_mono with (P := fun a : list Stoat.t => length a = length (stoatArray w)).
  - apply post_forRange
      with (I := fun a : list Stoat.t => length a = length (stoatArray w));
      [|apply length_insert].
    intros i a _ H. repeat post_step; simpl; rewrite ?length_insert; exact H.
  - intros a H. post_step. post_step. post_step.
    unfold sameSizes. simpl. rewrite !length_map. repeat split; auto; lia.
Qed.

Lemma sameSizes_stoats w arr :
  length arr = length (stoatArray w) -> sameSizes w (withStoats w arr).
Proof. intros H. unfold sameSizes. simpl. repeat split; auto; try lia; congruence. Qed.

Lemma stoatHour_sizes num p day hour e dsp stoat w b :
  post (stoatHour num p day hour e dsp stoat (w, b)) (fun r => sameSizes w (fst r)).
Proof.
  unfold stoatHour. post_step. post_step.
  post_step; [post_step; apply sameSizes_refl|].
  apply post_bind, post_any. intros hb.
  post_step. post_step.
  set (arr1 := <[stoat := Stoat.set_homerange hb s0]> (stoatArray w)).
  assert (length arr1 = length (stoatArray w)) as HL1 by apply length_insert.
  apply post_bind.
  apply post_mono with (P := fun r : bool * World => sameSizes w (snd r)).
  { post_step.
    - post_step; [|post_step; apply sameSizes_stoats; exact HL1].
      post_call doMaleMating_length.
      intros [[mated arr2] M2] [Ha HM]. simpl in Ha, HM. post_step.
      unfold sameSizes. simpl. repeat split; auto; try lia; congruence.
    - post_step; [|post_step; apply sameSizes_stoats; exact HL1].
      apply post_bind. eapply post_mono; [apply doBirth_length|].
      intros [[arr2 n2] c2] (Ha & Hn & Hc & Hb). simpl in *. post_step.
      unfold sameSizes. simpl. repeat split; auto; try lia; try congruence. }
  intros [mated w1] Hw1; simpl in Hw1.
  apply post_bind.
  apply post_mono with (P := sameSizes w).
  { post_step; [|post_step; exact Hw1].
    post_call doPheromoneInteraction_length. intros pia Hp. post_step.
    unfold sameSizes in *. simpl. intuition congruence. }
  intros w2 Hw2.
  apply post_bind.
  apply post_mono with (P := fun r : bool * World => sameSizes w (snd r)).
  { post_step; [|post_step; exact Hw2].
    post_step; [|post_step; exact Hw2].
    post_step. post_step. post_step; [|post_step; exact Hw2].
    apply post_bind, post_any. intros dbg. post_step. exact Hw2. }
  intros [killed w3] Hw3; simpl in Hw3.
  apply post_bind, post_any. intros killed'.
  post_step.
  - post_call killStoat_sizes. intros w4 Hw4. post_step.
    eapply sameSizes_trans; eassumption.
  - post_step; [post_step; exact Hw3|].
    apply post_bind, post_any. intros mateResult.
    assert (forall cx cy,
      post (let* arr := moveStoat num p stoat (Stoat.x s) (Stoat.y s) cx cy mateResult hb
                          (stoatArray w3) in
            ret (withStoats w3 arr, false)) (fun r => sameSizes w (fst r))) as Hmove.
    { intros cx cy. post_call moveStoat_keyRel. intros arr4 Hk4. post_step.
      eapply sameSizes_trans; [exact Hw3|]. apply sameSizes_stoats.
      symmetry. eapply Forall2_length. exact Hk4. }
    destruct mateResult as [[[cx cy] k]|]; apply Hmove.
Qed.

Lemma hourBody_sizes num p day hour rs :
  post (hourBody num p day hour rs) (fun c => sameSizes (world rs) (world (ctl_state c))).
Proof.
  unfold hourBody.
  apply post_bind.
  apply post_mono with (P := fun r : World * bool => sameSizes (world rs) (fst r)).
  - apply post_forRange with (I := fun r : World * bool => sameSizes (world rs) (fst r));
      [|apply sameSizes_refl].
    intros i [w b] _ Hw. simpl in Hw.
    post_call stoatHour_sizes. intros r Hr. post_step.
    eapply sameSizes_trans; eassumption.
  - intros [w erad] Hw; simpl in Hw.
    apply post_bind, post_any. intros dbg.
    destruct erad; post_step; exact Hw.
Qed.

Lemma dayBody_sizes num p day rs :
  post (dayBody num p day rs) (fun c => sameSizes (world rs) (world (ctl_state c))).
Proof.
  unfold dayBody. post_step; [post_step; apply sameSizes_refl|].
  apply post_bind.
  apply post_mono with (P := keyRel (stoatArray (world rs))).
  { post_step; [apply disperse_keyRel|post_step; apply keyRel_refl]. }
  intros arr Harr.
  assert (sameSizes (world rs) (withStoats (world rs) arr)) as H0.
  { apply sameSizes_stoats. symmetry. eapply Forall2_length. exact Harr. }
  apply post_bind. eapply post_mono.
  - apply post_forRange with (I := fun rs1 : RunState => sameSizes (world rs) (world rs1));
      [|exact H0].
    intros hour rs1 _ H1. eapply post_mono; [apply hourBody_sizes|].
    intros c Hc. eapply sameSizes_trans; eassumption.
  - intros rs1 H1. simpl in H1. post_step; post_step; simpl; [exact H1|].
    unfold sameSizes, endOfDay in *. simpl. rewrite !length_map. exact H1.
Qed.

(** X25: over a whole run the agent table, the mating table and the
    habituation table keep their lengths, [nStoats] and the id counter
    never decrease, and a slot count that starts within the agent table
    ends within it: a run that returns has written no slot outside the
    table. *)
Theorem run_keeps_table_sizes (num : Numerics) (p : Params) (w : World) :
  post (runRealisation num p w) (fun r => sameSizes w (snd r)).
Proof.
  unfold runRealisation.
  apply post_bind. eapply post_mono.
  - apply post_forRange with (I := fun rs : RunState => sameSizes w (world rs));
      [|apply sameSizes_refl].
    intros day rs _ H1. eapply post_mono; [apply dayBody_sizes|].
    intros c Hc. eapply sameSizes_trans; eassumption.
  - intros rs H1. simpl in H1. post_step; [post_step; exact H1|post_step].
Qed.

(** ** The land test on a mask that covers its box *)






(** ** No read outside the mask *)







































(** ** The answer of a zero-survival run *)


(** A day that starts below the explosion threshold, with a daily
    survival probability of 0: when it ends without stopping the run,
    its last hour has killed every agent and left the flag [False]. *)
Lemma dayBody_zero_flag num p day rs :
  (pDaySurv p == 0)%Q -> (1 <= hoursPerDay p)%nat -> (nStoats (world rs) <= 175)%nat ->
  post (dayBody num p day rs)
       (fun c => match c with
                 | Next rs' => allDeleted (world rs') /\ eradication rs' = Some false
                 | Break rs' => allDeleted (world rs') /\ eradication rs' = Some true
                 end).
Proof.
  intros Hps HH Hn. unfold dayBody.
  destruct (Nat.ltb_spec 175 (nStoats (world rs))) as [Hgt|_]; [lia|].
  apply post_bind, post_any. intros arr.
  apply post_bind. eapply post_mono.
  - apply post_forRange_idx_break with
      (I := fun (i : nat) (s : RunState) =>
              ((1 <= i)%nat -> returned s = false /\ eradication s = Some false) /\
              (i = hoursPerDay p -> allDeleted (world s)))
      (J := fun s : RunState =>
              allDeleted (world s) /\ eradication s = Some true /\ returned s = true).
    + intros hour rs1 Hh _. eapply post_mono; [apply hourBody_spec|].
      intros [rs'|rs']; simpl.
      * intros (Hr & He & Hlast). split; [intros _; auto|].
        intros Hi. apply Hlast; [exact Hps|lia].
      * intros (Hd & He & Hr & _). auto.
    + simpl. split; intros; lia.
  - intros rs1 [[Hr Hd]|(Hd & He & Hr)]; simpl.
    + destruct (Hr ltac:(lia)) as [Hr1 He1]. rewrite Hr1. post_step.
      unfold endOfDay. simpl. split; [|exact He1].
      intros j s Hj Ej. simpl in *. exact (Hd eq_refl j s Hj Ej).
    + rewrite Hr. post_step. auto.
Qed.



(** * Instances on concrete inputs *)


Lemma anti_explosion_guard_witness :
  (1 <= nDays (exParams 3 16 [] [] [] [] None [] [] [] (1 # 2)))%nat /\
  (175 < nStoats (exWorld (emptyStoats 200) 176 176 [] []))%nat /\
  runRealisation refNumerics (exParams 3 16 [] [] [] [] None [] [] [] (1 # 2))
    (exWorld (emptyStoats 200) 176 176 [] []) []
  = Ok (false, exWorld (emptyStoats 200) 176 176 [] []) [].
Proof.
  assert (1 <= nDays (exParams 3 16 [] [] [] [] None [] [] [] (1 # 2)))%nat as H1
    by (simpl; lia).
  assert (175 < nStoats (exWorld (emptyStoats 200) 176 176 [] []))%nat as H2
    by (simpl; lia).
  split; [exact H1|]. split; [exact H2|].
  exact (proj1 (proj2 (anti_explosion_guard refNumerics
                         (exParams 3 16 [] [] [] [] None [] [] [] (1 # 2))))
           (exWorld (emptyStoats 200) 176 176 [] []) [] H1 H2).
Defined.



Lemma newborn_bearing_witness :
  (1 < 2)%nat /\
  [exAdult false false 0; exKit true 1 0] !! 1%nat = Some (exKit true 1 0) /\
  liveJuvenile (exKit true 1 0) /\
  disperse refNumerics exIsland 2
    (<[1%nat := Stoat.set_bearingT_1 2 (exKit true 1 0)]>
       [exAdult false false 0; exKit true 1 0]) [1 # 2; 1 # 2; 3 # 4]%Q =
  disperse refNumerics exIsland 2 [exAdult false false 0; exKit true 1 0]
    [1 # 2; 1 # 2; 3 # 4]%Q.
Proof.
  assert (1 < 2)%nat as H1 by lia.
  assert ([exAdult false false 0; exKit true 1 0] !! 1%nat = Some (exKit true 1 0)) as H2
    by reflexivity.
  assert (liveJuvenile (exKit true 1 0)) as H3 by (split; [reflexivity|discriminate]).
  split; [exact H1|]. split; [exact H2|]. split; [exact H3|].
  exact (proj2 (proj2 (proj2 (newborn_bearing refNumerics)))
           exIsland 2%nat _ 1%nat _ 2%Q _ H1 H2 H3).
Defined.

(** A kit is born into a freed slot whose last occupant remembered
    bearing 2 and keeps that value; at dispersal it is promoted and its
    bearing becomes the uniform draw (pi/2 here); its first
    directed-search step starts from that drawn bearing, not from 2. *)
Lemma newborn_bearing_counterexample :
  exists arr1 arr2 arr3 kit1 kit2 kit3,
    doBirth refNumerics [exAdult false true 0; exFreed 2] 2 0 9 5 [1 # 18; 1 # 4]%Q
      = Ok (arr1, 2%nat, 6) [] /\
    arr1 !! 1%nat = Some kit1 /\ Stoat.deleted kit1 = false /\
    Stoat.parentid kit1 = 0 /\ Stoat.bearingT_1 kit1 = 2%Q /\
    disperse refNumerics exIsland 2 arr1 [1 # 2; 1 # 2; 3 # 4]%Q = Ok arr2 [] /\
    arr2 !! 1%nat = Some kit2 /\ Stoat.parentid kit2 = -1 /\
    Qeq_bool (Stoat.bearingT_1 kit2) 2 = false /\
    moveStoat refNumerics (exParams 1 1 [] [] [] [] None [] [] [] 1) 1 0 0 0 0 None false
      arr2 [0; 1 # 2]%Q = Ok arr3 [] /\
    arr3 !! 1%nat = Some kit3 /\
    Qeq_bool (Stoat.bearingT_1 kit3) (Stoat.bearingT_1 kit2) = true /\
    Qeq_bool (Stoat.bearingT_1 kit3) 2 = false.
Proof.
  do 6 eexists.
  split; [vm_compute; reflexivity|].
  split; [reflexivity|]. split; [reflexivity|]. split; [reflexivity|].
  split; [reflexivity|].
  split; [vm_compute; reflexivity|].
  split; [reflexivity|]. split; [reflexivity|]. split; [vm_compute; reflexivity|].
  split; [vm_compute; reflexivity|].
  split; [reflexivity|]. split; vm_compute; reflexivity.
Qed.

Lemma mating_ledger_unique_witness :
  WorldInv (exWorld [exAdult false false 0; exAdult true false 1] 2 2 (emptyMatings 3) []) /\
  exists w,
    runRealisation refNumerics (exParams 1 1 [] [0%nat] [] [] None [] [] [] 1)
      (exWorld [exAdult false false 0; exAdult true false 1] 2 2 (emptyMatings 3) [])
      [0; 0; 0; 1 # 2; 0; 0; 0; 1 # 2]%Q = Ok (false, w) [] /\
    (exists m, matingArray w !! 0%nat = Some m /\
               Mating.maleid m = 1 /\ Mating.femaleid m = 0) /\
    matingUnique (matingArray w).
Proof.
  assert (WorldInv (exWorld [exAdult false false 0; exAdult true false 1] 2 2
                      (emptyMatings 3) [])) as H.
  { assert (Inv [exFreed 0; exFreed 0] 0 0 (emptyMatings 3)) as H0
      by (apply Inv_blank; repeat constructor).
    assert (Inv [exAdult false false 0; exFreed 0] 1 1 (emptyMatings 3)) as H1.
    { apply (Inv_fresh [exFreed 0; exFreed 0] 0 1 0 (emptyMatings 3) 0 (exFreed 0)
               (exAdult false false 0) H0); try reflexivity; lia. }
    apply (Inv_fresh [exAdult false false 0; exFreed 0] 1 2 1 (emptyMatings 3) 1 (exFreed 0)
             (exAdult true false 1) H1); try reflexivity; lia. }
  split; [exact H|].
  destruct (mating_ledger_unique refNumerics
              (exParams 1 1 [] [0%nat] [] [] None [] [] [] 1)) as (U & _ & D).
  destruct (D _ H) as (_ & _ & _ & _ & _ & R).
  eexists. split; [vm_compute; reflexivity|].
  split; [eexists; repeat split; reflexivity|].
  apply U.
  refine (R [0; 0; 0; 1 # 2; 0; 0; 0; 1 # 2]%Q (false, _) [] _).
  vm_compute. reflexivity.
Defined.

Lemma zero_survival_eradication_witness :
  exists w',
    runRealisation refNumerics (exParams 2 1 [] [] [] [] None [] [] [] 0)
      (exWorld [exAdult false false 0] 1 1 (emptyMatings 1) []) [0%Q] = Ok (true, w') [] /\
    allDeleted w'.
Proof.
  eexists. split; [vm_compute; reflexivity|].
  assert (pDaySurv (exParams 2 1 [] [] [] [] None [] [] [] 0) == 0)%Q as H1 by reflexivity.
  assert (1 <= hoursPerDay (exParams 2 1 [] [] [] [] None [] [] [] 0))%nat as H2
    by (simpl; lia).
  assert (2 <= nDays (exParams 2 1 [] [] [] [] None [] [] [] 0))%nat as H3 by (simpl; lia).
  assert (nStoats (exWorld [exAdult false false 0] 1 1 (emptyMatings 1) []) <= 175)%nat as H4
    by (simpl; lia).
  refine (proj1 (zero_survival_eradication refNumerics _ _ H1 H2 H3 H4 [0%Q] (true, _) [] _)).
  vm_compute. reflexivity.
Defined.

Lemma certain_survival_no_deaths_witness :
  exists w',
    runRealisation refNumerics (exParams 1 1 [] [] [] [] None [] [] [] 1)
      (exWorld [exAdult false false 0] 1 1 (emptyMatings 1) []) [0; 0; 0]%Q
    = Ok (false, w') [] /\
    survive (exWorld [exAdult false false 0] 1 1 (emptyMatings 1) []) w'.
Proof.
  eexists. split; [vm_compute; reflexivity|].
  assert (pDaySurv (exParams 1 1 [] [] [] [] None [] [] [] 1) == 1)%Q as H1 by reflexivity.
  assert (trappingDays (exParams 1 1 [] [] [] [] None [] [] [] 1) = None) as H2
    by reflexivity.
  refine (proj1 (certain_survival_no_deaths refNumerics _ _ H1 H2
                   [0; 0; 0]%Q (false, _) [] _)).
  vm_compute. reflexivity.
Defined.

Lemma habituation_countdown_witness :
  Interaction.stoatid (Interaction.mk 3 7 19) <> -1 /\
  Interaction.stoatid (Nat.iter 18 decrementInteraction (Interaction.mk 3 7 19)) = 7 /\
  Interaction.stoatid (Nat.iter 19 decrementInteraction (Interaction.mk 3 7 19)) = -1 /\
  Interaction.stoatid (Nat.iter 40 decrementInteraction (Interaction.mk 3 7 0)) = 7.
Proof.
  assert (Interaction.stoatid (Interaction.mk 3 7 19) <> -1) as H by (simpl; lia).
  assert (Interaction.stoatid (Interaction.mk 3 7 0) <> -1) as H0 by (simpl; lia).
  destruct (habituation_countdown (Interaction.mk 3 7 19) H) as (A & B & _).
  destruct (habituation_countdown (Interaction.mk 3 7 0) H0) as (_ & _ & C).
  split; [exact H|]. split; [|split].
  - refine (proj1 (A 18%nat _)). simpl. lia.
  - apply (B 19%nat). simpl. lia.
  - apply (C ltac:(simpl; lia) 40%nat).
Defined.

Lemma mating_countdown_witness :
  Mating.maleid (Mating.mk 4 6 2) <> -1 /\
  Mating.maleid (Nat.iter 1 decrementMating (Mating.mk 4 6 2)) = 4 /\
  Mating.maleid (Nat.iter 2 decrementMating (Mating.mk 4 6 2)) = -1.
Proof.
  assert (Mating.maleid (Mating.mk 4 6 2) <> -1) as H by (simpl; lia).
  destruct (mating_countdown (Mating.mk 4 6 2) H) as (A & B & _).
  split; [exact H|]. split.
  - refine (proj1 (A 1%nat _)). simpl. lia.
  - apply (B 2%nat). simpl. lia.
Defined.

Lemma mating_ledger_roundtrip_witness :
  addMating [Mating.mk 2 5 3; Mating.mk (-1) 0 0] 4 6 2
    = Some [Mating.mk 2 5 3; Mating.mk 4 6 2] /\
  alreadyMatedWith [Mating.mk 2 5 3; Mating.mk 4 6 2] 4 6 = true /\
  alreadyMatedWith [Mating.mk 2 5 3; Mating.mk 4 6 2] 4 5 = false.
Proof.
  assert (addMating [Mating.mk 2 5 3; Mating.mk (-1) 0 0] 4 6 2
            = Some [Mating.mk 2 5 3; Mating.mk 4 6 2]) as H by reflexivity.
  split; [exact H|]. split.
  - rewrite (proj1 (mating_ledger_roundtrip _ _ 4 6 2 4 6 H ltac:(lia))). reflexivity.
  - rewrite (proj1 (mating_ledger_roundtrip _ _ 4 6 2 4 5 H ltac:(lia))). reflexivity.
Defined.

Lemma habituation_ledger_roundtrip_witness :
  addInteraction [Interaction.mk 0 3 5; Interaction.mk 0 (-1) 0] 7 1 19
    = Some [Interaction.mk 0 3 5; Interaction.mk 1 7 19] /\
  alreadyInteracted [Interaction.mk 0 3 5; Interaction.mk 1 7 19] 7 1 = true /\
  alreadyInteracted [Interaction.mk 0 3 5; Interaction.mk 1 7 19] 7 0 = false.
Proof.
  assert (addInteraction [Interaction.mk 0 3 5; Interaction.mk 0 (-1) 0] 7 1 19
            = Some [Interaction.mk 0 3 5; Interaction.mk 1 7 19]) as H by reflexivity.
  split; [exact H|]. split.
  - rewrite (proj1 (habituation_ledger_roundtrip _ _ 7 1 19 7 1 H ltac:(lia))). reflexivity.
  - rewrite (proj1 (habituation_ledger_roundtrip _ _ 7 1 19 7 0 H ltac:(lia))). reflexivity.
Defined.

Lemma kill_clears_ledgers_witness :
  exists w',
    killStoat 0
      (exWorld [exAdult true false 1; exAdult false false 0] 2 2
         [Mating.mk 1 0 2] [Interaction.mk 0 1 5]) [] = Ok w' [] /\
    alreadyMatedWith (matingArray w') 1 0 = false /\
    alreadyInteracted (pheromoneInteractionArray w') 1 0 = false.
Proof.
  eexists. split; [vm_compute; reflexivity|].
  assert (stoatArray (exWorld [exAdult true false 1; exAdult false false 0] 2 2
                        [Mating.mk 1 0 2] [Interaction.mk 0 1 5]) !! 0%nat
          = Some (exAdult true false 1)) as E by reflexivity.
  assert (Stoat.id (exAdult true false 1) <> -1) as Hid by (simpl; lia).
  destruct (kill_clears_ledgers 0 _ _ E Hid [] _ [] ltac:(vm_compute; reflexivity))
    as (A & _ & C).
  split; [apply A|apply C].
Defined.

Lemma margin_reads_past_mask_witness :
  checkLocationIsOnIsland grid2 16 10 [] = Fault "mask" 2 /\
  checkLocationIsOnIsland grid2 10 4 [] = Fault "mask" 2 /\
  checkLocationIsOnIsland grid2 14 6 [] = Ok true [].
Proof.
  assert (0 < pixsize grid2)%Q as Hp by reflexivity.
  assert (tlx grid2 <= 16)%Q as A1 by (vm_compute; discriminate).
  assert (16 <= brx grid2)%Q as A2 by (vm_compute; discriminate).
  assert (bry grid2 <= 10)%Q as A3 by (vm_compute; discriminate).
  assert (10 <= tly grid2)%Q as A4 by (vm_compute; discriminate).
  assert (tlx grid2 <= 10)%Q as B1 by (vm_compute; discriminate).
  assert (10 <= brx grid2)%Q as B2 by (vm_compute; discriminate).
  assert (bry grid2 <= 4)%Q as B3 by (vm_compute; discriminate).
  assert (4 <= tly grid2)%Q as B4 by (vm_compute; discriminate).
  split; [|split; [|reflexivity]].
  - refine (proj2 (margin_reads_past_mask grid2 16 10 Hp A1 A2 A3 A4) [1; 1] _ _ _ []);
      reflexivity.
  - refine (proj1 (margin_reads_past_mask grid2 10 4 Hp B1 B2 B3 B4) _ _ []); reflexivity.
Defined.

Lemma schedule_contents_witness :
  dayMonthToDays exStartDate exEndDate [(15, 9); (15, 11)] 1
    = inr [45; 410; 775; 106; 471; 836] /\
  scheduledOffset exStartDate exEndDate [(15, 9); (15, 11)] 1 410.
Proof.
  assert (dayMonthToDays exStartDate exEndDate [(15, 9); (15, 11)] 1
            = inr [45; 410; 775; 106; 471; 836]) as H by (vm_compute; reflexivity).
  split; [exact H|].
  apply (proj1 (schedule_contents _ _ _ _ _ H 410)). simpl. auto.
Defined.

Lemma schedule_offsets_bounded_witness :
  exists res,
    dayMonthToDays exStartDate exEndDate [(20, 1); (20, 7); (20, 11)] 14 = inr res /\
    In 915 res /\ 0 <= 915 < Date.days_between exEndDate exStartDate + 14.
Proof.
  eexists. split; [vm_compute; reflexivity|].
  assert (Date.valid exStartDate) as Hs by reflexivity.
  assert (Date.valid exEndDate) as He by reflexivity.
  assert (In 915 [172; 173; 174; 175; 176; 177; 178; 179; 180; 181; 182; 183; 184;
          185; 537; 538; 539; 540; 541; 542; 543; 544; 545; 546; 547; 548;
          549; 550; 902; 903; 904; 905; 906; 907; 908; 909; 910; 911; 912;
          913; 914; 915; 353; 354; 355; 356; 357; 358; 359; 360; 361; 362;
          363; 364; 365; 366; 718; 719; 720; 721; 722; 723; 724; 725; 726;
          727; 728; 729; 730; 731; 111; 112; 113; 114; 115; 116; 117; 118;
          119; 120; 121; 122; 123; 124; 476; 477; 478; 479; 480; 481; 482;
          483; 484; 485; 486; 487; 488; 489; 841; 842; 843; 844; 845; 846;
          847; 848; 849; 850; 851; 852; 853; 854]) as Hin by (simpl; tauto).
  split; [exact Hin|].
  refine (schedule_offsets_bounded exStartDate exEndDate
            [(20, 1); (20, 7); (20, 11)] 14 _ Hs He _ 915 Hin).
  vm_compute. reflexivity.
Defined.

Lemma schedule_raises_iff_witness :
  Date.make 2021 2 29 = inl (ValueError "day is out of range for month") /\
  exists e, dayMonthToDays exStartDate exEndDate [(29, 2)] 1 = inl e.
Proof.
  assert (Date.make 2021 2 29 = inl (ValueError "day is out of range for month")) as H
    by reflexivity.
  split; [exact H|].
  apply (proj2 (schedule_raises_iff exStartDate exEndDate [(29, 2)] 1)).
  exists 29, 2, 2021, (ValueError "day is out of range for month").
  split; [simpl; auto|]. split; [simpl; lia|exact H].
Defined.

Lemma variates_in_range_witness :
  exists v,
    getRandomVariates refNumerics defaultParams
      [1 # 2; 1 # 2; 1 # 2; 1 # 2; 1 # 2; 1 # 2; 1 # 2; 1 # 2]%Q = Ok v [] /\
    19 <= Variates.habituationDays v < 20 /\
    within (PheromoneParams.alphaK defaultParams) (Variates.alphaK v).
Proof.
  assert (unitDraw (1 # 2)) as U by (split; vm_compute; [discriminate|reflexivity]).
  assert (0 <= fst (PheromoneParams.meanNAdd defaultParams))%Q as H0
    by (vm_compute; discriminate).
  assert (ordered (PheromoneParams.meanNAdd defaultParams)) as O1
    by (vm_compute; discriminate).
  assert (ordered (PheromoneParams.decoySpacing defaultParams)) as O2
    by (vm_compute; discriminate).
  assert (ordered (PheromoneParams.COA_decay_spatial defaultParams)) as O3
    by (vm_compute; discriminate).
  assert (ordered (PheromoneParams.COA_decay_temporal defaultParams)) as O4
    by (vm_compute; discriminate).
  assert (ordered (PheromoneParams.alphaK defaultParams)) as O5
    by (vm_compute; discriminate).
  assert (fst (PheromoneParams.habituationDays defaultParams)
          < snd (PheromoneParams.habituationDays defaultParams)) as Hh by (simpl; lia).
  destruct (variates_in_range refNumerics defaultParams
              (1 # 2) (1 # 2) (1 # 2) (1 # 2) (1 # 2) (1 # 2) (1 # 2) (1 # 2) []
              U U U U U U U H0 O1 O2 O3 O4 O5 Hh)
    as (v & E & _ & _ & _ & _ & _ & _ & _ & _ & Ha & Hd).
  exists v. split; [exact E|]. split; [exact Hd|exact Ha].
Defined.

Lemma default_variates_are_constant_witness :
  exists v,
    getRandomVariates refNumerics defaultParams
      [0; 0; 99 # 100; 0; 0; 99 # 100; 0; 0]%Q = Ok v [] /\
    6 <= Variates.nAdd v <= 7 /\ Variates.spacing v = 300%Q /\
    Variates.habituationDays v = 19.
Proof.
  assert (unitDraw 0) as U0 by (split; vm_compute; [discriminate|reflexivity]).
  assert (unitDraw (99 # 100)) as U1 by (split; vm_compute; [discriminate|reflexivity]).
  destruct (default_variates_are_constant refNumerics 0 0 (99 # 100) 0 0 (99 # 100) 0 0 []
              U0 U1 U1) as (v & E & A & B & C & _).
  exists v. auto.
Defined.

Lemma lure_grid_contents_witness :
  makePheromoneArray grid3 10 (northUp grid3)
    = inr [Pheromone.mk 10 10; Pheromone.mk 10 20] /\
  exists x y, gridPoint grid3 10 x y /\
    stationAt (mask grid3) (InvGeoTransform (northUp grid3)) x y = inr true /\
    Pheromone.mk 10 20 = Pheromone.mk (inject_Z x) (inject_Z y).
Proof.
  assert (makePheromoneArray grid3 10 (northUp grid3)
            = inr [Pheromone.mk 10 10; Pheromone.mk 10 20]) as H by (vm_compute; reflexivity).
  split; [exact H|].
  apply (proj1 (lure_grid_contents grid3 10 (northUp grid3) _ H (Pheromone.mk 10 20))).
  simpl. auto.
Defined.

Lemma lure_grid_lattice_witness :
  0 < py_int 10 /\
  exists x y,
    Pheromone.mk 10 10 = Pheromone.mk (inject_Z x) (inject_Z y) /\
    py_int (tlx grid3) <= x < py_int (brx grid3) /\
    py_int (bry grid3 + 10) <= y < py_int (tly grid3) /\
    (x - py_int (tlx grid3)) mod py_int 10 = 0 /\
    (y - py_int (bry grid3 + 10)) mod py_int 10 = 0.
Proof.
  assert (0 < py_int 10) as Hs by (vm_compute; reflexivity).
  split; [exact Hs|].
  refine (lure_grid_lattice grid3 10 (northUp grid3)
            [Pheromone.mk 10 10; Pheromone.mk 10 20] Hs _ (Pheromone.mk 10 10) _).
  - vm_compute. reflexivity.
  - simpl. auto.
Defined.

Lemma lure_grid_zero_step_witness :
  makePheromoneArray grid3 (1 # 2) (northUp grid3)
  = inl (EngineError (ValueError "range() arg 3 must not be zero")).
Proof.
  apply lure_grid_zero_step; vm_compute; reflexivity.
Defined.

Lemma attraction_search_complete_witness :
  exists r,
    checkForEstrousMatesAndDecoysInRadius refNumerics false 0 0
      [exAdult true false 1; exAdult false false 0] 2 1 2500 (1 # 100) (5 # 1000) (5 # 1000)
      (-1) [] [] (emptyMatings 1) [0%Q] = Ok r [] /\
    r <> None.
Proof.
  eexists. split; [vm_compute; reflexivity|].
  assert ((exists c, mateCandidate refNumerics false 0 0
                       [exAdult true false 1; exAdult false false 0] 2 1 2500
                       (emptyMatings 1) c) \/
          (-1 <> -1 /\
           exists c, lureCandidate refNumerics 0 0 1 2500 [] [] c)) as Hex.
  { left. exists (0%Q, 0%Q, 0%Q), 1%nat, (exAdult false false 0).
    repeat split; try reflexivity. lia. }
  refine (attraction_search_complete refNumerics false 0 0
            [exAdult true false 1; exAdult false false 0] 2 1 2500 (1 # 100) (5 # 1000)
            (5 # 1000) (-1) [] [] (emptyMatings 1) Hex [0%Q] _ [] _).
  vm_compute. reflexivity.
Defined.

Lemma birth_writes_kits_witness :
  exists r kit,
    doBirth refNumerics [exAdult false true 0; exFreed 0; exFreed 0] 1 0 9 1
      [1 # 9; 0; 3 # 4]%Q = Ok r [] /\
    snd (fst r) = 3%nat /\ snd r = 3 /\
    fst (fst r) !! 2%nat = Some kit /\
    kitOf (exAdult false true 0) 1 (snd r) kit.
Proof.
  eexists. eexists.
  split; [vm_compute; reflexivity|].
  split; [reflexivity|]. split; [reflexivity|]. split; [reflexivity|].
  assert ([exAdult false true 0; exFreed 0; exFreed 0] !! 0%nat
          = Some (exAdult false true 0)) as Em by reflexivity.
  assert (Stoat.deleted (exAdult false true 0) = false) as Hd by reflexivity.
  assert (0 < 1)%nat as Hlt by lia.
  destruct (birth_writes_kits refNumerics _ 1 0 9 1 _ Em Hd Hlt
              [1 # 9; 0; 3 # 4]%Q _ [] ltac:(vm_compute; reflexivity))
    as (_ & _ & _ & H).
  destruct (H 2%nat _ ltac:(reflexivity) ltac:(lia)) as [[Ea _]|(Hk & _)].
  - discriminate Ea.
  - exact Hk.
Defined.


